(** * Reader concurrency semaphore: admission control and permit accounting

    A shallow embedding of [reader_concurrency_semaphore.cc]: the permit
    ([reader_permit::impl]), the semaphore's counters, wait list, ready list
    and inactive-read cache, and the operations that tie them together.

    The semaphore and its permits live on one shard and mutate one another
    through references, so the model keeps one store: a semaphore record that
    owns every permit in a finite map keyed by the permit's address.  Every
    operation is a computation in a small state-and-failure monad over that
    record. *)

From Stdlib Require Import ZArith Bool List Lia.
From stdpp Require Import base option list gmap.

Local Open Scope Z_scope.

(** ** Machine integers *)

Definition UINT32_MAX : Z := 2 ^ 32 - 1.
Definition UINT64_MAX : Z := 2 ^ 64 - 1.
Definition INT_MAX : Z := 2 ^ 31 - 1.
Definition SSIZE_MAX : Z := 2 ^ 63 - 1.

(** Conversion of a signed value to [uint64_t] / [size_t]. *)
Definition to_u64 (z : Z) : Z := z mod 2 ^ 64.

(** Conversion of an unsigned 64-bit value to [ssize_t]. *)
Definition to_s64 (z : Z) : Z := (z + 2 ^ 63) mod 2 ^ 64 - 2 ^ 63.

(** [++x] and [--x] on a [uint64_t]. *)
Definition incr64 (x : Z) : Z := (x + 1) mod 2 ^ 64.
Definition decr64 (x : Z) : Z := (x - 1) mod 2 ^ 64.

(** ** Resources

    [reader_resources] is a pair of an [int] and an [ssize_t].  Signed
    overflow is undefined in the source; sums and differences are taken in
    [Z]. *)

Record reader_resources := mk_resources { count : Z; memory : Z }.

Definition res_add (a b : reader_resources) : reader_resources :=
  mk_resources (count a + count b) (memory a + memory b).

Definition res_sub (a b : reader_resources) : reader_resources :=
  mk_resources (count a - count b) (memory a - memory b).

Definition res_zero : reader_resources := mk_resources 0 0.

(** Modelled from the spec: [reader_resources::non_zero] is declared in the
    header, which is not part of the sources; section 3 of the spec reads
    "A non-zero predicate means any component is different from 0". *)
Definition non_zero (r : reader_resources) : bool :=
  negb (count r =? 0) || negb (memory r =? 0).

(** ** Permits *)

Inductive state :=
  | waiting_for_admission
  | waiting_for_memory
  | active_unused
  | active_used
  | active_blocked
  | inactive
  | evicted.

Definition state_eqb (a b : state) : bool :=
  match a, b with
  | waiting_for_admission, waiting_for_admission
  | waiting_for_memory, waiting_for_memory
  | active_unused, active_unused
  | active_used, active_used
  | active_blocked, active_blocked
  | inactive, inactive
  | evicted, evicted => true
  | _, _ => false
  end.

(** The fields of [reader_permit::impl] that the accounting reads or writes.
    The schema pointer, the operation name, the timeout and the result-size
    limit only feed diagnostics and the expiry timer. *)
Record permit := mk_permit {
  p_base_resources : reader_resources;
  p_base_resources_consumed : bool;
  p_resources : reader_resources;
  p_state : state;
  p_used_branches : Z;
  p_marked_as_used : bool;
  p_blocked_branches : Z;
  p_marked_as_blocked : bool;
  p_sstables_read : Z;
  p_requested_memory : Z;
  p_memory_future : option nat;
  p_oom_kills : Z
}.

Definition set_p_base_resources_consumed (v : bool) (p : permit) : permit :=
  mk_permit (p_base_resources p) v (p_resources p) (p_state p)
    (p_used_branches p) (p_marked_as_used p) (p_blocked_branches p)
    (p_marked_as_blocked p) (p_sstables_read p) (p_requested_memory p)
    (p_memory_future p) (p_oom_kills p).

Definition set_p_resources (v : reader_resources) (p : permit) : permit :=
  mk_permit (p_base_resources p) (p_base_resources_consumed p) v (p_state p)
    (p_used_branches p) (p_marked_as_used p) (p_blocked_branches p)
    (p_marked_as_blocked p) (p_sstables_read p) (p_requested_memory p)
    (p_memory_future p) (p_oom_kills p).

Definition set_p_state (v : state) (p : permit) : permit :=
  mk_permit (p_base_resources p) (p_base_resources_consumed p) (p_resources p) v
    (p_used_branches p) (p_marked_as_used p) (p_blocked_branches p)
    (p_marked_as_blocked p) (p_sstables_read p) (p_requested_memory p)
    (p_memory_future p) (p_oom_kills p).

Definition set_p_used_branches (v : Z) (p : permit) : permit :=
  mk_permit (p_base_resources p) (p_base_resources_consumed p) (p_resources p)
    (p_state p) v (p_marked_as_used p) (p_blocked_branches p)
    (p_marked_as_blocked p) (p_sstables_read p) (p_requested_memory p)
    (p_memory_future p) (p_oom_kills p).

Definition set_p_marked_as_used (v : bool) (p : permit) : permit :=
  mk_permit (p_base_resources p) (p_base_resources_consumed p) (p_resources p)
    (p_state p) (p_used_branches p) v (p_blocked_branches p)
    (p_marked_as_blocked p) (p_sstables_read p) (p_requested_memory p)
    (p_memory_future p) (p_oom_kills p).

Definition set_p_blocked_branches (v : Z) (p : permit) : permit :=
  mk_permit (p_base_resources p) (p_base_resources_consumed p) (p_resources p)
    (p_state p) (p_used_branches p) (p_marked_as_used p) v
    (p_marked_as_blocked p) (p_sstables_read p) (p_requested_memory p)
    (p_memory_future p) (p_oom_kills p).

Definition set_p_marked_as_blocked (v : bool) (p : permit) : permit :=
  mk_permit (p_base_resources p) (p_base_resources_consumed p) (p_resources p)
    (p_state p) (p_used_branches p) (p_marked_as_used p) (p_blocked_branches p)
    v (p_sstables_read p) (p_requested_memory p)
    (p_memory_future p) (p_oom_kills p).

Definition set_p_requested_memory (v : Z) (p : permit) : permit :=
  mk_permit (p_base_resources p) (p_base_resources_consumed p) (p_resources p)
    (p_state p) (p_used_branches p) (p_marked_as_used p) (p_blocked_branches p)
    (p_marked_as_blocked p) (p_sstables_read p) v
    (p_memory_future p) (p_oom_kills p).

Definition set_p_memory_future (v : option nat) (p : permit) : permit :=
  mk_permit (p_base_resources p) (p_base_resources_consumed p) (p_resources p)
    (p_state p) (p_used_branches p) (p_marked_as_used p) (p_blocked_branches p)
    (p_marked_as_blocked p) (p_sstables_read p) (p_requested_memory p)
    v (p_oom_kills p).

Definition set_p_oom_kills (v : Z) (p : permit) : permit :=
  mk_permit (p_base_resources p) (p_base_resources_consumed p) (p_resources p)
    (p_state p) (p_used_branches p) (p_marked_as_used p) (p_blocked_branches p)
    (p_marked_as_blocked p) (p_sstables_read p) (p_requested_memory p)
    (p_memory_future p) v.

Definition set_p_base_resources (v : reader_resources) (p : permit) : permit :=
  mk_permit v (p_base_resources_consumed p) (p_resources p) (p_state p)
    (p_used_branches p) (p_marked_as_used p) (p_blocked_branches p)
    (p_marked_as_blocked p) (p_sstables_read p) (p_requested_memory p)
    (p_memory_future p) (p_oom_kills p).

Definition set_p_sstables_read (v : Z) (p : permit) : permit :=
  mk_permit (p_base_resources p) (p_base_resources_consumed p) (p_resources p)
    (p_state p) (p_used_branches p) (p_marked_as_used p) (p_blocked_branches p)
    (p_marked_as_blocked p) v (p_requested_memory p)
    (p_memory_future p) (p_oom_kills p).

(** The constructor of [reader_permit::impl]: every member at its default. *)
Definition new_permit (base : reader_resources) : permit :=
  mk_permit base false res_zero active_unused 0 false 0 false 0 0 None 0.

(** ** Semaphore *)

(** The counters of [reader_concurrency_semaphore::stats], all [uint64_t]. *)
Record stats := mk_stats {
  permit_based_evictions : Z;
  time_based_evictions : Z;
  inactive_reads : Z;
  total_reads_killed_due_to_kill_limit : Z;
  total_reads_shed_due_to_overload : Z;
  reads_admitted : Z;
  reads_enqueued_for_admission : Z;
  reads_enqueued_for_memory : Z;
  used_permits : Z;
  blocked_permits : Z;
  total_permits : Z;
  current_permits : Z;
  sstables_read : Z;
  disk_reads : Z
}.

Definition stats_zero : stats := mk_stats 0 0 0 0 0 0 0 0 0 0 0 0 0 0.

(** A reader is opaque to the semaphore: an identity, the permit it runs
    under and the table its schema belongs to. *)
Record reader := mk_reader { rd_id : nat; rd_permit : nat; rd_table : Z }.

(** A wait-list or ready-list entry: the promise to settle, the permit and
    the optional continuation. *)
Record entry := mk_entry { e_pr : nat; e_permit : nat; e_func : option nat }.

(** An inactive read, identified by the address its handle points to. *)
Record inactive_read := mk_inactive_read { ir_ptr : nat; ir_reader : reader }.

(** Modelled from the spec: the wait list class is declared in the header,
    which is not part of the sources; section 4.D of the spec gives two FIFO
    queues, one for permits waiting for admission and one for admitted permits
    waiting for memory. *)
Record wait_queue := mk_wait_queue {
  admission_queue : list entry;
  memory_queue : list entry
}.

Inductive exn := bad_alloc | queue_overload | internal_error.

Record semaphore := mk_semaphore {
  sem_this : nat;
  initial_resources : reader_resources;
  resources : reader_resources;
  wait_list : wait_queue;
  ready_list : list entry;
  inactive_list : list inactive_read;
  sem_stats : stats;
  blessed_permit : option nat;
  permits : gmap nat permit;
  max_queue_length : Z;
  serialize_limit_multiplier : Z;
  kill_limit_multiplier : Z;
  evicting : bool;
  closed_readers : list reader;
  settled : list (nat * option exn);
  next_id : nat
}.

(** Field updates.  Each [set_f v x] is [x] with field [f] replaced by [v]. *)

Definition set_permit_based_evictions (v : Z) (st : stats) : stats :=
  mk_stats
    v (time_based_evictions st) (inactive_reads st)
    (total_reads_killed_due_to_kill_limit st)
    (total_reads_shed_due_to_overload st) (reads_admitted st)
    (reads_enqueued_for_admission st) (reads_enqueued_for_memory st)
    (used_permits st) (blocked_permits st) (total_permits st)
    (current_permits st) (sstables_read st) (disk_reads st).

Definition set_time_based_evictions (v : Z) (st : stats) : stats :=
  mk_stats
    (permit_based_evictions st) v (inactive_reads st)
    (total_reads_killed_due_to_kill_limit st)
    (total_reads_shed_due_to_overload st) (reads_admitted st)
    (reads_enqueued_for_admission st) (reads_enqueued_for_memory st)
    (used_permits st) (blocked_permits st) (total_permits st)
    (current_permits st) (sstables_read st) (disk_reads st).

Definition set_inactive_reads (v : Z) (st : stats) : stats :=
  mk_stats
    (permit_based_evictions st) (time_based_evictions st) v
    (total_reads_killed_due_to_kill_limit st)
    (total_reads_shed_due_to_overload st) (reads_admitted st)
    (reads_enqueued_for_admission st) (reads_enqueued_for_memory st)
    (used_permits st) (blocked_permits st) (total_permits st)
    (current_permits st) (sstables_read st) (disk_reads st).

Definition set_total_reads_killed_due_to_kill_limit (v : Z) (st : stats) : stats :=
  mk_stats
    (permit_based_evictions st) (time_based_evictions st) (inactive_reads st)
    v (total_reads_shed_due_to_overload st) (reads_admitted st)
    (reads_enqueued_for_admission st) (reads_enqueued_for_memory st)
    (used_permits st) (blocked_permits st) (total_permits st)
    (current_permits st) (sstables_read st) (disk_reads st).

Definition set_total_reads_shed_due_to_overload (v : Z) (st : stats) : stats :=
  mk_stats
    (permit_based_evictions st) (time_based_evictions st) (inactive_reads st)
    (total_reads_killed_due_to_kill_limit st) v (reads_admitted st)
    (reads_enqueued_for_admission st) (reads_enqueued_for_memory st)
    (used_permits st) (blocked_permits st) (total_permits st)
    (current_permits st) (sstables_read st) (disk_reads st).

Definition set_reads_admitted (v : Z) (st : stats) : stats :=
  mk_stats
    (permit_based_evictions st) (time_based_evictions st) (inactive_reads st)
    (total_reads_killed_due_to_kill_limit st)
    (total_reads_shed_due_to_overload st) v (reads_enqueued_for_admission st)
    (reads_enqueued_for_memory st) (used_permits st) (blocked_permits st)
    (total_permits st) (current_permits st) (sstables_read st)
    (disk_reads st).

Definition set_reads_enqueued_for_admission (v : Z) (st : stats) : stats :=
  mk_stats
    (permit_based_evictions st) (time_based_evictions st) (inactive_reads st)
    (total_reads_killed_due_to_kill_limit st)
    (total_reads_shed_due_to_overload st) (reads_admitted st) v
    (reads_enqueued_for_memory st) (used_permits st) (blocked_permits st)
    (total_permits st) (current_permits st) (sstables_read st)
    (disk_reads st).

Definition set_reads_enqueued_for_memory (v : Z) (st : stats) : stats :=
  mk_stats
    (permit_based_evictions st) (time_based_evictions st) (inactive_reads st)
    (total_reads_killed_due_to_kill_limit st)
    (total_reads_shed_due_to_overload st) (reads_admitted st)
    (reads_enqueued_for_admission st) v (used_permits st)
    (blocked_permits st) (total_permits st) (current_permits st)
    (sstables_read st) (disk_reads st).

Definition set_used_permits (v : Z) (st : stats) : stats :=
  mk_stats
    (permit_based_evictions st) (time_based_evictions st) (inactive_reads st)
    (total_reads_killed_due_to_kill_limit st)
    (total_reads_shed_due_to_overload st) (reads_admitted st)
    (reads_enqueued_for_admission st) (reads_enqueued_for_memory st) v
    (blocked_permits st) (total_permits st) (current_permits st)
    (sstables_read st) (disk_reads st).

Definition set_blocked_permits (v : Z) (st : stats) : stats :=
  mk_stats
    (permit_based_evictions st) (time_based_evictions st) (inactive_reads st)
    (total_reads_killed_due_to_kill_limit st)
    (total_reads_shed_due_to_overload st) (reads_admitted st)
    (reads_enqueued_for_admission st) (reads_enqueued_for_memory st)
    (used_permits st) v (total_permits st) (current_permits st)
    (sstables_read st) (disk_reads st).

Definition set_total_permits (v : Z) (st : stats) : stats :=
  mk_stats
    (permit_based_evictions st) (time_based_evictions st) (inactive_reads st)
    (total_reads_killed_due_to_kill_limit st)
    (total_reads_shed_due_to_overload st) (reads_admitted st)
    (reads_enqueued_for_admission st) (reads_enqueued_for_memory st)
    (used_permits st) (blocked_permits st) v (current_permits st)
    (sstables_read st) (disk_reads st).

Definition set_current_permits (v : Z) (st : stats) : stats :=
  mk_stats
    (permit_based_evictions st) (time_based_evictions st) (inactive_reads st)
    (total_reads_killed_due_to_kill_limit st)
    (total_reads_shed_due_to_overload st) (reads_admitted st)
    (reads_enqueued_for_admission st) (reads_enqueued_for_memory st)
    (used_permits st) (blocked_permits st) (total_permits st) v
    (sstables_read st) (disk_reads st).

Definition set_sstables_read (v : Z) (st : stats) : stats :=
  mk_stats
    (permit_based_evictions st) (time_based_evictions st) (inactive_reads st)
    (total_reads_killed_due_to_kill_limit st)
    (total_reads_shed_due_to_overload st) (reads_admitted st)
    (reads_enqueued_for_admission st) (reads_enqueued_for_memory st)
    (used_permits st) (blocked_permits st) (total_permits st)
    (current_permits st) v (disk_reads st).

Definition set_disk_reads (v : Z) (st : stats) : stats :=
  mk_stats
    (permit_based_evictions st) (time_based_evictions st) (inactive_reads st)
    (total_reads_killed_due_to_kill_limit st)
    (total_reads_shed_due_to_overload st) (reads_admitted st)
    (reads_enqueued_for_admission st) (reads_enqueued_for_memory st)
    (used_permits st) (blocked_permits st) (total_permits st)
    (current_permits st) (sstables_read st) v.

Definition set_initial_resources (v : reader_resources) (s : semaphore) : semaphore :=
  mk_semaphore
    (sem_this s) v (resources s) (wait_list s) (ready_list s)
    (inactive_list s) (sem_stats s) (blessed_permit s) (permits s)
    (max_queue_length s) (serialize_limit_multiplier s)
    (kill_limit_multiplier s) (evicting s) (closed_readers s) (settled s)
    (next_id s).

Definition set_resources (v : reader_resources) (s : semaphore) : semaphore :=
  mk_semaphore
    (sem_this s) (initial_resources s) v (wait_list s) (ready_list s)
    (inactive_list s) (sem_stats s) (blessed_permit s) (permits s)
    (max_queue_length s) (serialize_limit_multiplier s)
    (kill_limit_multiplier s) (evicting s) (closed_readers s) (settled s)
    (next_id s).

Definition set_wait_list (v : wait_queue) (s : semaphore) : semaphore :=
  mk_semaphore
    (sem_this s) (initial_resources s) (resources s) v (ready_list s)
    (inactive_list s) (sem_stats s) (blessed_permit s) (permits s)
    (max_queue_length s) (serialize_limit_multiplier s)
    (kill_limit_multiplier s) (evicting s) (closed_readers s) (settled s)
    (next_id s).

Definition set_ready_list (v : list entry) (s : semaphore) : semaphore :=
  mk_semaphore
    (sem_this s) (initial_resources s) (resources s) (wait_list s) v
    (inactive_list s) (sem_stats s) (blessed_permit s) (permits s)
    (max_queue_length s) (serialize_limit_multiplier s)
    (kill_limit_multiplier s) (evicting s) (closed_readers s) (settled s)
    (next_id s).

Definition set_inactive_list (v : list inactive_read) (s : semaphore) : semaphore :=
  mk_semaphore
    (sem_this s) (initial_resources s) (resources s) (wait_list s)
    (ready_list s) v (sem_stats s) (blessed_permit s) (permits s)
    (max_queue_length s) (serialize_limit_multiplier s)
    (kill_limit_multiplier s) (evicting s) (closed_readers s) (settled s)
    (next_id s).

Definition set_sem_stats (v : stats) (s : semaphore) : semaphore :=
  mk_semaphore
    (sem_this s) (initial_resources s) (resources s) (wait_list s)
    (ready_list s) (inactive_list s) v (blessed_permit s) (permits s)
    (max_queue_length s) (serialize_limit_multiplier s)
    (kill_limit_multiplier s) (evicting s) (closed_readers s) (settled s)
    (next_id s).

Definition set_blessed_permit (v : option nat) (s : semaphore) : semaphore :=
  mk_semaphore
    (sem_this s) (initial_resources s) (resources s) (wait_list s)
    (ready_list s) (inactive_list s) (sem_stats s) v (permits s)
    (max_queue_length s) (serialize_limit_multiplier s)
    (kill_limit_multiplier s) (evicting s) (closed_readers s) (settled s)
    (next_id s).

Definition set_permits (v : gmap nat permit) (s : semaphore) : semaphore :=
  mk_semaphore
    (sem_this s) (initial_resources s) (resources s) (wait_list s)
    (ready_list s) (inactive_list s) (sem_stats s) (blessed_permit s) v
    (max_queue_length s) (serialize_limit_multiplier s)
    (kill_limit_multiplier s) (evicting s) (closed_readers s) (settled s)
    (next_id s).

Definition set_evicting (v : bool) (s : semaphore) : semaphore :=
  mk_semaphore
    (sem_this s) (initial_resources s) (resources s) (wait_list s)
    (ready_list s) (inactive_list s) (sem_stats s) (blessed_permit s)
    (permits s) (max_queue_length s) (serialize_limit_multiplier s)
    (kill_limit_multiplier s) v (closed_readers s) (settled s) (next_id s).

Definition set_closed_readers (v : list reader) (s : semaphore) : semaphore :=
  mk_semaphore
    (sem_this s) (initial_resources s) (resources s) (wait_list s)
    (ready_list s) (inactive_list s) (sem_stats s) (blessed_permit s)
    (permits s) (max_queue_length s) (serialize_limit_multiplier s)
    (kill_limit_multiplier s) (evicting s) v (settled s) (next_id s).

Definition set_settled (v : list (nat * option exn)) (s : semaphore) : semaphore :=
  mk_semaphore
    (sem_this s) (initial_resources s) (resources s) (wait_list s)
    (ready_list s) (inactive_list s) (sem_stats s) (blessed_permit s)
    (permits s) (max_queue_length s) (serialize_limit_multiplier s)
    (kill_limit_multiplier s) (evicting s) (closed_readers s) v (next_id s).

Definition set_next_id (v : nat) (s : semaphore) : semaphore :=
  mk_semaphore
    (sem_this s) (initial_resources s) (resources s) (wait_list s)
    (ready_list s) (inactive_list s) (sem_stats s) (blessed_permit s)
    (permits s) (max_queue_length s) (serialize_limit_multiplier s)
    (kill_limit_multiplier s) (evicting s) (closed_readers s) (settled s) v.

(** ** Outcomes and the operation monad

    An operation either returns a value, throws a C++ exception (the state
    it reached before the throw is kept), or ends the process: a failed
    [assert], a null dereference, or an exception that leaves a [noexcept]
    function.  [out_of_fuel] is not a behaviour of the program; it marks a
    run of the model that was given too small a recursion budget. *)

Inductive crash := assertion_failed | null_dereference | terminate_called | out_of_fuel.

Inductive outcome (A : Type) :=
  | Ok (a : A) (s : semaphore)
  | Throw (e : exn) (s : semaphore)
  | Crash (c : crash).
Arguments Ok {A} a s.
Arguments Throw {A} e s.
Arguments Crash {A} c.

Definition M (A : Type) : Type := semaphore -> outcome A.

#[global] Instance M_ret : MRet M := fun A a s => Ok a s.

#[global] Instance M_bind : MBind M := fun A B f m s =>
  match m s with
  | Ok a s' => f a s'
  | Throw e s' => Throw e s'
  | Crash c => Crash c
  end.

Definition get_sem : M semaphore := fun s => Ok s s.
Definition modify (f : semaphore -> semaphore) : M unit := fun s => Ok tt (f s).
Definition throw {A} (e : exn) : M A := fun s => Throw e s.
Definition abort {A} (c : crash) : M A := fun _ => Crash c.

(** [assert(b)]; assertions are compiled in. *)
Definition assert (b : bool) : M unit :=
  if b then mret tt else abort assertion_failed.

(** [try { m } catch (...) { h }]. *)
Definition try_catch {A} (m : M A) (h : exn -> M A) : M A := fun s =>
  match m s with
  | Throw e s' => h e s'
  | r => r
  end.

(** A [noexcept] function: an exception that would leave it ends the
    process. *)
Definition noexcept {A} (m : M A) : M A := fun s =>
  match m s with
  | Throw _ _ => Crash terminate_called
  | r => r
  end.

Definition when (b : bool) (m : M unit) : M unit := if b then m else mret tt.

(** Access to a permit through its address. *)
Definition permit_ref (id : nat) : M permit := fun s =>
  match permits s !! id with
  | Some p => Ok p s
  | None => Crash null_dereference
  end.

Definition permit_update (id : nat) (f : permit -> permit) : M unit :=
  p ← permit_ref id;
  modify (fun s => set_permits (<[id := f p]> (permits s)) s).

Definition modify_stats (f : stats -> stats) : M unit :=
  modify (fun s => set_sem_stats (f (sem_stats s)) s).

(** ** Queries on the semaphore *)

Inductive can_admit := yes | no | maybe.
Inductive wait_on := wait_on_admission | wait_on_memory.
Inductive evict_reason := evict_permit | evict_time | evict_manual.

(** What a call hands back as [future<>]: already resolved, already failed,
    or the future of a promise that the semaphore will settle later. *)
Inductive future := ready_future | exception_future (e : exn) | promise_future (pr : nat).

(** [reader_permit::resource_units]: the permit and the resources charged
    to it through this object. *)
Record resource_units := mk_units { ru_permit : nat; ru_resources : reader_resources }.

(** [inactive_read_handle]: the semaphore it came from and the pointer to
    the inactive read; a default-constructed or abandoned handle holds null. *)
Record inactive_read_handle := mk_handle { h_sem : nat; h_irp : option nat }.

Definition empty_handle : inactive_read_handle := mk_handle 0%nat None.

Definition is_yes (a : can_admit) : bool := match a with yes => true | _ => false end.
Definition is_maybe (a : can_admit) : bool := match a with maybe => true | _ => false end.

Definition wait_empty (w : wait_queue) : bool :=
  match admission_queue w, memory_queue w with
  | [], [] => true
  | _, _ => false
  end.

Definition wait_size (w : wait_queue) : Z :=
  Z.of_nat (length (admission_queue w)) + Z.of_nat (length (memory_queue w)).

(** Modelled from the spec: [front] and [pop_front] of the wait list belong
    to the absent header.  The spec keeps each queue FIFO and does not say
    which queue is served first; the model serves the memory queue first.
    The theorems below speak of membership in the queues and of their total
    size, which no order between the two queues changes. *)
Definition wait_front (w : wait_queue) : option entry :=
  match memory_queue w with
  | e :: _ => Some e
  | [] => head (admission_queue w)
  end.

Definition wait_pop_front (w : wait_queue) : wait_queue :=
  match memory_queue w with
  | _ :: m => mk_wait_queue (admission_queue w) m
  | [] => mk_wait_queue (tail (admission_queue w)) []
  end.

Definition push_to_admission_queue (e : entry) (w : wait_queue) : wait_queue :=
  mk_wait_queue (admission_queue w ++ [e]) (memory_queue w).

Definition push_to_memory_queue (e : entry) (w : wait_queue) : wait_queue :=
  mk_wait_queue (admission_queue w) (memory_queue w ++ [e]).

(** Modelled from the spec: [consumed_resources] belongs to the absent
    header; it is what the diagnostics in the source print as consumed, the
    initial resources minus the available ones. *)
Definition consumed_resources (s : semaphore) : reader_resources :=
  res_sub (initial_resources s) (resources s).

(** Modelled from the spec: [is_unlimited] belongs to the absent header; an
    unlimited semaphore is the one the [no_limits] constructor builds, with
    every limit saturated (spec section 6). *)
Definition is_unlimited (s : semaphore) : bool :=
  (count (initial_resources s) =? INT_MAX) && (memory (initial_resources s) =? SSIZE_MAX).

Definition get_serialize_limit (s : semaphore) : Z :=
  if (serialize_limit_multiplier s =? 0) || (serialize_limit_multiplier s =? UINT32_MAX)
     || is_unlimited s
  then UINT64_MAX
  else to_u64 (memory (initial_resources s) * serialize_limit_multiplier s).

Definition get_kill_limit (s : semaphore) : Z :=
  if (kill_limit_multiplier s =? 0) || (kill_limit_multiplier s =? UINT32_MAX)
     || is_unlimited s
  then UINT64_MAX
  else to_u64 (memory (initial_resources s) * kill_limit_multiplier s).

Definition has_available_units (s : semaphore) (r : reader_resources) : bool :=
  (non_zero (resources s) && (count r <=? count (resources s))
     && (memory r <=? memory (resources s)))
  || (count (resources s) =? count (initial_resources s)).

Definition all_used_permits_are_stalled (s : semaphore) : bool :=
  used_permits (sem_stats s) =? blocked_permits (sem_stats s).

(** [consumed_memory] is an [ssize_t]; comparing it with the [uint64_t]
    limits converts it to unsigned. *)
Definition can_admit_read (s : semaphore) (p : permit) : can_admit :=
  let rest :=
    if state_eqb (p_state p) waiting_for_memory then yes
    else if negb (match ready_list s with [] => true | _ => false end) then no
    else if negb (all_used_permits_are_stalled s) then no
    else if negb (has_available_units s (p_base_resources p)) then
      match inactive_list s with [] => no | _ => maybe end
    else yes in
  if memory (resources s) <? 0 then
    let consumed_memory := memory (consumed_resources s) in
    if get_kill_limit s <=? to_u64 consumed_memory then no
    else if get_serialize_limit s <=? to_u64 consumed_memory then
      match blessed_permit s with
      | Some _ => no
      | None => if state_eqb (p_state p) waiting_for_memory then yes else no
      end
    else rest
  else rest.

(** ** Operations

    [maybe_admit_waiters] is re-entered from the counters' callbacks
    ([on_permit_unused], [on_permit_blocked], [signal]), which are themselves
    reached from inside its loop.  The operations are therefore written
    against the re-entrant call as a section variable; the knot is tied after
    the section. *)

Section Operations.

Variable maybe_admit_waiters : M unit.

(** *** The semaphore's used/blocked counters *)

Definition sem_on_permit_used : M unit :=
  modify_stats (fun st => set_used_permits (incr64 (used_permits st)) st).

Definition sem_on_permit_unused : M unit :=
  s ← get_sem;
  assert (negb (used_permits (sem_stats s) =? 0));;
  modify_stats (fun st => set_used_permits (decr64 (used_permits st)) st);;
  s ← get_sem;
  assert (blocked_permits (sem_stats s) <=? used_permits (sem_stats s));;
  maybe_admit_waiters.

Definition sem_on_permit_blocked : M unit :=
  modify_stats (fun st => set_blocked_permits (incr64 (blocked_permits st)) st);;
  s ← get_sem;
  assert (blocked_permits (sem_stats s) <=? used_permits (sem_stats s));;
  maybe_admit_waiters.

Definition sem_on_permit_unblocked : M unit :=
  s ← get_sem;
  assert (negb (blocked_permits (sem_stats s) =? 0));;
  modify_stats (fun st => set_blocked_permits (decr64 (blocked_permits st)) st).

(** *** [reader_concurrency_semaphore::consume] and [signal] *)

Definition on_oom_kill (id : nat) : M bool :=
  p ← permit_ref id;
  permit_update id (set_p_oom_kills (incr64 (p_oom_kills p)));;
  mret (p_oom_kills p =? 0).

Definition sem_consume (id : nat) (r : reader_resources) : M unit :=
  s ← get_sem;
  if (memory (resources s) <=? 0)
     && (get_kill_limit s <=? to_u64 (memory (consumed_resources s) + memory r))
  then
    first ← on_oom_kill id;
    when first (modify_stats (fun st =>
      set_total_reads_killed_due_to_kill_limit
        (incr64 (total_reads_killed_due_to_kill_limit st)) st));;
    throw bad_alloc
  else modify (fun s => set_resources (res_sub (resources s) r) s).

Definition sem_signal (r : reader_resources) : M unit :=
  modify (fun s => set_resources (res_add (resources s) r) s);;
  maybe_admit_waiters.

(** *** [reader_permit::impl] *)

Definition on_permit_used (id : nat) : M unit :=
  sem_on_permit_used;; permit_update id (set_p_marked_as_used true).

Definition on_permit_unused (id : nat) : M unit :=
  sem_on_permit_unused;; permit_update id (set_p_marked_as_used false).

Definition on_permit_blocked (id : nat) : M unit :=
  sem_on_permit_blocked;; permit_update id (set_p_marked_as_blocked true).

Definition on_permit_unblocked (id : nat) : M unit :=
  sem_on_permit_unblocked;; permit_update id (set_p_marked_as_blocked false).

Definition on_permit_active (id : nat) : M unit :=
  p ← permit_ref id;
  if negb (p_used_branches p =? 0) then
    permit_update id (set_p_state active_used);;
    on_permit_used id;;
    p ← permit_ref id;
    when (negb (p_blocked_branches p =? 0))
      (permit_update id (set_p_state active_blocked);; on_permit_blocked id)
  else permit_update id (set_p_state active_unused).

Definition on_permit_inactive (id : nat) (st : state) : M unit :=
  permit_update id (set_p_state st);;
  p ← permit_ref id;
  when (p_marked_as_blocked p) (on_permit_unblocked id);;
  p ← permit_ref id;
  when (p_marked_as_used p) (on_permit_unused id).

Definition impl_consume (id : nat) (res : reader_resources) : M unit :=
  sem_consume id res;;
  permit_update id (fun p => set_p_resources (res_add (p_resources p) res) p).

Definition impl_signal (id : nat) (res : reader_resources) : M unit :=
  permit_update id (fun p => set_p_resources (res_sub (p_resources p) res) p);;
  sem_signal res.

Definition on_waiting_for_admission (id : nat) : M unit :=
  on_permit_inactive id waiting_for_admission.

Definition on_waiting_for_memory (id : nat) (fut : nat) : M unit :=
  on_permit_inactive id waiting_for_memory;;
  permit_update id (set_p_memory_future (Some fut)).

Definition on_admission (id : nat) : M unit :=
  p ← permit_ref id;
  assert (negb (state_eqb (p_state p) active_blocked));;
  on_permit_active id;;
  p ← permit_ref id;
  impl_consume id (p_base_resources p);;
  permit_update id (set_p_base_resources_consumed true).

(** The argument of [consume] is built first: [std::exchange] has reset
    [_requested_memory] when the kill-limit check runs. *)
Definition on_granted_memory (id : nat) : M unit :=
  p ← permit_ref id;
  when (state_eqb (p_state p) waiting_for_memory) (on_permit_active id);;
  p ← permit_ref id;
  permit_update id (set_p_requested_memory 0);;
  impl_consume id (mk_resources 0 (to_s64 (p_requested_memory p))).

(** Dereferencing an empty [std::optional] is a crash in the model. *)
Definition get_memory_future (id : nat) : M future :=
  p ← permit_ref id;
  match p_memory_future p with
  | Some pr => mret (promise_future pr)
  | None => abort null_dereference
  end.

Definition on_register_as_inactive (id : nat) : M unit :=
  p ← permit_ref id;
  assert (state_eqb (p_state p) active_unused || state_eqb (p_state p) active_used);;
  on_permit_inactive id inactive.

Definition on_unregister_as_inactive (id : nat) : M unit :=
  p ← permit_ref id;
  assert (state_eqb (p_state p) inactive);;
  on_permit_active id.

Definition on_evicted (id : nat) : M unit :=
  p ← permit_ref id;
  assert (state_eqb (p_state p) inactive);;
  permit_update id (set_p_state evicted);;
  p ← permit_ref id;
  when (p_base_resources_consumed p)
    (impl_signal id (p_base_resources p);;
     permit_update id (set_p_base_resources_consumed false)).

Definition mark_used (id : nat) : M unit :=
  permit_update id (fun p => set_p_used_branches (incr64 (p_used_branches p)) p);;
  p ← permit_ref id;
  when (negb (p_marked_as_used p) && state_eqb (p_state p) active_unused)
    (permit_update id (set_p_state active_used);;
     on_permit_used id;;
     p ← permit_ref id;
     when (negb (p_blocked_branches p =? 0) && negb (p_marked_as_blocked p))
       (permit_update id (set_p_state active_blocked);; on_permit_blocked id)).

Definition mark_unused (id : nat) : M unit :=
  p ← permit_ref id;
  assert (negb (p_used_branches p =? 0));;
  permit_update id (fun p => set_p_used_branches (decr64 (p_used_branches p)) p);;
  p ← permit_ref id;
  when (p_marked_as_used p && (p_used_branches p =? 0))
    (when (p_marked_as_blocked p) (on_permit_unblocked id);;
     permit_update id (set_p_state active_unused);;
     on_permit_unused id).

Definition mark_blocked (id : nat) : M unit :=
  permit_update id (fun p => set_p_blocked_branches (incr64 (p_blocked_branches p)) p);;
  p ← permit_ref id;
  when ((p_blocked_branches p =? 1) && state_eqb (p_state p) active_used)
    (permit_update id (set_p_state active_blocked);; on_permit_blocked id).

Definition mark_unblocked (id : nat) : M unit :=
  p ← permit_ref id;
  assert (negb (p_blocked_branches p =? 0));;
  permit_update id (fun p => set_p_blocked_branches (decr64 (p_blocked_branches p)) p);;
  p ← permit_ref id;
  when (p_marked_as_blocked p && (p_blocked_branches p =? 0))
    (permit_update id (set_p_state active_used);; on_permit_unblocked id).

(** *** Creation and destruction of a permit *)

Definition fresh : M nat :=
  s ← get_sem;
  modify (set_next_id (S (next_id s)));;
  mret (next_id s).

Definition on_permit_created (id : nat) (p : permit) : M unit :=
  modify (fun s => set_permits (<[id := p]> (permits s)) s);;
  modify_stats (fun st => set_total_permits (incr64 (total_permits st)) st);;
  modify_stats (fun st => set_current_permits (incr64 (current_permits st)) st).

Definition make_permit (base : reader_resources) : M nat :=
  id ← fresh;
  on_permit_created id (new_permit base);;
  mret id.

Definition on_permit_destroyed (id : nat) : M unit :=
  modify (fun s => set_permits (delete id (permits s)) s);;
  modify_stats (fun st => set_current_permits (decr64 (current_permits st)) st);;
  s ← get_sem;
  match blessed_permit s with
  | Some b =>
      when (Nat.eqb b id) (modify (set_blessed_permit None);; maybe_admit_waiters)
  | None => mret tt
  end.

(** [~impl].  [on_internal_error_noexcept] logs and goes on. *)
Definition destroy (id : nat) : M unit :=
  p ← permit_ref id;
  when (p_base_resources_consumed p) (impl_signal id (p_base_resources p));;
  p ← permit_ref id;
  when (non_zero (p_resources p)) (impl_signal id (p_resources p));;
  p ← permit_ref id;
  when (negb (p_used_branches p =? 0)) sem_on_permit_unused;;
  p ← permit_ref id;
  when (negb (p_blocked_branches p =? 0)) sem_on_permit_unblocked;;
  p ← permit_ref id;
  modify_stats (fun st =>
    set_sstables_read (to_u64 (sstables_read st - p_sstables_read p)) st);;
  modify_stats (fun st =>
    set_disk_reads
      (to_u64 (disk_reads st - (if p_sstables_read p =? 0 then 0 else 1))) st);;
  on_permit_destroyed id.

(** *** Queues *)

Definition ready_size (s : semaphore) : Z := Z.of_nat (length (ready_list s)).

Definition check_queue_size : M (option exn) :=
  s ← get_sem;
  if max_queue_length s <=? wait_size (wait_list s) + ready_size s then
    modify_stats (fun st =>
      set_total_reads_shed_due_to_overload
        (incr64 (total_reads_shed_due_to_overload st)) st);;
    mret (Some queue_overload)
  else mret None.

Definition enqueue_waiter (id : nat) (func : option nat) (wait : wait_on) : M future :=
  ex ← check_queue_size;
  match ex with
  | Some e => mret (exception_future e)
  | None =>
      pr ← fresh;
      match wait with
      | wait_on_admission =>
          on_waiting_for_admission id;;
          modify (fun s =>
            set_wait_list (push_to_admission_queue (mk_entry pr id func) (wait_list s)) s);;
          modify_stats (fun st =>
            set_reads_enqueued_for_admission (incr64 (reads_enqueued_for_admission st)) st);;
          mret (promise_future pr)
      | wait_on_memory =>
          on_waiting_for_memory id pr;;
          fut ← get_memory_future id;
          modify (fun s =>
            set_wait_list (push_to_memory_queue (mk_entry pr id func) (wait_list s)) s);;
          modify_stats (fun st =>
            set_reads_enqueued_for_memory (incr64 (reads_enqueued_for_memory st)) st);;
          mret fut
      end
  end.

(** Modelled from the spec: the ready list is a bounded FIFO of capacity
    [max_queue_length] (section 4.E); the queue class is a collaborator.  A
    push on a full queue leaves the queue as it is. *)
Definition ready_push (e : entry) : M unit :=
  modify (fun s =>
    if ready_size s <? max_queue_length s
    then set_ready_list (ready_list s ++ [e]) s else s).

Definition with_ready_permit (id : nat) (func : nat) : M future :=
  ex ← check_queue_size;
  match ex with
  | Some e => mret (exception_future e)
  | None =>
      pr ← fresh;
      ready_push (mk_entry pr id (Some func));;
      mret (promise_future pr)
  end.

Definition settle (pr : nat) (r : option exn) : M unit :=
  modify (fun s => set_settled (settled s ++ [(pr, r)]) s).

(** *** The inactive-read cache *)

(** [close_reader] starts the close in the background; the model records
    the reader as handed over for closing. *)
Definition close_reader (r : reader) : M unit :=
  modify (fun s => set_closed_readers (closed_readers s ++ [r]) s).

Fixpoint find_inactive (ptr : nat) (l : list inactive_read) : option inactive_read :=
  match l with
  | [] => None
  | ir :: l' => if Nat.eqb (ir_ptr ir) ptr then Some ir else find_inactive ptr l'
  end.

Fixpoint unlink (ptr : nat) (l : list inactive_read) : list inactive_read :=
  match l with
  | [] => []
  | ir :: l' => if Nat.eqb (ir_ptr ir) ptr then l' else ir :: unlink ptr l'
  end.

(** The notify handler and the TTL timer are callbacks of the reader's
    owner and are not part of the model. *)
Definition do_detach_inactive_reader (ir : inactive_read) (reason : evict_reason) : M unit :=
  modify (fun s => set_inactive_list (unlink (ir_ptr ir) (inactive_list s)) s);;
  on_evicted (rd_permit (ir_reader ir));;
  match reason with
  | evict_permit =>
      modify_stats (fun st => set_permit_based_evictions (incr64 (permit_based_evictions st)) st)
  | evict_time =>
      modify_stats (fun st => set_time_based_evictions (incr64 (time_based_evictions st)) st)
  | evict_manual => mret tt
  end;;
  modify_stats (fun st => set_inactive_reads (decr64 (inactive_reads st)) st).

Definition detach_inactive_reader (ir : inactive_read) (reason : evict_reason) : M reader :=
  do_detach_inactive_reader ir reason;;
  mret (ir_reader ir).

Definition evict (ir : inactive_read) (reason : evict_reason) : M unit :=
  r ← detach_inactive_reader ir reason;
  close_reader r.

Definition try_evict_one_inactive_read (reason : evict_reason) : M bool :=
  s ← get_sem;
  match inactive_list s with
  | [] => mret false
  | ir :: _ => evict ir reason;; mret true
  end.

(** One round of the loop inside [evict_readers_in_background]: stop when
    the wait list or the inactive list is empty, else detach the front
    inactive read and start closing it.  The next round runs when that close
    has completed. *)
Definition evict_readers_step : M bool :=
  s ← get_sem;
  if wait_empty (wait_list s) then modify (set_evicting false);; mret false
  else match inactive_list s with
       | [] => modify (set_evicting false);; mret false
       | ir :: _ =>
           r ← detach_inactive_reader ir evict_permit;
           modify (fun s => set_closed_readers (closed_readers s ++ [r]) s);;
           mret true
       end.

Definition evict_readers_in_background : M unit :=
  s ← get_sem;
  if evicting s then mret tt
  else modify (set_evicting true);; evict_readers_step;; mret tt.

(** [alloc_ok] tells whether [std::make_unique<inactive_read>] succeeds.
    When it fails, [bad_alloc] is thrown inside the [try] block before
    anything was changed; the [catch] swallows it and the reader is evicted
    as if there had been no room. *)
Definition register_inactive_read (alloc_ok : bool) (r : reader) : M inactive_read_handle :=
  on_register_as_inactive (rd_permit r);;
  s ← get_sem;
  irh ← (if wait_empty (wait_list s) && (0 <? memory (resources s)) then
           try_catch
             (if alloc_ok then
                ptr ← fresh;
                modify (fun s =>
                  set_inactive_list (inactive_list s ++ [mk_inactive_read ptr r]) s);;
                modify_stats (fun st => set_inactive_reads (incr64 (inactive_reads st)) st);;
                mret (Some (mk_handle (sem_this s) (Some ptr)))
              else throw bad_alloc)
             (fun _ => mret None)
         else mret None);
  match irh with
  | Some h => mret h
  | None =>
      on_evicted (rd_permit r);;
      modify_stats (fun st =>
        set_permit_based_evictions (incr64 (permit_based_evictions st)) st);;
      close_reader r;;
      mret empty_handle
  end.

(** An inactive read clears the pointer of its handle when it leaves the
    cache ([inactive_read::detach]), so a handle whose read is no longer
    linked is an empty handle.  A handle of another semaphore points into
    that semaphore's list, which lies outside this state; the call ends in
    [on_internal_error]. *)
Definition unregister_inactive_read (irh : inactive_read_handle) : M (option reader) :=
  match h_irp irh with
  | None => mret None
  | Some ptr =>
      s ← get_sem;
      if negb (Nat.eqb (h_sem irh) (sem_this s)) then throw internal_error
      else match find_inactive ptr (inactive_list s) with
           | None => mret None
           | Some ir =>
               modify_stats (fun st => set_inactive_reads (decr64 (inactive_reads st)) st);;
               on_unregister_as_inactive (rd_permit (ir_reader ir));;
               modify (fun s => set_inactive_list (unlink ptr (inactive_list s)) s);;
               mret (Some (ir_reader ir))
           end
  end.

(** *** Admission *)

(** The body of the loop in [maybe_admit_waiters] for the front entry [x]:
    everything between [try] and [_wait_list.pop_front()]. *)
Definition admit_front (x : entry) : M unit :=
  try_catch
    (p ← permit_ref (e_permit x);
     (if state_eqb (p_state p) waiting_for_memory then
        modify (set_blessed_permit (Some (e_permit x)));;
        on_granted_memory (e_permit x)
      else
        on_admission (e_permit x);;
        modify_stats (fun st => set_reads_admitted (incr64 (reads_admitted st)) st));;
     match e_func x with
     | Some _ => ready_push x
     | None => settle (e_pr x) None
     end)
    (fun e => settle (e_pr x) (Some e)).

(** [memory] is a [size_t]: the sum with the signed consumed memory is
    unsigned. *)
Definition request_memory (id : nat) (memory_ : Z) : M future :=
  p ← permit_ref id;
  if state_eqb (p_state p) waiting_for_memory then get_memory_future id
  else
    s ← get_sem;
    if (0 <? memory (resources s))
       || (to_u64 (memory (consumed_resources s) + memory_) <? get_serialize_limit s)
    then on_granted_memory id;; mret ready_future
    else
      when (match blessed_permit s with None => true | Some _ => false end)
        (modify (set_blessed_permit (Some id)));;
      s ← get_sem;
      if match blessed_permit s with Some b => Nat.eqb b id | None => false end
      then on_granted_memory id;; mret ready_future
      else enqueue_waiter id None wait_on_memory.

(** [reader_permit::impl::request_memory]: the request is added to
    [_requested_memory] before the semaphore is asked. *)
Definition impl_request_memory (id : nat) (memory_ : Z) : M future :=
  permit_update id (fun p =>
    set_p_requested_memory (to_u64 (p_requested_memory p + memory_)) p);;
  request_memory id memory_.

(** The execution loop that [do_wait_admission] starts on first use only
    consumes the ready list and is not part of the model. *)
Definition do_wait_admission (id : nat) (func : option nat) : M future :=
  s ← get_sem;
  p ← permit_ref id;
  let verdict := can_admit_read s p in
  if negb (is_yes verdict) || negb (wait_empty (wait_list s)) then
    fut ← enqueue_waiter id func wait_on_admission;
    s ← get_sem;
    (if is_yes verdict && negb (wait_empty (wait_list s)) then maybe_admit_waiters
     else when (is_maybe verdict) evict_readers_in_background);;
    mret fut
  else
    on_admission id;;
    modify_stats (fun st => set_reads_admitted (incr64 (reads_admitted st)) st);;
    match func with
    | Some f => with_ready_permit id f
    | None => mret ready_future
    end.

(** [obtain_permit]: the permit is created with base resources
    [{1, memory}] and sent through admission. *)
Definition obtain_permit (memory_ : Z) : M (nat * future) :=
  id ← make_permit (mk_resources 1 (to_s64 memory_));
  fut ← do_wait_admission id None;
  mret (id, fut).

Definition make_tracking_only_permit : M nat := make_permit res_zero.

(** [with_permit]: as [obtain_permit], with a continuation that runs from
    the ready list once the permit is admitted. *)
Definition with_permit (memory_ : Z) (func : nat) : M future :=
  id ← make_permit (mk_resources 1 (to_s64 memory_));
  do_wait_admission id (Some func).

(** *** The rest of the permit's interface *)

(** [release_base_resources]: a permit that had consumed its base resources
    gives them up; the base resources are signalled to the semaphore in
    either case, and the permit's base resources become zero. *)
Definition release_base_resources (id : nat) : M unit :=
  p ← permit_ref id;
  when (p_base_resources_consumed p)
    (permit_update id (fun p =>
       set_p_resources (res_sub (p_resources p) (p_base_resources p)) p);;
     permit_update id (set_p_base_resources_consumed false));;
  p ← permit_ref id;
  permit_update id (set_p_base_resources res_zero);;
  sem_signal (p_base_resources p).

Definition on_start_sstable_read (id : nat) : M unit :=
  p ← permit_ref id;
  when (p_sstables_read p =? 0)
    (modify_stats (fun st => set_disk_reads (incr64 (disk_reads st)) st));;
  permit_update id (fun p => set_p_sstables_read (incr64 (p_sstables_read p)) p);;
  modify_stats (fun st => set_sstables_read (incr64 (sstables_read st)) st).

Definition on_finish_sstable_read (id : nat) : M unit :=
  permit_update id (fun p => set_p_sstables_read (decr64 (p_sstables_read p)) p);;
  modify_stats (fun st => set_sstables_read (decr64 (sstables_read st)) st);;
  p ← permit_ref id;
  when (p_sstables_read p =? 0)
    (modify_stats (fun st => set_disk_reads (decr64 (disk_reads st)) st)).

Definition needs_readmission (p : permit) : bool := state_eqb (p_state p) evicted.

(** [wait_readmission]: the permit goes through admission again, without a
    continuation. *)
Definition wait_readmission (id : nat) : M future := do_wait_admission id None.

(** *** [reader_permit::resource_units]

    A [resource_units] object holds a reference to its permit and the
    resources it has charged to it.  The operations return the new value of
    the object; the permit is kept alive by its owner. *)

(** The constructor that charges the permit. *)
Definition resource_units_consume (id : nat) (res : reader_resources) : M resource_units :=
  impl_consume id res;;
  mret (mk_units id res).

(** [reset(res)]: the new resources are charged before the old ones are
    given back. *)
Definition resource_units_reset (u : resource_units) (res : reader_resources)
    : M resource_units :=
  when (non_zero res) (impl_consume (ru_permit u) res);;
  when (non_zero (ru_resources u)) (impl_signal (ru_permit u) (ru_resources u));;
  mret (mk_units (ru_permit u) res).

(** The destructor; [reset()] is [reset] with no resources. *)
Definition resource_units_destroy (u : resource_units) : M unit :=
  when (non_zero (ru_resources u)) (resource_units_reset u res_zero;; mret tt).

(** *** The rest of the semaphore's interface *)

(** [clear_inactive_reads]: one turn of the loop per cached read; deleting
    the front read unlinks it. *)
Fixpoint clear_inactive_reads_loop (n : nat) : M unit :=
  s ← get_sem;
  match inactive_list s with
  | [] => mret tt
  | ir :: _ =>
      match n with
      | O => abort out_of_fuel
      | S n' =>
          close_reader (ir_reader ir);;
          modify (fun s => set_inactive_list (unlink (ir_ptr ir) (inactive_list s)) s);;
          clear_inactive_reads_loop n'
      end
  end.

Definition clear_inactive_reads : M unit :=
  s ← get_sem;
  clear_inactive_reads_loop (length (inactive_list s)).

(** [reader_concurrency_semaphore::set_resources]. *)
Definition sem_set_resources (r : reader_resources) : M unit :=
  s ← get_sem;
  let delta := res_sub r (initial_resources s) in
  modify (set_initial_resources r);;
  modify (fun s => set_resources (res_add (resources s) delta) s);;
  maybe_admit_waiters.

End Operations.

(** [maybe_admit_waiters]: one unit of fuel per entry into the function or
    turn of its loop.  A turn of the loop that continues behaves as a fresh
    entry: the local verdict only matters when the last test was [maybe]. *)
Fixpoint maybe_admit_waiters (fuel : nat) : M unit :=
  match fuel with
  | O => abort out_of_fuel
  | S n =>
      noexcept
        (s ← get_sem;
         match wait_front (wait_list s) with
         | None => mret tt
         | Some x =>
             p ← permit_ref (e_permit x);
             match can_admit_read s p with
             | yes =>
                 admit_front (maybe_admit_waiters n) x;;
                 modify (fun s => set_wait_list (wait_pop_front (wait_list s)) s);;
                 maybe_admit_waiters n
             | maybe => evict_readers_in_background (maybe_admit_waiters n)
             | no => mret tt
             end
         end)
  end.

(** The constructor: the resources start at their initial value, the queues
    are empty and the counters zero.  [this] is the address of the
    semaphore. *)
Definition make_semaphore (this : nat) (cnt mem max_queue ks kk : Z) : semaphore :=
  mk_semaphore this (mk_resources cnt mem) (mk_resources cnt mem)
    (mk_wait_queue [] []) [] [] stats_zero None ∅ max_queue ks kk false [] [] 0%nat.

(** The [no_limits] constructor. *)
Definition make_unlimited_semaphore (this : nat) : semaphore :=
  make_semaphore this INT_MAX SSIZE_MAX UINT64_MAX UINT32_MAX UINT32_MAX.

(** * Specification vocabulary

    The predicates and explicit states the theorems are stated with, and the
    concrete semaphores on which the statements are exercised. *)

(** ** The admission predicate *)


(** The pseudo-code of section 4.G of the spec, line for line, over
    mathematical integers.  The two limits and the answer of
    [has_available_units(base)] are parameters. *)
Definition admission_predicate (kill_limit serialize_limit : Z) (available : bool)
    (s : semaphore) (p : permit) : can_admit :=
  let after_memory_pressure :=
    if state_eqb (p_state p) waiting_for_memory then yes
    else if negb (length (ready_list s) =? 0)%nat then no
    else if negb (used_permits (sem_stats s) =? blocked_permits (sem_stats s)) then no
    else if negb available then
      (if negb (length (inactive_list s) =? 0)%nat then maybe else no)
    else yes in
  if memory (resources s) <? 0 then
    let c := memory (initial_resources s) - memory (resources s) in
    if c >=? kill_limit then no
    else if c >=? serialize_limit then
      (if bool_decide (blessed_permit s <> None) then no
       else if state_eqb (p_state p) waiting_for_memory then yes else no)
    else after_memory_pressure
  else after_memory_pressure.

(** The limits as the spec defines them: [initial.memory] times the
    multiplier. *)
Definition serialize_limit_spec (s : semaphore) : Z :=
  memory (initial_resources s) * serialize_limit_multiplier s.

Definition kill_limit_spec (s : semaphore) : Z :=
  memory (initial_resources s) * kill_limit_multiplier s.

(** [has_available_units(base)] as the spec states it: both comparisons
    hold, or no reader is active. *)
Definition has_available_units_spec (s : semaphore) (base : reader_resources) : bool :=
  ((count base <=? count (resources s)) && (memory base <=? memory (resources s)))
  || (count (resources s) =? count (initial_resources s)).

(** The admission predicate of the spec. *)
Definition can_admit_read_spec (s : semaphore) (p : permit) : can_admit :=
  admission_predicate (kill_limit_spec s) (serialize_limit_spec s)
    (has_available_units_spec s (p_base_resources p)) s p.

(** The amendments.  A multiplier of zero or of [2^32 - 1] switches its
    limit off, and so does an unlimited semaphore: the limit is then the
    largest 64-bit value.  The comparisons of [has_available_units] only
    count while some resource is left. *)
Definition limit_disabled (s : semaphore) (multiplier : Z) : bool :=
  (multiplier =? 0) || (multiplier =? 2 ^ 32 - 1)
  || ((count (initial_resources s) =? 2 ^ 31 - 1)
      && (memory (initial_resources s) =? 2 ^ 63 - 1)).

Definition limit_amended (s : semaphore) (multiplier : Z) : Z :=
  if limit_disabled s multiplier then 2 ^ 64 - 1
  else memory (initial_resources s) * multiplier.

Definition has_available_units_amended (s : semaphore) (base : reader_resources) : bool :=
  ((negb (count (resources s) =? 0) || negb (memory (resources s) =? 0))
   && (count base <=? count (resources s)) && (memory base <=? memory (resources s)))
  || (count (resources s) =? count (initial_resources s)).

Definition can_admit_read_amended (s : semaphore) (p : permit) : can_admit :=
  admission_predicate (limit_amended s (kill_limit_multiplier s))
    (limit_amended s (serialize_limit_multiplier s))
    (has_available_units_amended s (p_base_resources p)) s p.




(** ** Consume and the kill limit *)

(** The test at the head of [consume]. *)
Definition kill_limit_reached (s : semaphore) (r : reader_resources) : bool :=
  (memory (resources s) <=? 0)
  && (get_kill_limit s <=? to_u64 (memory (consumed_resources s) + memory r)).

(** The state [consume] leaves behind when it throws for permit [id]. *)
Definition oom_killed (id : nat) (p : permit) (s : semaphore) : semaphore :=
  let s1 := set_permits (<[id := set_p_oom_kills (incr64 (p_oom_kills p)) p]> (permits s)) s in
  if p_oom_kills p =? 0 then
    set_sem_stats
      (set_total_reads_killed_due_to_kill_limit
         (incr64 (total_reads_killed_due_to_kill_limit (sem_stats s1))) (sem_stats s1)) s1
  else s1.

(** A semaphore with one byte of memory left. *)
Definition c9_sem : semaphore :=
  set_resources (mk_resources 0 1) (make_semaphore 1 1 1024 100 2 4).

(** The state after a successful charge of [r] to permit [id]. *)
Definition charged (id : nat) (p : permit) (r : reader_resources) (s : semaphore) : semaphore :=
  set_permits (<[id := set_p_resources (res_add (p_resources p) r) p]> (permits s))
    (set_resources (res_sub (resources s) r) s).

(** A caller that issues the charges [rs] one after the other on the same
    permit and swallows each [bad_alloc]. *)
Fixpoint consume_each (id : nat) (rs : list reader_resources) : M unit :=
  match rs with
  | [] => mret tt
  | r :: rs' => try_catch (impl_consume id r) (fun _ => mret tt);; consume_each id rs'
  end.

(** The semaphore's count of killed reads. *)
Definition killed (s : semaphore) : Z := total_reads_killed_due_to_kill_limit (sem_stats s).

(** How the kill statistics may move between two states of a permit: not at
    all, or the permit was killed at least once and the semaphore counted it
    exactly when the permit had never been killed before. *)
Definition kill_counted (s : semaphore) (p : permit) (s' : semaphore) (p' : permit) : Prop :=
  (p_oom_kills p' = p_oom_kills p /\ killed s' = killed s)
  \/ (p_oom_kills p < p_oom_kills p'
      /\ killed s' = if p_oom_kills p =? 0 then incr64 (killed s) else killed s).

(** A permit that holds the whole memory of the semaphore and has reached
    the kill limit. *)
Definition c6_sem : semaphore :=
  set_permits {[ 0%nat := set_p_resources (mk_resources 1 4096) (new_permit (mk_resources 1 4096)) ]}
    (set_resources (mk_resources 0 (-3072)) (make_semaphore 1 1 1024 100 2 4)).

(** ** The used/blocked counters on destruction *)

(** The semaphore-wide invariant. *)
Definition used_ge_blocked (s : semaphore) : Prop :=
  blocked_permits (sem_stats s) <= used_permits (sem_stats s).

(** A permit is obtained, marked used and then blocked, and its last
    reference is dropped while both branches are still open. *)
Definition orphaned_blocked_setup (maw : M unit) : M nat :=
  '(id, _) ← obtain_permit maw 100;
  mark_used maw id;;
  mark_blocked maw id;;
  mret id.

(** ** Reasoning about runs

    [wp m s Q E]: started in [s], the operation [m] either returns [a] in a
    state [s'] with [Q a s'] or throws [e] in a state [s'] with [E e s'];
    it does not crash. *)

Definition wp {A} (m : M A) (s : semaphore)
    (Q : A -> semaphore -> Prop) (E : exn -> semaphore -> Prop) : Prop :=
  match m s with
  | Ok a s' => Q a s'
  | Throw e s' => E e s'
  | Crash _ => False
  end.

(** The exceptional postcondition of an operation that does not throw. *)
Definition no_throw : exn -> semaphore -> Prop := fun _ _ => False.

(** ** Well-formed semaphores

    [maybe_admit_waiters] can be followed to its end on a semaphore whose
    queues are consistent with its permits: every waiter is a live permit in
    a waiting state and appears once; every cached reader runs under a live
    permit in state [inactive] and under no other cached reader's permit;
    the addresses of cached reads are below the allocation mark.  A waiter
    does not hold used and blocked branches at the same time, so that its
    admission does not re-enter the admission loop. *)

(** The entries of the wait list in the order [front] serves them. *)
Definition waiters (s : semaphore) : list entry :=
  memory_queue (wait_list s) ++ admission_queue (wait_list s).

Definition waiting_permits (s : semaphore) : list nat := e_permit <$> waiters s.

Definition inactive_permits (s : semaphore) : list nat :=
  (fun ir => rd_permit (ir_reader ir)) <$> inactive_list s.

Definition waiter_ok (s : semaphore) (id : nat) : Prop :=
  exists p, permits s !! id = Some p
    /\ (p_state p = waiting_for_admission \/ p_state p = waiting_for_memory)
    /\ (p_used_branches p = 0 \/ p_blocked_branches p = 0).

Definition inactive_ok (s : semaphore) (id : nat) : Prop :=
  exists p, permits s !! id = Some p /\ p_state p = inactive.

Record wf (s : semaphore) : Prop := mk_wf {
  wf_waiting : Forall (waiter_ok s) (waiting_permits s);
  wf_waiting_nodup : NoDup (waiting_permits s);
  wf_inactive : Forall (inactive_ok s) (inactive_permits s);
  wf_inactive_nodup : NoDup (inactive_permits s);
  wf_ptr_fresh : Forall (fun ir => (ir_ptr ir < next_id s)%nat) (inactive_list s)
}.

(** A permit that no queue refers to. *)
Definition unreferenced (s : semaphore) (id : nat) : Prop :=
  (id ∉ waiting_permits s) /\ (id ∉ inactive_permits s).

(** The parts of the semaphore that only the queue operations change. *)
Record same_shape (s s' : semaphore) : Prop := mk_same_shape {
  ss_wait : wait_list s' = wait_list s;
  ss_inactive : inactive_list s' = inactive_list s;
  ss_evicting : evicting s' = evicting s;
  ss_this : sem_this s' = sem_this s;
  ss_next_id : next_id s' = next_id s;
  ss_initial : initial_resources s' = initial_resources s;
  ss_max_queue : max_queue_length s' = max_queue_length s;
  ss_shed : total_reads_shed_due_to_overload (sem_stats s')
            = total_reads_shed_due_to_overload (sem_stats s)
}.

(** What a run of [maybe_admit_waiters] may do to a well-formed semaphore:
    it serves waiters from the front and evicts cached readers from the
    front, and leaves unreferenced permits alone. *)
Record admitted (s s' : semaphore) : Prop := mk_admitted {
  adm_wf : wf s';
  adm_waiters : exists k, waiters s' = drop k (waiters s);
  adm_inactive : exists k, inactive_list s' = drop k (inactive_list s);
  adm_frame : forall id, unreferenced s id -> permits s' !! id = permits s !! id;
  adm_evicting : evicting s = true -> evicting s' = true;
  adm_this : sem_this s' = sem_this s;
  adm_next_id : next_id s' = next_id s;
  adm_initial : initial_resources s' = initial_resources s;
  adm_max_queue : max_queue_length s' = max_queue_length s;
  adm_shed : total_reads_shed_due_to_overload (sem_stats s')
             = total_reads_shed_due_to_overload (sem_stats s)
}.

(** A step that changes no queue and no permit but [id]. *)
Definition touches_only (id : nat) (s s' : semaphore) : Prop :=
  same_shape s s' /\ (forall j, j <> id -> permits s' !! j = permits s !! j).

(** What [on_permit_active] does to a permit that does not hold used and
    blocked branches together, and to the semaphore's used counter. *)
Definition activated (p : permit) : permit :=
  if p_used_branches p =? 0 then set_p_state active_unused p
  else set_p_marked_as_used true (set_p_state active_used p).

Definition count_used (p : permit) (s : semaphore) : semaphore :=
  if p_used_branches p =? 0 then s
  else set_sem_stats (set_used_permits (incr64 (used_permits (sem_stats s))) (sem_stats s)) s.

Definition is_active (p : permit) : Prop :=
  p_state p = active_unused \/ p_state p = active_used.

(** *** Eviction *)

(** The state right after [on_evicted] has refunded the base resources of
    permit [id], before the waiters are looked at again. *)
Definition evicted_refund (id : nat) (p : permit) (s : semaphore) : semaphore :=
  set_resources (res_add (resources s) (p_base_resources p))
    (set_permits
       (<[id := set_p_resources (res_sub (p_resources p) (p_base_resources p))
                  (set_p_state evicted p)]> (permits s)) s).

(** The state after [on_evicted] on a permit whose base resources were not
    consumed, and the last step of [on_evicted] after a refund. *)
Definition evicted_unrefunded (id : nat) (p : permit) (s : semaphore) : semaphore :=
  set_permits (<[id := set_p_state evicted p]> (permits s)) s.

Definition clear_consumed (id : nat) (p : permit) (s : semaphore) : semaphore :=
  set_permits (<[id := set_p_base_resources_consumed false p]> (permits s)) s.

(** ** Leaving the active states *)




(** ** Enqueuing a waiter *)





(** ** Requesting memory *)



(** The second case of [request_memory], in the words of the spec. *)
Definition memory_available (s : semaphore) (n : Z) : Prop :=
  0 < memory (resources s) \/ memory (consumed_resources s) + n < get_serialize_limit s.





(** ** Registering an inactive read *)







(** Permit 0 is reading (one used branch) and holds one of the two counts;
    permit 1 waits behind it for admission: while a used permit is making
    progress nobody is admitted. *)
Definition c4_reading : permit :=
  mk_permit (mk_resources 1 100) true (mk_resources 1 100) active_used
    1 true 0 false 0 0 None 0.

Definition c4_waiter : permit :=
  set_p_state waiting_for_admission (new_permit (mk_resources 1 100)).

(** The semaphore of those two permits, with [mem_left] bytes available. *)
Definition c4_sem (mem_left : Z) : semaphore :=
  mk_semaphore 1%nat (mk_resources 2 2048) (mk_resources 1 mem_left)
    (mk_wait_queue [mk_entry 3 1 None] []) [] [] (set_used_permits 1 stats_zero) None
    {[ 0%nat := c4_reading; 1%nat := c4_waiter ]}
    100 2 4 false [] [] 5%nat.

(** The reader of permit 0. *)
Definition c4_reader : reader := mk_reader 7 0 0.

(** ** Registering and unregistering *)




(** ** Exceptions inside the admission loop *)

(** The state from which [maybe_admit_waiters] goes on after the admission
    of the front waiter [x], whose permit record was [p], has failed at the
    kill limit: the permit is active and was not charged, the kill is on
    record, the promise of the waiter holds [bad_alloc], and the entry has
    left the wait list. *)
Definition refused_at_kill_limit (x : entry) (p : permit) (s : semaphore) : semaphore :=
  let s1 := set_permits (<[e_permit x := activated p]> (permits s)) (count_used p s) in
  let s2 := oom_killed (e_permit x) (activated p) s1 in
  set_wait_list (wait_pop_front (wait_list s2))
    (set_settled (settled s2 ++ [(e_pr x, Some bad_alloc)]) s2).

(** A waiter whose base resources reach the kill limit, at the front of
    the queue of a semaphore without an active reader. *)
Definition kill_on_admission_sem : semaphore :=
  mk_semaphore 1%nat (mk_resources 1 1024) (mk_resources 1 0)
    (mk_wait_queue [mk_entry 5 0 None] []) [] [] stats_zero None
    {[ 0%nat := set_p_state waiting_for_admission (new_permit (mk_resources 1 3072)) ]}
    100 2 4 false [] [] 6%nat.

(** ** The scenarios of the spec, run on the model *)

(** One mebibyte. *)
Definition MiB : Z := 1048576.

(** Scenario 1: two permits on a semaphore of two counts are admitted at
    once; both marked used, then unused and dropped, they leave the
    semaphore as it started. *)
Definition scenario_simple_admission : M (future * future * Z * Z * reader_resources) :=
  let maw := maybe_admit_waiters 4 in
  '(a, fa) ← obtain_permit maw 0;
  '(b, fb) ← obtain_permit maw 0;
  mark_used maw a;; mark_used maw b;;
  s1 ← get_sem;
  mark_unused maw a;; mark_unused maw b;;
  destroy maw a;; destroy maw b;;
  s2 ← get_sem;
  mret (fa, fb, used_permits (sem_stats s1), used_permits (sem_stats s2), resources s2).

(** Scenario 3: a cached reader is evicted to make room for a new permit. *)
Definition scenario_eviction_for_admission
    : M (inactive_read_handle * future * option state * option state * list reader
         * list (nat * option exn)) :=
  let maw := maybe_admit_waiters 4 in
  '(a, _) ← obtain_permit maw 0;
  h ← register_inactive_read maw true (mk_reader 9 a 0);
  '(b, fb) ← obtain_permit maw 0;
  s ← get_sem;
  mret (h, fb, p_state <$> permits s !! a, p_state <$> permits s !! b,
        closed_readers s, settled s).

(** A reader is cached, its permit takes a used and a blocked guard, and
    the reader is taken out of the cache again.  The result is the pointer
    of the handle, the reader that came back and the state of the permit. *)
Definition scenario_guards_while_cached
    : M (option nat * option reader * option state) :=
  let maw := maybe_admit_waiters 2 in
  '(a, _) ← obtain_permit maw 0;
  h ← register_inactive_read maw true (mk_reader 9 a 0);
  mark_used maw a;; mark_blocked maw a;;
  r ← unregister_inactive_read maw h;
  s ← get_sem;
  mret (h_irp h, r, p_state <$> permits s !! a).

(** The set-up of a waiter that holds a used and a blocked guard, reached
    through the interface: the permit of a cached reader takes a blocked
    guard inside its used guard, the reader is evicted, and the permit asks
    for readmission while a second permit is counted as used.  A third
    permit has become the blessed one and has brought the available memory
    to zero.  The result is the second permit. *)
Definition scenario_waiter_with_both_guards : M nat :=
  let maw := maybe_admit_waiters 5 in
  '(a, _) ← obtain_permit maw 0;
  mark_used maw a;;
  register_inactive_read maw true (mk_reader 9 a 0);;
  mark_blocked maw a;;
  try_evict_one_inactive_read maw evict_manual;;
  '(p, _) ← obtain_permit maw 0;
  mark_used maw p;;
  b ← make_tracking_only_permit;
  impl_consume b (mk_resources 0 2048);;
  impl_request_memory maw b 3000;;
  impl_signal maw b (mk_resources 0 3000);;
  wait_readmission maw a;;
  mret p.

(** Scenario 5: after 4 MiB on a semaphore of 1 MiB with kill multiplier 4,
    the next byte is refused and the kill is counted. *)
Definition scenario_kill_limit : M Z :=
  let maw := maybe_admit_waiters 4 in
  '(a, _) ← obtain_permit maw 0;
  impl_consume a (mk_resources 0 (4 * MiB));;
  try_catch (impl_consume a (mk_resources 0 1)) (fun _ => mret tt);;
  s ← get_sem;
  mret (killed s).

(** ** The state after an operation *)

(** The state after [release_base_resources] on permit [id], whose record
    was [p], when nobody is waiting. *)
Definition base_released (id : nat) (p : permit) (s : semaphore) : semaphore :=
  let q := if p_base_resources_consumed p
           then set_p_base_resources_consumed false
                  (set_p_resources (res_sub (p_resources p) (p_base_resources p)) p)
           else p in
  set_resources (res_add (resources s) (p_base_resources p))
    (set_permits (<[id := set_p_base_resources res_zero q]> (permits s)) s).

(** The state after a [resource_units] object of permit [id] has exchanged
    the resources [old] for [new]. *)
Definition units_exchanged (id : nat) (p : permit) (old new : reader_resources)
    (s : semaphore) : semaphore :=
  set_resources (res_add (res_sub (resources s) new) old)
    (set_permits
       (<[id := set_p_resources (res_sub (res_add (p_resources p) new) old) p]> (permits s))
       s).

(** The state after the destructor of permit [id], whose record was [p], on
    a semaphore without waiters. *)
Definition destroyed (id : nat) (p : permit) (s : semaphore) : semaphore :=
  let st := sem_stats s in
  set_blessed_permit
    (match blessed_permit s with
     | Some b => if Nat.eqb b id then None else Some b
     | None => None
     end)
    (set_sem_stats
       (set_current_permits (decr64 (current_permits st))
          (set_disk_reads
             (to_u64 (disk_reads st - (if p_sstables_read p =? 0 then 0 else 1)))
             (set_sstables_read (to_u64 (sstables_read st - p_sstables_read p)) st)))
       (set_permits (delete id (permits s))
          (set_resources (res_add (resources s) (p_resources p)) s))).

(** The state after [set_resources(r)] on a semaphore without waiters. *)
Definition limits_set (r : reader_resources) (s : semaphore) : semaphore :=
  set_resources (res_add (resources s) (res_sub r (initial_resources s)))
    (set_initial_resources r s).

(** The state after the cached reads [l] have been dropped and their
    readers handed over for closing. *)
Definition dropped (l : list inactive_read) (rest : list inactive_read) (s : semaphore)
    : semaphore :=
  set_inactive_list rest (set_closed_readers (closed_readers s ++ (ir_reader <$> l)) s).

(** The state after [mark_used] on a permit [p] that is already marked:
    only the permit's count of used branches moves. *)
Definition used_branch_added (id : nat) (p : permit) (s : semaphore) : semaphore :=
  set_permits (<[id := set_p_used_branches (incr64 (p_used_branches p)) p]> (permits s)) s.

(** The same for [mark_blocked]. *)
Definition blocked_branch_added (id : nat) (p : permit) (s : semaphore) : semaphore :=
  set_permits (<[id := set_p_blocked_branches (incr64 (p_blocked_branches p)) p]> (permits s)) s.

(** The state after [on_start_sstable_read] on permit [id] with record [p]:
    the disk read is counted with the permit's first sstable only. *)
Definition sstable_read_started (id : nat) (p : permit) (s : semaphore) : semaphore :=
  set_sem_stats
    (set_sstables_read (incr64 (sstables_read (sem_stats s)))
       (if p_sstables_read p =? 0
        then set_disk_reads (incr64 (disk_reads (sem_stats s))) (sem_stats s)
        else sem_stats s))
    (set_permits (<[id := set_p_sstables_read (incr64 (p_sstables_read p)) p]>
                    (permits s)) s).

(** The state after a permit has been admitted on the spot: it is active,
    its base resources are charged, and the admission is counted. *)
Definition admitted_now (id : nat) (p : permit) (s : semaphore) : semaphore :=
  let q := activated p in
  let s1 := charged id q (p_base_resources p)
              (set_permits (<[id := q]> (permits s)) (count_used p s)) in
  set_sem_stats
    (set_reads_admitted (incr64 (reads_admitted (sem_stats s1))) (sem_stats s1))
    (set_permits
       (<[id := set_p_base_resources_consumed true
                  (set_p_resources (res_add (p_resources p) (p_base_resources p)) q)]>
          (permits s1)) s1).

(** The state after a permit with record [p] has been created at the next
    free address. *)
Definition permit_created (p : permit) (s : semaphore) : semaphore :=
  set_sem_stats
    (set_current_permits (incr64 (current_permits (sem_stats s)))
       (set_total_permits (incr64 (total_permits (sem_stats s))) (sem_stats s)))
    (set_permits (<[next_id s := p]> (permits s)) (set_next_id (S (next_id s)) s)).

(** A permit is in state [st] and holds exactly its base resources. *)
Definition holds_base (q : permit) (st : state) : Prop :=
  p_state q = st /\ p_base_resources_consumed q = true
  /\ p_resources q = p_base_resources q.

(** ** Outcomes of every kind *)

(** [gwp m s Q E C]: the outcome of [m] started in [s] satisfies [Q] if it
    is a return, [E] if it is an exception and [C] if it is a crash. *)
Definition gwp {A} (m : M A) (s : semaphore)
    (Q : A -> semaphore -> Prop) (E : exn -> semaphore -> Prop) (C : crash -> Prop) : Prop :=
  match m s with
  | Ok a s' => Q a s'
  | Throw e s' => E e s'
  | Crash c => C c
  end.

(** [safe throws m]: [m] never ends in [std::terminate], and it throws only
    if [throws] is set. *)
Definition safe (throws : bool) {A} (m : M A) : Prop :=
  forall s, gwp m s (fun _ _ => True) (fun _ _ => throws = true)
              (fun c => c <> terminate_called).

(** [keeps I m]: whenever [m] returns or throws from a state in [I], it
    does so in a state in [I]. *)
Definition keeps (I : semaphore -> Prop) {A} (m : M A) : Prop :=
  forall s, I s -> gwp m s (fun _ s' => I s') (fun _ s' => I s') (fun _ => True).

(** ** Conservation of resources *)

(** The sum of [f] over the live permits. *)
Definition total_of (f : permit -> Z) (m : gmap nat permit) : Z :=
  map_fold (fun _ p acc => f p + acc) 0 m.

(** What the live permits hold together. *)
Definition held (m : gmap nat permit) : reader_resources :=
  mk_resources (total_of (fun p => count (p_resources p)) m)
               (total_of (fun p => memory (p_resources p)) m).

(** Conservation of resources: what is available and what the permits hold
    add up to the initial resources. *)
Definition conserved (s : semaphore) : Prop :=
  res_add (resources s) (held (permits s)) = initial_resources s.

(** No permit lives at an address that is still to be handed out. *)
Definition addresses_fresh (s : semaphore) : Prop :=
  forall id, (next_id s <= id)%nat -> permits s !! id = None.

(** The accounts of a semaphore balance: resources are conserved, and the
    next permit will not be created over a live one. *)
Definition accounts_balance (s : semaphore) : Prop :=
  conserved s /\ addresses_fresh s.

(** [m], started in [s], ends with balanced accounts, whether it returns or
    throws. *)
Definition conserves {A} (m : M A) (s : semaphore) : Prop :=
  gwp m s (fun _ s' => accounts_balance s') (fun _ s' => accounts_balance s')
    (fun _ => True).

(** ** The front of the wait list *)

(** The waiter at the front of the wait list, if there is one, cannot be
    admitted as the semaphore stands. *)
Definition front_not_admissible (s : semaphore) : Prop :=
  forall x p, wait_front (wait_list s) = Some x -> permits s !! e_permit x = Some p ->
    can_admit_read s p <> yes.

(** Two permits that the admission predicate cannot tell apart. *)
Definition alike_permit (p q : permit) : Prop :=
  state_eqb (p_state p) waiting_for_memory = state_eqb (p_state q) waiting_for_memory
  /\ p_base_resources p = p_base_resources q.

(** [t] has the wait list of [s] and differs from [s] in nothing that can
    turn a verdict of the admission predicate into a [yes]. *)
Record admission_alike (s t : semaphore) : Prop := mk_admission_alike {
  al_wait : wait_list t = wait_list s;
  al_resources : resources t = resources s;
  al_initial : initial_resources t = initial_resources s;
  al_serialize : serialize_limit_multiplier t = serialize_limit_multiplier s;
  al_kill : kill_limit_multiplier t = kill_limit_multiplier s;
  al_blessed : blessed_permit t = blessed_permit s;
  al_ready : ready_list t = ready_list s;
  al_used : used_permits (sem_stats t) = used_permits (sem_stats s);
  al_blocked : blocked_permits (sem_stats t) = blocked_permits (sem_stats s);
  al_permits : forall id q, permits t !! id = Some q ->
    exists p, permits s !! id = Some p /\ alike_permit p q
}.

(** ** Background eviction *)

(** A background eviction is under way, the cache holds [l] and the readers
    [c] have been handed over for closing. *)
Definition eviction_pending (l : list inactive_read) (c : list reader) (s : semaphore) : Prop :=
  evicting s = true /\ inactive_list s = l /\ closed_readers s = c.

(** ** Example states *)

(** A permit that was admitted with base resources of one count and 100
    bytes and holds no guard. *)
Definition admitted_permit : permit :=
  mk_permit (mk_resources 1 100) true (mk_resources 1 100) active_unused
    0 false 0 false 0 0 None 0.

(** A permit as above that is blocked inside a used guard. *)
Definition blocked_permit : permit :=
  mk_permit (mk_resources 1 100) true (mk_resources 1 100) active_blocked
    1 true 1 true 0 0 None 0.

(** A semaphore of two counts and 2048 bytes whose only permit, [p] at
    address 0, holds one count and 100 bytes; nobody waits. *)
Definition one_permit_sem (p : permit) (st : stats) : semaphore :=
  mk_semaphore 1%nat (mk_resources 2 2048) (mk_resources 1 1948)
    (mk_wait_queue [] []) [] [] st None {[ 0%nat := p ]} 100 2 4 false [] [] 1%nat.

Definition idle_sem : semaphore := one_permit_sem admitted_permit stats_zero.

(** Permit 0 is admitted and idle, permit 1 waits for admission, and the
    semaphore has room for it: the state between a [signal] and the run of
    the admission loop that follows it. *)
Definition queued_sem : semaphore :=
  mk_semaphore 1%nat (mk_resources 2 2048) (mk_resources 1 1948)
    (mk_wait_queue [mk_entry 3 1 None] []) [] [] stats_zero None
    {[ 0%nat := admitted_permit; 1%nat := c4_waiter ]}
    100 2 4 false [] [] 5%nat.

(** The reader of permit 0 is cached on a semaphore of one count, permit 1
    waits for that count, and the background eviction has been started. *)
Definition evicting_sem : semaphore :=
  mk_semaphore 1%nat (mk_resources 1 2048) (mk_resources 0 1948)
    (mk_wait_queue [mk_entry 3 1 None] []) [] [mk_inactive_read 2 (mk_reader 7 0 0)]
    (set_inactive_reads 1 stats_zero) None
    {[ 0%nat := set_p_state inactive admitted_permit; 1%nat := c4_waiter ]}
    100 2 4 true [] [] 5%nat.

(** ** Eviction and readmission *)

(** The record of a permit after its reader was evicted and its base
    resources were refunded. *)
Definition evicted_permit (p : permit) : permit :=
  set_p_base_resources_consumed false
    (set_p_resources (res_sub (p_resources p) (p_base_resources p))
       (set_p_state evicted p)).

(** The state after the cached read [ir], whose permit had the record [p]
    and had consumed its base resources, was evicted on request and nobody
    was waiting for the refund. *)
Definition evicted_manually (ir : inactive_read) (p : permit) (s : semaphore) : semaphore :=
  set_closed_readers (closed_readers s ++ [ir_reader ir])
    (set_sem_stats
       (set_inactive_reads (decr64 (inactive_reads (sem_stats s))) (sem_stats s))
       (set_permits (<[rd_permit (ir_reader ir) := evicted_permit p]> (permits s))
          (set_resources (res_add (resources s) (p_base_resources p))
             (set_inactive_list (unlink (ir_ptr ir) (inactive_list s)) s)))).

(** The reader of permit 0 is cached on a semaphore of one count and nobody
    waits. *)
Definition cached_sem : semaphore :=
  mk_semaphore 1%nat (mk_resources 1 2048) (mk_resources 0 1948)
    (mk_wait_queue [] []) [] [mk_inactive_read 2 (mk_reader 7 0 0)]
    (set_inactive_reads 1 stats_zero) None
    {[ 0%nat := set_p_state inactive admitted_permit ]}
    100 2 4 false [] [] 5%nat.

(** * Verification *)

Lemma state_eqb_eq a b : state_eqb a b = true <-> a = b.
Proof. destruct a, b; simpl; split; congruence. Qed.

Lemma state_eqb_neq a b : state_eqb a b = false <-> a <> b.
Proof. destruct a, b; simpl; split; congruence. Qed.

#[global] Opaque Z.pow Z.modulo.
Arguments to_u64 : simpl never.
Arguments to_s64 : simpl never.
Arguments incr64 : simpl never.
Arguments decr64 : simpl never.
Arguments get_kill_limit : simpl never.
Arguments get_serialize_limit : simpl never.
Arguments has_available_units : simpl never.
Arguments can_admit_read : simpl never.

(** Unfolding of the monad's plumbing. *)
Ltac munfold :=
  cbv beta iota delta
    [mbind M_bind mret M_ret get_sem modify modify_stats permit_update
     permit_ref assert when abort throw try_catch noexcept] in *.


(** ** The admission predicate *)





(** Where both limits are switched on and some resource is left, the
    amended predicate is the one of the spec. *)
Lemma can_admit_read_amended_is_spec s p :
  limit_disabled s (kill_limit_multiplier s) = false ->
  limit_disabled s (serialize_limit_multiplier s) = false ->
  count (resources s) <> 0 \/ memory (resources s) <> 0 ->
  can_admit_read_amended s p = can_admit_read_spec s p.
Proof.
  intros Hk Hs Hnz. unfold can_admit_read_amended, can_admit_read_spec, limit_amended,
    kill_limit_spec, serialize_limit_spec, has_available_units_amended,
    has_available_units_spec.
  rewrite Hk, Hs.
  assert (Hn : negb (count (resources s) =? 0) || negb (memory (resources s) =? 0) = true).
  { apply orb_true_iff. rewrite !negb_true_iff, !Z.eqb_neq. exact Hnz. }
  rewrite Hn. reflexivity.
Qed.



(** ** Available units *)

(** C2 as stated fails: with no resources left at all, a request for
    nothing is refused although both comparisons hold. *)
Lemma has_available_units_zero_resources :
  let s := set_resources res_zero (make_semaphore 1 1 1024 100 2 4) in
  ~ (has_available_units s res_zero = true <->
     (count (resources s) >= count res_zero /\ memory (resources s) >= memory res_zero)
     \/ count (resources s) = count (initial_resources s)).
Proof.
  simpl. intros [_ H]. 
  assert (Hf : has_available_units (set_resources res_zero (make_semaphore 1 1 1024 100 2 4)) res_zero = false) by reflexivity.
  rewrite Hf in H. simpl in H. discriminate H. left. lia.
Qed.

(** C2, amended: the comparison disjunct also requires the available
    resources to be non-zero. *)
Theorem has_available_units_iff (s : semaphore) (base : reader_resources) :
  has_available_units s base = true <->
  (non_zero (resources s) = true
   /\ count (resources s) >= count base /\ memory (resources s) >= memory base)
  \/ count (resources s) = count (initial_resources s).
Proof.
  unfold has_available_units.
  rewrite orb_true_iff, !andb_true_iff, !Z.leb_le, Z.eqb_eq. intuition lia.
Qed.

(** ** Consume and the kill limit *)

Lemma sem_consume_ok id r s :
  kill_limit_reached s r = false ->
  sem_consume id r s = Ok tt (set_resources (res_sub (resources s) r) s).
Proof.
  unfold kill_limit_reached, sem_consume. intros H. munfold. rewrite H. reflexivity.
Qed.

Lemma sem_consume_throw id r s p :
  kill_limit_reached s r = true -> permits s !! id = Some p ->
  sem_consume id r s = Throw bad_alloc (oom_killed id p s).
Proof.
  unfold kill_limit_reached, sem_consume, on_oom_kill, oom_killed. intros H Hp.
  munfold. rewrite H. repeat (rewrite Hp; simpl).
  destruct (p_oom_kills p =? 0); reflexivity.
Qed.

(** C9: with available memory strictly positive, [consume] does not look at
    the kill limit: whatever the charge, it subtracts it and returns, and no
    exception leaves it.  The throw is only reachable with available memory
    at or below zero. *)
Theorem consume_positive_memory_never_throws (id : nat) (r : reader_resources) (s : semaphore) :
  0 < memory (resources s) ->
  sem_consume id r s = Ok tt (set_resources (res_sub (resources s) r) s)
  /\ (forall e s', sem_consume id r s <> Throw e s')
  /\ (forall s0 e s', sem_consume id r s0 = Throw e s' -> memory (resources s0) <= 0).
Proof.
  intros H.
  assert (Hok : forall s0, 0 < memory (resources s0) ->
            sem_consume id r s0 = Ok tt (set_resources (res_sub (resources s0) r) s0)).
  { intros s0 H0. apply sem_consume_ok. unfold kill_limit_reached.
    apply Z.leb_gt in H0. rewrite H0. reflexivity. }
  split; [apply Hok; exact H|]. split.
  - intros e s' Ht. rewrite (Hok s H) in Ht. discriminate.
  - intros s0 e s' Ht.
    destruct (Z.leb_spec (memory (resources s0)) 0) as [Hle|Hgt]; [exact Hle|].
    rewrite (Hok s0 Hgt) in Ht. discriminate.
Qed.

(** One byte of memory is left and the charge takes the consumed memory far
    past the kill limit. *)
Lemma consume_positive_memory_never_throws_witness :
  0 < memory (resources c9_sem)
  /\ get_kill_limit c9_sem <= memory (consumed_resources c9_sem) + 1000000
  /\ sem_consume 0 (mk_resources 0 1000000) c9_sem
     = Ok tt (set_resources (res_sub (resources c9_sem) (mk_resources 0 1000000)) c9_sem).
Proof.
  assert (H : 0 < memory (resources c9_sem)) by (simpl; lia).
  split; [exact H|]. split; [vm_compute; discriminate|].
  exact (proj1 (consume_positive_memory_never_throws 0 (mk_resources 0 1000000) c9_sem H)).
Defined.

Lemma impl_consume_run id p r s :
  permits s !! id = Some p ->
  impl_consume id r s
  = if kill_limit_reached s r then Throw bad_alloc (oom_killed id p s)
    else Ok tt (charged id p r s).
Proof.
  intros Hp. unfold impl_consume. unfold mbind at 1. unfold M_bind.
  destruct (kill_limit_reached s r) eqn:Hk.
  - rewrite (sem_consume_throw id r s p Hk Hp). reflexivity.
  - rewrite (sem_consume_ok id r s Hk). munfold. simpl. rewrite Hp. reflexivity.
Qed.

Lemma incr64_small x : 0 <= x -> x + 1 < 2 ^ 64 -> incr64 x = x + 1.
Proof. intros. unfold incr64. apply Z.mod_small. lia. Qed.

Lemma consume_each_counts id rs : forall s p,
  permits s !! id = Some p ->
  0 <= p_oom_kills p -> p_oom_kills p + Z.of_nat (length rs) < 2 ^ 64 ->
  exists s' p', consume_each id rs s = Ok tt s' /\ permits s' !! id = Some p'
    /\ kill_counted s p s' p'.
Proof.
  induction rs as [|r rs IH]; intros s p Hp H0 Hlt.
  - exists s, p. repeat split; [exact Hp|]. left. split; reflexivity.
  - simpl length in Hlt. rewrite Nat2Z.inj_succ in Hlt.
    simpl consume_each. unfold mbind, M_bind, try_catch.
    rewrite (impl_consume_run id p r s Hp).
    destruct (kill_limit_reached s r) eqn:Hk.
    + unfold mret, M_ret.
      assert (Hp1 : permits (oom_killed id p s) !! id
                    = Some (set_p_oom_kills (incr64 (p_oom_kills p)) p)).
      { unfold oom_killed. destruct (p_oom_kills p =? 0); simpl; apply lookup_insert_eq. }
      assert (Hinc : incr64 (p_oom_kills p) = p_oom_kills p + 1) by (apply incr64_small; lia).
      destruct (IH _ _ Hp1) as (s' & p' & Hrun & Hp' & Hc).
      { simpl. lia. } { simpl. lia. }
      exists s', p'. split; [exact Hrun|]. split; [exact Hp'|].
      unfold kill_counted in *. simpl in Hc. right.
      assert (Hk1 : killed (oom_killed id p s)
                    = if p_oom_kills p =? 0 then incr64 (killed s) else killed s).
      { unfold oom_killed, killed. destruct (p_oom_kills p =? 0); reflexivity. }
      assert (Hnz : (incr64 (p_oom_kills p) =? 0) = false)
        by (rewrite Hinc; apply Z.eqb_neq; lia).
      rewrite Hnz in Hc. rewrite Hinc in Hc.
      destruct Hc as [[Ho Hs]|[Ho Hs]].
      * split; [lia|]. rewrite Hs. exact Hk1.
      * split; [lia|]. rewrite Hs. exact Hk1.
    + assert (Hp1 : permits (charged id p r s) !! id
                    = Some (set_p_resources (res_add (p_resources p) r) p))
        by (unfold charged; simpl; apply lookup_insert_eq).
      destruct (IH _ _ Hp1) as (s' & p' & Hrun & Hp' & Hc).
      { exact H0. } { simpl. lia. }
      exists s', p'. split; [exact Hrun|]. split; [exact Hp'|]. exact Hc.
Qed.

(** C6 as stated fails: with memory still available, a charge that takes
    the consumed memory past the kill limit goes through. *)
Lemma consume_past_kill_limit_with_memory_left :
  let s := make_semaphore 1 1 1024 100 2 4 in
  let r := mk_resources 0 5000 in
  get_kill_limit s <= memory (consumed_resources s) + memory r
  /\ sem_consume 0 r s = Ok tt (set_resources (res_sub (resources s) r) s).
Proof. split; [vm_compute; discriminate | reflexivity]. Qed.

(** C6, amended: [consume] throws exactly when available memory is at or
    below zero and the consumed memory after the charge is at or above the
    kill limit; over any run of charges on one permit, the semaphore's kill
    counter moves only at the permit's first kill. *)
Theorem consume_kill_limit (id : nat) (p : permit) (s : semaphore) :
  permits s !! id = Some p ->
  (forall r,
     (exists s', sem_consume id r s = Throw bad_alloc s') <->
     (memory (resources s) <= 0
      /\ get_kill_limit s <= to_u64 (memory (consumed_resources s) + memory r)))
  /\ (forall r, kill_limit_reached s r = true ->
        sem_consume id r s = Throw bad_alloc (oom_killed id p s)
        /\ killed (oom_killed id p s)
           = (if p_oom_kills p =? 0 then incr64 (killed s) else killed s))
  /\ (forall rs,
        0 <= p_oom_kills p -> p_oom_kills p + Z.of_nat (length rs) < 2 ^ 64 ->
        exists s' p', consume_each id rs s = Ok tt s' /\ permits s' !! id = Some p'
          /\ kill_counted s p s' p').
Proof.
  intros Hp. split; [|split].
  - intros r. split.
    + intros [s' H]. destruct (kill_limit_reached s r) eqn:Hk.
      * unfold kill_limit_reached in Hk. apply andb_true_iff in Hk. 
        destruct Hk as [H1 H2]. apply Z.leb_le in H1, H2. lia.
      * rewrite (sem_consume_ok id r s Hk) in H. discriminate.
    + intros [H1 H2]. exists (oom_killed id p s). apply sem_consume_throw; [|exact Hp].
      unfold kill_limit_reached. apply andb_true_iff. split; apply Z.leb_le; lia.
  - intros r Hk. split; [apply sem_consume_throw; assumption|].
    unfold oom_killed, killed. destruct (p_oom_kills p =? 0); reflexivity.
  - intros rs H0 Hlt. eapply consume_each_counts; eassumption.
Qed.

(** A permit that is charged byte by byte across the kill limit: each
    charge past the limit throws, the kill is counted once. *)
Lemma consume_kill_limit_witness :
  permits c6_sem !! 0%nat
    = Some (set_p_resources (mk_resources 1 4096) (new_permit (mk_resources 1 4096)))
  /\ (exists s' p', consume_each 0 [mk_resources 0 1; mk_resources 0 1] c6_sem = Ok tt s'
        /\ permits s' !! 0%nat = Some p'
        /\ kill_counted c6_sem
             (set_p_resources (mk_resources 1 4096) (new_permit (mk_resources 1 4096))) s' p').
Proof.
  assert (H : permits c6_sem !! 0%nat
    = Some (set_p_resources (mk_resources 1 4096) (new_permit (mk_resources 1 4096))))
    by reflexivity.
  split; [exact H|].
  apply (proj2 (proj2 (consume_kill_limit 0 _ c6_sem H)) [mk_resources 0 1; mk_resources 0 1]).
  - simpl. lia.
  - simpl. assert (0 < 2 ^ 64) by (apply Z.pow_pos_nonneg; lia).
    assert (2 ^ 64 = 18446744073709551616) by (vm_compute; reflexivity). lia.
Defined.

(** The scenario of the spec: after a first kill, the next charge is killed
    again and the semaphore's counter stays at one. *)
Example kill_counted_once_example :
  exists s', consume_each 0 [mk_resources 0 1; mk_resources 0 1] c6_sem = Ok tt s'
    /\ killed s' = 1 /\ (p_oom_kills <$> permits s' !! 0%nat) = Some 2.
Proof. eexists. split; [vm_compute; reflexivity|]. split; vm_compute; reflexivity. Qed.

(** ** Unregistering with an empty handle *)

(** C10: [unregister_inactive_read] on a handle that holds no inactive read
    returns an empty optional and leaves the semaphore and every permit as
    they were. *)
Theorem unregister_empty_handle (maw : M unit) (sem_of_handle : nat) (s : semaphore) :
  unregister_inactive_read maw (mk_handle sem_of_handle None) s = Ok None s.
Proof. reflexivity. Qed.

(** ** The used/blocked counters on destruction *)

(** C7, failing run: the permit's destructor decrements [used_permits]
    before [blocked_permits]; destroying the only used permit while it is
    blocked takes [used_permits] below [blocked_permits] and the assertion in
    [on_permit_unused] fails. *)
Theorem destroy_active_blocked_fails_assertion (n : nat) :
  exists id s,
    orphaned_blocked_setup (maybe_admit_waiters (S n)) (make_semaphore 1 2 2048 100 2 4)
      = Ok id s
    /\ (p_state <$> permits s !! id) = Some active_blocked
    /\ used_permits (sem_stats s) = 1 /\ blocked_permits (sem_stats s) = 1
    /\ used_ge_blocked s
    /\ destroy (maybe_admit_waiters (S n)) id s = Crash assertion_failed.
Proof.
  eexists _, _. split; [vm_compute; reflexivity|].
  repeat split; try (vm_compute; congruence).
Qed.

(** The sibling path of the destructor: [mark_unused] on the same permit
    unblocks before it un-counts, and the counters end at zero. *)
Example mark_unused_unblocks_first (n : nat) :
  exists id s s',
    orphaned_blocked_setup (maybe_admit_waiters (S n)) (make_semaphore 1 2 2048 100 2 4)
      = Ok id s
    /\ mark_unused (maybe_admit_waiters (S n)) id s = Ok tt s'
    /\ used_permits (sem_stats s') = 0 /\ blocked_permits (sem_stats s') = 0
    /\ (p_state <$> permits s' !! id) = Some active_unused.
Proof.
  eexists _, _, _. split; [vm_compute; reflexivity|].
  split; [vm_compute; reflexivity|]. repeat split; vm_compute; reflexivity.
Qed.

(** ** Reasoning about runs

    The rules of [wp], one for each combinator of the operation monad. *)

Section WpRules.
Context {A B : Type}.
Implicit Types (Q : A -> semaphore -> Prop) (E : exn -> semaphore -> Prop).

Lemma wp_ret a s Q E : Q a s -> wp (mret a) s Q E.
Proof. intros H. exact H. Qed.

Lemma wp_bind (m : M A) (f : A -> M B) s (Q : B -> semaphore -> Prop) E :
  wp m s (fun a s' => wp (f a) s' Q E) E -> wp (m ≫= f) s Q E.
Proof. unfold wp, mbind, M_bind. destruct (m s); auto. Qed.

Lemma wp_mono (m : M A) s Q Q' E E' :
  wp m s Q E -> (forall a s', Q a s' -> Q' a s') -> (forall e s', E e s' -> E' e s') ->
  wp m s Q' E'.
Proof. unfold wp. destruct (m s); auto. Qed.

Lemma wp_try_catch (m : M A) h s Q E :
  wp m s Q (fun e s' => wp (h e) s' Q E) -> wp (try_catch m h) s Q E.
Proof. unfold wp, try_catch. destruct (m s); auto. Qed.

Lemma wp_noexcept (m : M A) s Q E : wp m s Q no_throw -> wp (noexcept m) s Q E.
Proof. unfold wp, noexcept, no_throw. destruct (m s); auto. Qed.

Lemma wp_throw e s Q E : E e s -> wp (throw e) s Q E.
Proof. intros H. exact H. Qed.

Lemma wp_returns (m : M A) s Q :
  wp m s Q no_throw -> exists a s', m s = Ok a s' /\ Q a s'.
Proof. unfold wp, no_throw. destruct (m s); [eauto | tauto | tauto]. Qed.


End WpRules.

Lemma wp_get_sem s (Q : semaphore -> semaphore -> Prop) E : Q s s -> wp get_sem s Q E.
Proof. intros H. exact H. Qed.

Lemma wp_modify f s (Q : unit -> semaphore -> Prop) E : Q tt (f s) -> wp (modify f) s Q E.
Proof. intros H. exact H. Qed.

Lemma wp_modify_stats f s (Q : unit -> semaphore -> Prop) E :
  Q tt (set_sem_stats (f (sem_stats s)) s) -> wp (modify_stats f) s Q E.
Proof. intros H. exact H. Qed.

Lemma wp_assert b s (Q : unit -> semaphore -> Prop) E :
  b = true -> Q tt s -> wp (assert b) s Q E.
Proof. intros -> H. exact H. Qed.

Lemma wp_when b m s (Q : unit -> semaphore -> Prop) E :
  (b = true -> wp m s Q E) -> (b = false -> Q tt s) -> wp (when b m) s Q E.
Proof. unfold when. destruct b; intros H1 H2; [apply H1 | apply H2]; reflexivity. Qed.

Lemma wp_permit_ref id p s (Q : permit -> semaphore -> Prop) E :
  permits s !! id = Some p -> Q p s -> wp (permit_ref id) s Q E.
Proof. unfold wp, permit_ref. intros -> H. exact H. Qed.

Lemma wp_permit_update id f p s (Q : unit -> semaphore -> Prop) E :
  permits s !! id = Some p ->
  Q tt (set_permits (<[id := f p]> (permits s)) s) ->
  wp (permit_update id f) s Q E.
Proof. unfold wp, permit_update, permit_ref. munfold. intros -> H. exact H. Qed.

(** ** Reasoning about returns, exceptions and crashes *)

Section GwpRules.
Context {A B : Type}.
Implicit Types (Q : A -> semaphore -> Prop) (E : exn -> semaphore -> Prop) (C : crash -> Prop).

Lemma gwp_ret a s Q E C : Q a s -> gwp (mret a) s Q E C.
Proof. intros H. exact H. Qed.

Lemma gwp_bind (m : M A) (f : A -> M B) s (Q : B -> semaphore -> Prop) E C :
  gwp m s (fun a s' => gwp (f a) s' Q E C) E C -> gwp (m ≫= f) s Q E C.
Proof. unfold gwp, mbind, M_bind. destruct (m s); auto. Qed.

Lemma gwp_mono (m : M A) s Q Q' E E' C C' :
  gwp m s Q E C -> (forall a s', Q a s' -> Q' a s') -> (forall e s', E e s' -> E' e s') ->
  (forall c, C c -> C' c) -> gwp m s Q' E' C'.
Proof. unfold gwp. destruct (m s); auto. Qed.

Lemma gwp_try_catch (m : M A) h s Q E C :
  gwp m s Q (fun e s' => gwp (h e) s' Q E C) C -> gwp (try_catch m h) s Q E C.
Proof. unfold gwp, try_catch. destruct (m s); auto. Qed.

Lemma gwp_noexcept (m : M A) s Q E C :
  gwp m s Q (fun _ _ => C terminate_called) C -> gwp (noexcept m) s Q E C.
Proof. unfold gwp, noexcept. destruct (m s); auto. Qed.

Lemma gwp_throw e s Q E C : E e s -> gwp (throw e) s Q E C.
Proof. intros H. exact H. Qed.

Lemma gwp_abort c s Q E C : C c -> gwp (abort c) s Q E C.
Proof. intros H. exact H. Qed.

End GwpRules.

Lemma gwp_get_sem s (Q : semaphore -> semaphore -> Prop) E C : Q s s -> gwp get_sem s Q E C.
Proof. intros H. exact H. Qed.

Lemma gwp_modify f s (Q : unit -> semaphore -> Prop) E C : Q tt (f s) -> gwp (modify f) s Q E C.
Proof. intros H. exact H. Qed.

Lemma gwp_modify_stats f s (Q : unit -> semaphore -> Prop) E C :
  Q tt (set_sem_stats (f (sem_stats s)) s) -> gwp (modify_stats f) s Q E C.
Proof. intros H. exact H. Qed.

Lemma gwp_assert b s (Q : unit -> semaphore -> Prop) E C :
  (b = true -> Q tt s) -> C assertion_failed -> gwp (assert b) s Q E C.
Proof. destruct b; intros H1 H2; [apply H1; reflexivity|exact H2]. Qed.

Lemma gwp_when b m s (Q : unit -> semaphore -> Prop) E C :
  (b = true -> gwp m s Q E C) -> (b = false -> Q tt s) -> gwp (when b m) s Q E C.
Proof. unfold when. destruct b; intros H1 H2; [apply H1 | apply H2]; reflexivity. Qed.

Lemma gwp_permit_ref id s (Q : permit -> semaphore -> Prop) E C :
  (forall p, permits s !! id = Some p -> Q p s) -> C null_dereference ->
  gwp (permit_ref id) s Q E C.
Proof.
  unfold gwp, permit_ref. intros H1 H2. destruct (permits s !! id); [apply H1; reflexivity|exact H2].
Qed.

Lemma gwp_permit_update id f s (Q : unit -> semaphore -> Prop) E C :
  (forall p, permits s !! id = Some p -> Q tt (set_permits (<[id := f p]> (permits s)) s)) ->
  C null_dereference ->
  gwp (permit_update id f) s Q E C.
Proof.
  unfold gwp, permit_update, permit_ref. munfold. intros H1 H2.
  destruct (permits s !! id); [apply H1; reflexivity|exact H2].
Qed.

(** One step through the code. *)
Ltac gstep :=
  lazymatch goal with
  | |- gwp (mbind _ _) _ _ _ _ => apply gwp_bind
  | |- gwp (mret _) _ _ _ _ => apply gwp_ret
  | |- gwp get_sem _ _ _ _ => apply gwp_get_sem
  | |- gwp (modify _) _ _ _ _ => apply gwp_modify
  | |- gwp (modify_stats _) _ _ _ _ => apply gwp_modify_stats
  | |- gwp (permit_ref _) _ _ _ _ =>
      apply gwp_permit_ref; [intros ? ?|try exact Logic.I; try discriminate]
  | |- gwp (permit_update _ _) _ _ _ _ =>
      apply gwp_permit_update; [intros ? ?|try exact Logic.I; try discriminate]
  | |- gwp (throw _) _ _ _ _ => apply gwp_throw
  | |- gwp (abort _) _ _ _ _ => apply gwp_abort; try exact Logic.I; try discriminate
  | |- gwp (assert _) _ _ _ _ =>
      apply gwp_assert; [intros ?|try exact Logic.I; try discriminate]
  | |- gwp (when _ _) _ _ _ _ => apply gwp_when; [intros ?|intros ?]
  | |- gwp (try_catch _ _) _ _ _ _ => apply gwp_try_catch
  | |- gwp (noexcept _) _ _ _ _ => apply gwp_noexcept
  end.

Ltac gsteps := repeat (gstep; simpl).

(** ** Exceptions and [noexcept] *)

Section SafeRules.
Context {A B : Type}.

Lemma safe_ret b (a : A) : safe b (mret a).
Proof. intros s. exact I. Qed.

Lemma safe_bind b (m : M A) (f : A -> M B) :
  safe b m -> (forall a, safe b (f a)) -> safe b (m ≫= f).
Proof.
  intros Hm Hf s. apply gwp_bind.
  eapply gwp_mono; [apply Hm|intros a s' _; apply Hf|auto|auto].
Qed.

Lemma safe_try_catch b (m : M A) h :
  safe true m -> (forall e, safe b (h e)) -> safe b (try_catch m h).
Proof.
  intros Hm Hh s. apply gwp_try_catch.
  eapply gwp_mono; [apply Hm|auto|intros e s' _; apply Hh|auto].
Qed.

Lemma safe_noexcept b (m : M A) : safe false m -> safe b (noexcept m).
Proof.
  intros Hm s. apply gwp_noexcept. eapply gwp_mono; [apply Hm| | |]; auto; discriminate.
Qed.

Lemma safe_throw e : safe true (throw e : M A).
Proof. intros s. reflexivity. Qed.

Lemma safe_abort b c : c <> terminate_called -> safe b (abort c : M A).
Proof. intros H s. exact H. Qed.

End SafeRules.

Lemma safe_get_sem b : safe b get_sem.
Proof. intros s. exact I. Qed.

Lemma safe_modify b f : safe b (modify f).
Proof. intros s. exact I. Qed.

Lemma safe_modify_stats b f : safe b (modify_stats f).
Proof. intros s. exact I. Qed.

Lemma safe_assert b c : safe b (assert c).
Proof. intros s. apply gwp_assert; [auto|discriminate]. Qed.

Lemma safe_when b c m : safe b m -> safe b (when c m).
Proof. intros H. destruct c; [exact H|apply safe_ret]. Qed.

Lemma safe_permit_ref b id : safe b (permit_ref id).
Proof. intros s. apply gwp_permit_ref; [auto|discriminate]. Qed.

Lemma safe_permit_update b id f : safe b (permit_update id f).
Proof. intros s. apply gwp_permit_update; [auto|discriminate]. Qed.

Create HintDb safe_db discriminated.

#[global] Hint Resolve safe_get_sem safe_modify safe_modify_stats safe_assert
  safe_permit_ref safe_permit_update : safe_db.

(** Following the structure of an operation. *)
Ltac safe_auto :=
  repeat first
    [ progress intros
    | solve [auto with safe_db]
    | match goal with
      | |- safe _ (mret _) => apply safe_ret
      | |- safe _ (mbind _ _) => apply safe_bind
      | |- safe _ (when _ _) => apply safe_when
      | |- safe _ (try_catch _ _) => apply safe_try_catch
      | |- safe _ (noexcept _) => apply safe_noexcept
      | |- safe _ (throw _) => apply safe_throw
      | |- safe _ (abort _) => apply safe_abort; discriminate
      | |- safe _ (match ?x with _ => _ end) => destruct x
      | |- safe _ (if ?x then _ else _) => destruct x
      end ].

Section SafeOperations.

Variable maw : M unit.
Hypothesis maw_safe : forall b, safe b maw.
Hint Resolve maw_safe : safe_db.

Lemma safe_sem_on_permit_used b : safe b sem_on_permit_used.
Proof. unfold sem_on_permit_used. safe_auto. Qed.
Lemma safe_sem_on_permit_unused b : safe b (sem_on_permit_unused maw).
Proof. unfold sem_on_permit_unused. safe_auto. Qed.
Lemma safe_sem_on_permit_blocked b : safe b (sem_on_permit_blocked maw).
Proof. unfold sem_on_permit_blocked. safe_auto. Qed.
Lemma safe_sem_on_permit_unblocked b : safe b sem_on_permit_unblocked.
Proof. unfold sem_on_permit_unblocked. safe_auto. Qed.
Hint Resolve safe_sem_on_permit_used safe_sem_on_permit_unused
  safe_sem_on_permit_blocked safe_sem_on_permit_unblocked : safe_db.

Lemma safe_on_permit_used b id : safe b (on_permit_used id).
Proof. unfold on_permit_used. safe_auto. Qed.
Lemma safe_on_permit_unused b id : safe b (on_permit_unused maw id).
Proof. unfold on_permit_unused. safe_auto. Qed.
Lemma safe_on_permit_blocked b id : safe b (on_permit_blocked maw id).
Proof. unfold on_permit_blocked. safe_auto. Qed.
Lemma safe_on_permit_unblocked b id : safe b (on_permit_unblocked id).
Proof. unfold on_permit_unblocked. safe_auto. Qed.
Hint Resolve safe_on_permit_used safe_on_permit_unused
  safe_on_permit_blocked safe_on_permit_unblocked : safe_db.

Lemma safe_on_permit_active b id : safe b (on_permit_active maw id).
Proof. unfold on_permit_active. safe_auto. Qed.
Lemma safe_on_permit_inactive b id st : safe b (on_permit_inactive maw id st).
Proof. unfold on_permit_inactive. safe_auto. Qed.
Hint Resolve safe_on_permit_active safe_on_permit_inactive : safe_db.

Lemma safe_sem_consume id r : safe true (sem_consume id r).
Proof. unfold sem_consume, on_oom_kill. safe_auto. Qed.
Lemma safe_sem_signal b r : safe b (sem_signal maw r).
Proof. unfold sem_signal. safe_auto. Qed.
Hint Resolve safe_sem_consume safe_sem_signal : safe_db.

Lemma safe_impl_consume id r : safe true (impl_consume id r).
Proof. unfold impl_consume. safe_auto. Qed.
Lemma safe_impl_signal b id r : safe b (impl_signal maw id r).
Proof. unfold impl_signal. safe_auto. Qed.
Hint Resolve safe_impl_consume safe_impl_signal : safe_db.

Lemma safe_on_admission id : safe true (on_admission maw id).
Proof. unfold on_admission. safe_auto. Qed.
Lemma safe_on_granted_memory id : safe true (on_granted_memory maw id).
Proof. unfold on_granted_memory. safe_auto. Qed.
Lemma safe_on_evicted b id : safe b (on_evicted maw id).
Proof. unfold on_evicted. safe_auto. Qed.
Lemma safe_on_register_as_inactive b id : safe b (on_register_as_inactive maw id).
Proof. unfold on_register_as_inactive. safe_auto. Qed.
Lemma safe_on_unregister_as_inactive b id : safe b (on_unregister_as_inactive maw id).
Proof. unfold on_unregister_as_inactive. safe_auto. Qed.
Hint Resolve safe_on_admission safe_on_granted_memory safe_on_evicted
  safe_on_register_as_inactive safe_on_unregister_as_inactive : safe_db.

Lemma safe_mark_used b id : safe b (mark_used maw id).
Proof. unfold mark_used. safe_auto. Qed.
Lemma safe_mark_unused b id : safe b (mark_unused maw id).
Proof. unfold mark_unused. safe_auto. Qed.
Lemma safe_mark_blocked b id : safe b (mark_blocked maw id).
Proof. unfold mark_blocked. safe_auto. Qed.
Lemma safe_mark_unblocked b id : safe b (mark_unblocked id).
Proof. unfold mark_unblocked. safe_auto. Qed.

Lemma safe_release_base_resources b id : safe b (release_base_resources maw id).
Proof. unfold release_base_resources. safe_auto. Qed.

Lemma safe_destroy b id : safe b (destroy maw id).
Proof. unfold destroy, on_permit_destroyed. safe_auto. Qed.

Lemma safe_admit_front b x : safe b (admit_front maw x).
Proof. unfold admit_front, ready_push, settle. safe_auto. Qed.

Lemma safe_detach_inactive_reader b ir reason : safe b (detach_inactive_reader maw ir reason).
Proof. unfold detach_inactive_reader, do_detach_inactive_reader. safe_auto. Qed.
Hint Resolve safe_detach_inactive_reader : safe_db.

Lemma safe_evict b ir reason : safe b (evict maw ir reason).
Proof. unfold evict, close_reader. safe_auto. Qed.

Lemma safe_evict_readers_in_background b : safe b (evict_readers_in_background maw).
Proof. unfold evict_readers_in_background, evict_readers_step. safe_auto. Qed.

Lemma safe_register_inactive_read b alloc r : safe b (register_inactive_read maw alloc r).
Proof. unfold register_inactive_read, fresh, close_reader. safe_auto. Qed.

End SafeOperations.

#[global] Hint Resolve safe_sem_on_permit_used safe_sem_on_permit_unused
  safe_sem_on_permit_blocked safe_sem_on_permit_unblocked
  safe_on_permit_used safe_on_permit_unused safe_on_permit_blocked safe_on_permit_unblocked
  safe_on_permit_active safe_on_permit_inactive safe_sem_consume safe_sem_signal
  safe_impl_consume safe_impl_signal safe_on_admission safe_on_granted_memory safe_on_evicted
  safe_on_register_as_inactive safe_on_unregister_as_inactive
  safe_mark_used safe_mark_unused safe_mark_blocked safe_mark_unblocked
  safe_release_base_resources safe_destroy safe_admit_front safe_detach_inactive_reader
  safe_evict safe_evict_readers_in_background safe_register_inactive_read : safe_db.

Lemma maybe_admit_waiters_safe fuel : forall b, safe b (maybe_admit_waiters fuel).
Proof.
  induction fuel as [|n IH]; intros b.
  - simpl. apply safe_abort. discriminate.
  - cbn [maybe_admit_waiters]. apply safe_noexcept. safe_auto.
Qed.

(** ** Invariants *)

Section KeepsRules.
Context {A B : Type}.
Variable I : semaphore -> Prop.

Lemma keeps_ret (a : A) : keeps I (mret a).
Proof. intros s H. exact H. Qed.

Lemma keeps_bind (m : M A) (f : A -> M B) :
  keeps I m -> (forall a, keeps I (f a)) -> keeps I (m ≫= f).
Proof.
  intros Hm Hf s H. apply gwp_bind.
  eapply gwp_mono; [apply Hm; exact H|intros a s' H'; apply Hf; exact H'|auto|auto].
Qed.

Lemma keeps_try_catch (m : M A) h :
  keeps I m -> (forall e, keeps I (h e)) -> keeps I (try_catch m h).
Proof.
  intros Hm Hh s H. apply gwp_try_catch.
  eapply gwp_mono; [apply Hm; exact H|auto|intros e s' H'; apply Hh; exact H'|auto].
Qed.

Lemma keeps_noexcept (m : M A) : keeps I m -> keeps I (noexcept m).
Proof.
  intros Hm s H. apply gwp_noexcept. eapply gwp_mono; [apply Hm; exact H| | |]; auto.
Qed.

Lemma keeps_throw e : keeps I (throw e : M A).
Proof. intros s H. exact H. Qed.

Lemma keeps_abort c : keeps I (abort c : M A).
Proof. intros s H. exact Logic.I. Qed.

End KeepsRules.

Section KeepsPrimitives.
Variable I : semaphore -> Prop.

Lemma keeps_get_sem : keeps I get_sem.
Proof. intros s H. exact H. Qed.

Lemma keeps_modify f : (forall s, I s -> I (f s)) -> keeps I (modify f).
Proof. intros Hf s H. apply Hf. exact H. Qed.

Lemma keeps_modify_stats f :
  (forall s, I s -> I (set_sem_stats (f (sem_stats s)) s)) -> keeps I (modify_stats f).
Proof. intros Hf s H. apply Hf. exact H. Qed.

Lemma keeps_assert c : keeps I (assert c).
Proof. intros s H. apply gwp_assert; auto. Qed.

Lemma keeps_when c m : keeps I m -> keeps I (when c m).
Proof. intros H. destruct c; [exact H|apply keeps_ret]. Qed.

Lemma keeps_permit_ref id : keeps I (permit_ref id).
Proof. intros s H. apply gwp_permit_ref; auto. Qed.

Lemma keeps_permit_update id f :
  (forall s p, I s -> permits s !! id = Some p ->
     I (set_permits (<[id := f p]> (permits s)) s)) ->
  keeps I (permit_update id f).
Proof. intros Hf s H. apply gwp_permit_update; auto. Qed.

End KeepsPrimitives.

(** Following the structure of an operation; [side] closes the goals that
    say a field update preserves the invariant. *)
Ltac keeps_auto hints side :=
  repeat first
    [ progress intros
    | solve [hints]
    | match goal with
      | |- keeps _ (mret _) => apply keeps_ret
      | |- keeps _ (mbind _ _) => apply keeps_bind
      | |- keeps _ (when _ _) => apply keeps_when
      | |- keeps _ (try_catch _ _) => apply keeps_try_catch
      | |- keeps _ (noexcept _) => apply keeps_noexcept
      | |- keeps _ (throw _) => apply keeps_throw
      | |- keeps _ (abort _) => apply keeps_abort
      | |- keeps _ get_sem => apply keeps_get_sem
      | |- keeps _ (assert _) => apply keeps_assert
      | |- keeps _ (permit_ref _) => apply keeps_permit_ref
      | |- keeps _ (modify _) => apply keeps_modify; solve [side]
      | |- keeps _ (modify_stats _) => apply keeps_modify_stats; solve [side]
      | |- keeps _ (permit_update _ _) => apply keeps_permit_update; solve [side]
      | |- keeps _ (match ?x with _ => _ end) => destruct x
      | |- keeps _ (if ?x then _ else _) => destruct x
      end ].

Create HintDb keeps_db discriminated.

Section KeepsOperations.

Variable I : semaphore -> Prop.
Variable maw : M unit.

Hypothesis K_stats : forall s st, I s -> I (set_sem_stats st s).
Hypothesis K_permit : forall s id p q,
  I s -> permits s !! id = Some p -> p_resources q = p_resources p ->
  I (set_permits (<[id := q]> (permits s)) s).
Hypothesis K_blessed : forall s b, I s -> I (set_blessed_permit b s).
Hypothesis K_wait : forall s w, I s -> I (set_wait_list w s).
Hypothesis K_ready : forall s l, I s -> I (set_ready_list l s).
Hypothesis K_inactive : forall s l, I s -> I (set_inactive_list l s).
Hypothesis K_closed : forall s l, I s -> I (set_closed_readers l s).
Hypothesis K_settled : forall s l, I s -> I (set_settled l s).
Hypothesis K_evicting : forall s b, I s -> I (set_evicting b s).
Hypothesis K_next : forall s n, (next_id s <= n)%nat -> I s -> I (set_next_id n s).
Hypothesis K_consume : forall id r, keeps I (impl_consume id r).
Hypothesis K_signal : forall id r, keeps I (impl_signal maw id r).
Hypothesis K_maw : keeps I maw.

Ltac side :=
  intros; simpl;
  repeat first
    [ assumption
    | apply K_stats | apply K_blessed | apply K_wait | apply K_ready | apply K_inactive
    | apply K_closed | apply K_settled | apply K_evicting
    | apply K_next; [simpl; lia|]
    | eapply K_permit; [ | eassumption | reflexivity]
    | match goal with |- I (if ?c then _ else _) => destruct c end ].

Ltac hints := auto with keeps_db.

Lemma keeps_sem_on_permit_used : keeps I sem_on_permit_used.
Proof. unfold sem_on_permit_used. keeps_auto hints side. Qed.
Lemma keeps_sem_on_permit_unused : keeps I (sem_on_permit_unused maw).
Proof. unfold sem_on_permit_unused. keeps_auto hints side. Qed.
Lemma keeps_sem_on_permit_blocked : keeps I (sem_on_permit_blocked maw).
Proof. unfold sem_on_permit_blocked. keeps_auto hints side. Qed.
Lemma keeps_sem_on_permit_unblocked : keeps I sem_on_permit_unblocked.
Proof. unfold sem_on_permit_unblocked. keeps_auto hints side. Qed.
Hint Resolve keeps_sem_on_permit_used keeps_sem_on_permit_unused
  keeps_sem_on_permit_blocked keeps_sem_on_permit_unblocked K_consume K_signal K_maw : keeps_db.

Lemma keeps_on_permit_used id : keeps I (on_permit_used id).
Proof. unfold on_permit_used. keeps_auto hints side. Qed.
Lemma keeps_on_permit_unused id : keeps I (on_permit_unused maw id).
Proof. unfold on_permit_unused. keeps_auto hints side. Qed.
Lemma keeps_on_permit_blocked id : keeps I (on_permit_blocked maw id).
Proof. unfold on_permit_blocked. keeps_auto hints side. Qed.
Lemma keeps_on_permit_unblocked id : keeps I (on_permit_unblocked id).
Proof. unfold on_permit_unblocked. keeps_auto hints side. Qed.
Hint Resolve keeps_on_permit_used keeps_on_permit_unused
  keeps_on_permit_blocked keeps_on_permit_unblocked : keeps_db.

Lemma keeps_on_permit_active id : keeps I (on_permit_active maw id).
Proof. unfold on_permit_active. keeps_auto hints side. Qed.
Lemma keeps_on_permit_inactive id st : keeps I (on_permit_inactive maw id st).
Proof. unfold on_permit_inactive. keeps_auto hints side. Qed.
Hint Resolve keeps_on_permit_active keeps_on_permit_inactive : keeps_db.

Lemma keeps_on_admission id : keeps I (on_admission maw id).
Proof. unfold on_admission. keeps_auto hints side. Qed.
Lemma keeps_on_granted_memory id : keeps I (on_granted_memory maw id).
Proof. unfold on_granted_memory. keeps_auto hints side. Qed.
Lemma keeps_on_evicted id : keeps I (on_evicted maw id).
Proof. unfold on_evicted. keeps_auto hints side. Qed.
Lemma keeps_on_register_as_inactive id : keeps I (on_register_as_inactive maw id).
Proof. unfold on_register_as_inactive. keeps_auto hints side. Qed.
Lemma keeps_on_unregister_as_inactive id : keeps I (on_unregister_as_inactive maw id).
Proof. unfold on_unregister_as_inactive. keeps_auto hints side. Qed.
Hint Resolve keeps_on_admission keeps_on_granted_memory keeps_on_evicted
  keeps_on_register_as_inactive keeps_on_unregister_as_inactive : keeps_db.

Lemma keeps_mark_used id : keeps I (mark_used maw id).
Proof. unfold mark_used. keeps_auto hints side. Qed.
Lemma keeps_mark_unused id : keeps I (mark_unused maw id).
Proof. unfold mark_unused. keeps_auto hints side. Qed.
Lemma keeps_mark_blocked id : keeps I (mark_blocked maw id).
Proof. unfold mark_blocked. keeps_auto hints side. Qed.
Lemma keeps_mark_unblocked id : keeps I (mark_unblocked id).
Proof. unfold mark_unblocked. keeps_auto hints side. Qed.

Lemma keeps_fresh : keeps I fresh.
Proof.
  intros s H. unfold fresh. gsteps. apply K_next; [simpl; lia|exact H].
Qed.
Lemma keeps_check_queue_size : keeps I check_queue_size.
Proof. unfold check_queue_size. keeps_auto hints side. Qed.
Lemma keeps_get_memory_future id : keeps I (get_memory_future id).
Proof. unfold get_memory_future. keeps_auto hints side. Qed.
Hint Resolve keeps_fresh keeps_check_queue_size keeps_get_memory_future : keeps_db.

Lemma keeps_enqueue_waiter id func w : keeps I (enqueue_waiter maw id func w).
Proof.
  unfold enqueue_waiter, on_waiting_for_admission, on_waiting_for_memory.
  keeps_auto hints side.
Qed.
Hint Resolve keeps_enqueue_waiter : keeps_db.

Lemma keeps_ready_push e : keeps I (ready_push e).
Proof. unfold ready_push. keeps_auto hints side. Qed.
Lemma keeps_settle pr r : keeps I (settle pr r).
Proof. unfold settle. keeps_auto hints side. Qed.
Lemma keeps_close_reader r : keeps I (close_reader r).
Proof. unfold close_reader. keeps_auto hints side. Qed.
Hint Resolve keeps_ready_push keeps_settle keeps_close_reader : keeps_db.

Lemma keeps_with_ready_permit id f : keeps I (with_ready_permit id f).
Proof. unfold with_ready_permit. keeps_auto hints side. Qed.
Hint Resolve keeps_with_ready_permit : keeps_db.

Lemma keeps_admit_front x : keeps I (admit_front maw x).
Proof. unfold admit_front. keeps_auto hints side. Qed.

Lemma keeps_detach_inactive_reader ir reason :
  keeps I (detach_inactive_reader maw ir reason).
Proof. unfold detach_inactive_reader, do_detach_inactive_reader. keeps_auto hints side. Qed.
Hint Resolve keeps_detach_inactive_reader : keeps_db.

Lemma keeps_evict ir reason : keeps I (evict maw ir reason).
Proof. unfold evict. keeps_auto hints side. Qed.
Hint Resolve keeps_evict : keeps_db.

Lemma keeps_try_evict_one_inactive_read reason :
  keeps I (try_evict_one_inactive_read maw reason).
Proof. unfold try_evict_one_inactive_read. keeps_auto hints side. Qed.

Lemma keeps_evict_readers_in_background : keeps I (evict_readers_in_background maw).
Proof. unfold evict_readers_in_background, evict_readers_step. keeps_auto hints side. Qed.
Hint Resolve keeps_evict_readers_in_background : keeps_db.

Lemma keeps_register_inactive_read alloc r : keeps I (register_inactive_read maw alloc r).
Proof. unfold register_inactive_read. keeps_auto hints side. Qed.

Lemma keeps_unregister_inactive_read h : keeps I (unregister_inactive_read maw h).
Proof. unfold unregister_inactive_read. keeps_auto hints side. Qed.

Lemma keeps_request_memory id n : keeps I (request_memory maw id n).
Proof. unfold request_memory. keeps_auto hints side. Qed.
Hint Resolve keeps_request_memory : keeps_db.

Lemma keeps_impl_request_memory id n : keeps I (impl_request_memory maw id n).
Proof. unfold impl_request_memory. keeps_auto hints side. Qed.

Lemma keeps_do_wait_admission id func : keeps I (do_wait_admission maw id func).
Proof. unfold do_wait_admission. keeps_auto hints side. Qed.

Lemma keeps_resource_units_consume id r : keeps I (resource_units_consume id r).
Proof. unfold resource_units_consume. keeps_auto hints side. Qed.

Lemma keeps_resource_units_reset u r : keeps I (resource_units_reset maw u r).
Proof. unfold resource_units_reset. keeps_auto hints side. Qed.
Hint Resolve keeps_resource_units_reset : keeps_db.

Lemma keeps_resource_units_destroy u : keeps I (resource_units_destroy maw u).
Proof. unfold resource_units_destroy. keeps_auto hints side. Qed.

End KeepsOperations.

(** ** Well-formed semaphores

    The frame relations are preorders, and the permit-level operations
    preserve well-formedness. *)

Lemma same_shape_refl s : same_shape s s.
Proof. constructor; reflexivity. Qed.

Lemma same_shape_trans s1 s2 s3 : same_shape s1 s2 -> same_shape s2 s3 -> same_shape s1 s3.
Proof. intros [] []. constructor; congruence. Qed.

Lemma touches_only_refl id s : touches_only id s s.
Proof. split; [apply same_shape_refl | reflexivity]. Qed.

Lemma touches_only_trans id s1 s2 s3 :
  touches_only id s1 s2 -> touches_only id s2 s3 -> touches_only id s1 s3.
Proof.
  intros [H1 F1] [H2 F2]. split; [eapply same_shape_trans; eassumption|].
  intros j Hj. rewrite F2, F1 by exact Hj. reflexivity.
Qed.

(** Closing a goal about an explicit state built from [s] by field
    updates. *)
Ltac shape :=
  repeat match goal with
  | |- touches_only _ _ _ => split
  | |- same_shape _ _ => constructor; simpl; try reflexivity
  | |- forall j, j <> _ -> _ => let j := fresh "j" in let Hj := fresh "Hj" in
      intros j Hj; simpl; rewrite ?lookup_insert_ne by congruence; try reflexivity
  end.

Ltac solve_lookup :=
  simpl;
  first [ eassumption
        | rewrite lookup_insert_eq; reflexivity
        | rewrite lookup_insert_ne by congruence; eassumption ].

(** Running straight-line code on a symbolic state. *)
Ltac mrun :=
  repeat first
    [ progress simpl
    | rewrite lookup_insert_eq
    | match goal with H : permits _ !! _ = Some _ |- _ => rewrite H end ].

Ltac wp_step :=
  lazymatch goal with
  | |- wp (mbind _ _) _ _ _ => apply wp_bind
  | |- wp (mret _) _ _ _ => apply wp_ret
  | |- wp get_sem _ _ _ => apply wp_get_sem
  | |- wp (modify _) _ _ _ => apply wp_modify
  | |- wp (modify_stats _) _ _ _ => apply wp_modify_stats
  | |- wp (permit_ref _) _ _ _ => eapply wp_permit_ref; [solve_lookup|]
  | |- wp (permit_update _ _) _ _ _ => eapply wp_permit_update; [solve_lookup|]
  | |- wp (throw _) _ _ _ => apply wp_throw
  end.


Lemma on_permit_active_run maw id p s :
  permits s !! id = Some p ->
  p_used_branches p = 0 \/ p_blocked_branches p = 0 ->
  on_permit_active maw id s
  = Ok tt (set_permits (<[id := activated p]> (permits s)) (count_used p s)).
Proof.
  intros Hp Hb. unfold on_permit_active, on_permit_used, sem_on_permit_used, activated, count_used.
  munfold. rewrite Hp. destruct (p_used_branches p =? 0) eqn:Hu; mrun.
  - reflexivity.
  - assert (Hb0 : p_blocked_branches p = 0).
    { destruct Hb as [Hb|Hb]; [|exact Hb]. apply Z.eqb_neq in Hu. contradiction. }
    rewrite Hb0. mrun. rewrite insert_insert_eq. reflexivity.
Qed.

Lemma activated_state p :
  p_state (activated p) = active_unused \/ p_state (activated p) = active_used.
Proof. unfold activated. destruct (p_used_branches p =? 0); simpl; auto. Qed.

Lemma wp_on_permit_active maw id p s (Q : unit -> semaphore -> Prop) E :
  permits s !! id = Some p ->
  p_used_branches p = 0 \/ p_blocked_branches p = 0 ->
  Q tt (set_permits (<[id := activated p]> (permits s)) (count_used p s)) ->
  wp (on_permit_active maw id) s Q E.
Proof.
  intros Hp Hb HQ. unfold wp. rewrite (on_permit_active_run maw id p s Hp Hb). exact HQ.
Qed.

Lemma wp_impl_consume id p r s (Q : unit -> semaphore -> Prop) E :
  permits s !! id = Some p ->
  (kill_limit_reached s r = true -> E bad_alloc (oom_killed id p s)) ->
  (kill_limit_reached s r = false -> Q tt (charged id p r s)) ->
  wp (impl_consume id r) s Q E.
Proof.
  intros Hp HE HQ. unfold wp. rewrite (impl_consume_run id p r s Hp).
  destruct (kill_limit_reached s r); auto.
Qed.

Lemma oom_killed_touches id p s :
  permits s !! id = Some p ->
  touches_only id s (oom_killed id p s)
  /\ permits (oom_killed id p s) !! id = Some (set_p_oom_kills (incr64 (p_oom_kills p)) p).
Proof.
  intros Hp. unfold oom_killed. destruct (p_oom_kills p =? 0); split; shape;
    simpl; apply lookup_insert_eq.
Qed.

(** The body of the admission loop on a well-formed waiter: only the
    waiter's permit changes, it ends up active, and the exception of a
    failed charge is delivered to the waiter's promise. *)
Lemma wp_admit_front maw x p s :
  permits s !! e_permit x = Some p ->
  p_state p = waiting_for_admission \/ p_state p = waiting_for_memory ->
  p_used_branches p = 0 \/ p_blocked_branches p = 0 ->
  wp (admit_front maw x) s
     (fun _ s' => touches_only (e_permit x) s s'
                  /\ exists p', permits s' !! e_permit x = Some p' /\ is_active p')
     no_throw.
Proof.
  intros Hp Hst Hb. unfold admit_front. apply wp_try_catch.
  pose proof (activated_state p) as Hact.
  assert (Hfin : forall s' p', touches_only (e_permit x) s s' ->
            permits s' !! e_permit x = Some p' -> is_active p' ->
            wp (match e_func x with
                | Some _ => ready_push x
                | None => settle (e_pr x) None
                end) s'
              (fun _ s'' => touches_only (e_permit x) s s''
                 /\ exists p'', permits s'' !! e_permit x = Some p'' /\ is_active p'')
              (fun e s'' => wp (settle (e_pr x) (Some e)) s''
                 (fun _ s3 => touches_only (e_permit x) s s3
                    /\ exists p'', permits s3 !! e_permit x = Some p'' /\ is_active p'')
                 no_throw)).
  { intros s' p' Ht Hp' Ha. destruct (e_func x); unfold ready_push, settle, wp, modify.
    - split.
      + eapply touches_only_trans; [exact Ht|].
        destruct (ready_size s' <? max_queue_length s'); shape.
      + exists p'. split; [|exact Ha].
        destruct (ready_size s' <? max_queue_length s'); simpl; exact Hp'.
    - split; [eapply touches_only_trans; [exact Ht|]; shape|].
      exists p'. split; [exact Hp'|exact Ha]. }
  assert (Hexn : forall s' p', touches_only (e_permit x) s s' ->
            permits s' !! e_permit x = Some p' -> is_active p' ->
            wp (settle (e_pr x) (Some bad_alloc)) s'
              (fun _ s3 => touches_only (e_permit x) s s3
                 /\ exists p'', permits s3 !! e_permit x = Some p'' /\ is_active p'')
              no_throw).
  { intros s' p' Ht Hp' Ha. unfold settle, wp, modify. split.
    - eapply touches_only_trans; [exact Ht|]; shape.
    - exists p'. split; [exact Hp'|exact Ha]. }
  wp_step. wp_step. 
  destruct (state_eqb (p_state p) waiting_for_memory) eqn:Hwm.
  - (* memory is granted *)
    wp_step. wp_step. wp_step. simpl. unfold on_granted_memory.
    wp_step. wp_step. simpl. rewrite Hwm.
    apply wp_bind. apply wp_when; [intros _|discriminate].
    eapply wp_on_permit_active; [solve_lookup|exact Hb|].
    wp_step. wp_step. simpl. wp_step. wp_step. simpl.
    eapply wp_impl_consume; [solve_lookup|intros Hk|intros Hk].
    + match goal with |- wp _ (oom_killed ?i ?q ?t) _ _ =>
        destruct (oom_killed_touches i q t) as [Ht Hl]; [solve_lookup|] end.
      eapply Hexn; [|exact Hl|].
      * eapply touches_only_trans; [|exact Ht].
        unfold count_used. destruct (p_used_branches p =? 0); shape.
      * unfold is_active. simpl. exact Hact.
    + eapply Hfin.
      * unfold charged, count_used. destruct (p_used_branches p =? 0); shape.
      * unfold charged. simpl. apply lookup_insert_eq.
      * unfold is_active. simpl. exact Hact.
  - (* the permit is admitted *)
    wp_step. wp_step. unfold on_admission. wp_step. wp_step. simpl. wp_step.
    apply wp_assert.
    { destruct Hst as [Hs|Hs]; rewrite Hs; reflexivity. }
    wp_step. eapply wp_on_permit_active; [solve_lookup|exact Hb|].
    wp_step. wp_step. simpl. wp_step.
    eapply wp_impl_consume; [solve_lookup|intros Hk|intros Hk].
    + match goal with |- wp _ (oom_killed ?i ?q ?t) _ _ =>
        destruct (oom_killed_touches i q t) as [Ht Hl]; [solve_lookup|] end.
      eapply Hexn; [|exact Hl|].
      * eapply touches_only_trans; [|exact Ht].
        unfold count_used. destruct (p_used_branches p =? 0); shape.
      * unfold is_active. simpl. exact Hact.
    + wp_step. simpl. wp_step. simpl. eapply Hfin.
      * unfold charged, count_used. destruct (p_used_branches p =? 0); shape.
      * simpl. apply lookup_insert_eq.
      * unfold is_active. simpl. exact Hact.
Qed.

(** *** Frame lemmas for well-formed semaphores *)

Lemma wait_front_head s : wait_front (wait_list s) = head (waiters s).
Proof. unfold wait_front, waiters. destruct (memory_queue (wait_list s)); reflexivity. Qed.

Lemma waiters_pop s :
  waiters (set_wait_list (wait_pop_front (wait_list s)) s) = drop 1 (waiters s).
Proof.
  unfold waiters, wait_pop_front. simpl.
  destruct (memory_queue (wait_list s)) as [|e m]; simpl.
  - destruct (admission_queue (wait_list s)); reflexivity.
  - reflexivity.
Qed.

Lemma wait_empty_waiters s : wait_empty (wait_list s) = true <-> waiters s = [].
Proof.
  unfold wait_empty, waiters.
  destruct (admission_queue (wait_list s)), (memory_queue (wait_list s)); simpl;
    split; congruence.
Qed.

Lemma wait_size_waiters s : wait_size (wait_list s) = Z.of_nat (length (waiters s)).
Proof. unfold wait_size, waiters. rewrite length_app. lia. Qed.

Lemma wf_sub s s' k k' :
  wf s ->
  waiters s' = drop k (waiters s) ->
  inactive_list s' = drop k' (inactive_list s) ->
  next_id s' = next_id s ->
  (forall j, j ∈ waiting_permits s' \/ j ∈ inactive_permits s' ->
     permits s' !! j = permits s !! j) ->
  wf s'.
Proof.
  intros [Hw Hwn Hi Hin Hf] Hwait Hinact Hnext Hsame.
  assert (Hwp : waiting_permits s' = drop k (waiting_permits s)).
  { unfold waiting_permits. rewrite Hwait. apply fmap_drop. }
  assert (Hip : inactive_permits s' = drop k' (inactive_permits s)).
  { unfold inactive_permits. rewrite Hinact. apply fmap_drop. }
  constructor.
  - apply Forall_forall. intros j Hj.
    assert (Hj0 : j ∈ waiting_permits s) by (rewrite Hwp in Hj; eapply subseteq_drop; exact Hj).
    rewrite Forall_forall in Hw. destruct (Hw j Hj0) as (p & Hp & Hst & Hb).
    exists p. rewrite Hsame by (left; exact Hj). auto.
  - rewrite Hwp. eapply sublist_NoDup; [exact Hwn|apply sublist_drop].
  - apply Forall_forall. intros j Hj.
    assert (Hj0 : j ∈ inactive_permits s) by (rewrite Hip in Hj; eapply subseteq_drop; exact Hj).
    rewrite Forall_forall in Hi. destruct (Hi j Hj0) as (p & Hp & Hst).
    exists p. rewrite Hsame by (right; exact Hj). auto.
  - rewrite Hip. eapply sublist_NoDup; [exact Hin|apply sublist_drop].
  - rewrite Hinact, Hnext. apply Forall_forall. intros ir Hir.
    rewrite Forall_forall in Hf. apply Hf. eapply subseteq_drop. exact Hir.
Qed.

Lemma admitted_refl s : wf s -> admitted s s.
Proof.
  intros H. constructor; try reflexivity; try exact H; auto.
  - exists 0%nat. reflexivity.
  - exists 0%nat. reflexivity.
Qed.

Lemma admitted_unreferenced s s' id : admitted s s' -> unreferenced s id -> unreferenced s' id.
Proof.
  intros H [Hw Hi]. destruct (adm_waiters _ _ H) as [k Hk].
  destruct (adm_inactive _ _ H) as [k' Hk']. split.
  - intros Hin. apply Hw. unfold waiting_permits in *. rewrite Hk, fmap_drop in Hin.
    eapply subseteq_drop. exact Hin.
  - intros Hin. apply Hi. unfold inactive_permits in *. rewrite Hk', fmap_drop in Hin.
    eapply subseteq_drop. exact Hin.
Qed.

Lemma admitted_trans s1 s2 s3 : admitted s1 s2 -> admitted s2 s3 -> admitted s1 s3.
Proof.
  intros H1 H2. constructor.
  - exact (adm_wf _ _ H2).
  - destruct (adm_waiters _ _ H1) as [k1 E1]. destruct (adm_waiters _ _ H2) as [k2 E2].
    exists (k1 + k2)%nat. rewrite E2, E1. apply drop_drop.
  - destruct (adm_inactive _ _ H1) as [k1 E1]. destruct (adm_inactive _ _ H2) as [k2 E2].
    exists (k1 + k2)%nat. rewrite E2, E1. apply drop_drop.
  - intros id Hid. rewrite (adm_frame _ _ H2) by (eapply admitted_unreferenced; eassumption).
    apply (adm_frame _ _ H1). exact Hid.
  - intros He. apply (adm_evicting _ _ H2). apply (adm_evicting _ _ H1). exact He.
  - rewrite (adm_this _ _ H2). apply (adm_this _ _ H1).
  - rewrite (adm_next_id _ _ H2). apply (adm_next_id _ _ H1).
  - rewrite (adm_initial _ _ H2). apply (adm_initial _ _ H1).
  - rewrite (adm_max_queue _ _ H2). apply (adm_max_queue _ _ H1).
  - rewrite (adm_shed _ _ H2). apply (adm_shed _ _ H1).
Qed.

(** A change that touches a single permit which no queue of the target
    state refers to, and which was referenced when the run started (or is
    irrelevant to the frame because the caller owns it). *)
Lemma admitted_touch s s3 s5 y :
  admitted s s3 -> touches_only y s3 s5 -> unreferenced s3 y -> ~ unreferenced s y ->
  admitted s s5.
Proof.
  intros H [Hs Hf] Hy Hny. destruct Hs. constructor.
  - apply (wf_sub s3 s5 0 0 (adm_wf _ _ H)).
    + unfold waiters. rewrite ss_wait0. reflexivity.
    + rewrite ss_inactive0. reflexivity.
    + exact ss_next_id0.
    + intros j Hj. apply Hf. intros ->. destruct Hy as [Hy1 Hy2].
      unfold waiting_permits, waiters, inactive_permits in *.
      rewrite ss_wait0, ss_inactive0 in Hj. tauto.
  - destruct (adm_waiters _ _ H) as [k E]. exists k. unfold waiters in *.
    rewrite ss_wait0. exact E.
  - destruct (adm_inactive _ _ H) as [k E]. exists k. rewrite ss_inactive0. exact E.
  - intros j Hj. rewrite Hf by (intros ->; contradiction). apply (adm_frame _ _ H). exact Hj.
  - intros He. rewrite ss_evicting0. apply (adm_evicting _ _ H). exact He.
  - rewrite ss_this0. apply (adm_this _ _ H).
  - rewrite ss_next_id0. apply (adm_next_id _ _ H).
  - rewrite ss_initial0. apply (adm_initial _ _ H).
  - rewrite ss_max_queue0. apply (adm_max_queue _ _ H).
  - rewrite ss_shed0. apply (adm_shed _ _ H).
Qed.

Lemma waiter_not_inactive s j : waiter_ok s j -> inactive_ok s j -> False.
Proof.
  intros (p & Hp & Hst & _) (q & Hq & Hin). rewrite Hp in Hq. injection Hq as <-.
  destruct Hst as [H|H]; rewrite H in Hin; discriminate.
Qed.

(** *** Eviction *)

Lemma wp_on_evicted maw id p s (Q : unit -> semaphore -> Prop) E :
  permits s !! id = Some p -> p_state p = inactive ->
  (p_base_resources_consumed p = false -> Q tt (evicted_unrefunded id p s)) ->
  (p_base_resources_consumed p = true ->
   wp maw (evicted_refund id p s)
     (fun _ s3 => exists p3, permits s3 !! id = Some p3 /\ Q tt (clear_consumed id p3 s3)) E) ->
  wp (on_evicted maw id) s Q E.
Proof.
  intros Hp Hst Hu Hc. unfold on_evicted.
  wp_step. wp_step. simpl. wp_step. apply wp_assert; [rewrite Hst; reflexivity|].
  wp_step. wp_step. simpl. wp_step. wp_step. simpl.
  apply wp_when; simpl; intros Hcons.
  - unfold impl_signal, sem_signal. wp_step. wp_step. wp_step. simpl. wp_step. wp_step.
    simpl. rewrite insert_insert_eq.
    eapply wp_mono; [apply (Hc Hcons)| |auto].
    intros _ s3 (p3 & Hp3 & HQ). simpl.
    eapply wp_permit_update; [exact Hp3|]. exact HQ.
  - apply (Hu Hcons).
Qed.

Lemma unlink_front ir l : unlink (ir_ptr ir) (ir :: l) = l.
Proof. simpl. rewrite Nat.eqb_refl. reflexivity. Qed.

(** Detaching the front inactive read of a well-formed semaphore, given
    that the re-entrant admission behaves on the states it is called in. *)
Lemma wp_detach_front maw s ir rest reason :
  wf s -> inactive_list s = ir :: rest ->
  (forall s1, wf s1 -> evicting s1 = evicting s ->
     length (waiters s1) = length (waiters s) ->
     wp maw s1 (fun _ s2 => admitted s1 s2) no_throw) ->
  wp (detach_inactive_reader maw ir reason) s
    (fun r s' => r = ir_reader ir /\ admitted s s') no_throw.
Proof.
  intros Hwf Hl Hmaw. pose proof Hwf as [Hw Hwn Hi Hin Hfr].
  set (y := rd_permit (ir_reader ir)).
  assert (Hyin : y ∈ inactive_permits s).
  { unfold inactive_permits. rewrite Hl. simpl. left. }
  assert (Hyok : inactive_ok s y) by (rewrite Forall_forall in Hi; apply Hi; exact Hyin).
  destruct Hyok as (p & Hp & Hst).
  assert (Hynw : y ∉ waiting_permits s).
  { intros Hyw. rewrite Forall_forall in Hw. eapply (waiter_not_inactive s y); [apply Hw; exact Hyw|].
    exists p. auto. }
  assert (Hynr : y ∉ (fun ir => rd_permit (ir_reader ir)) <$> rest).
  { unfold inactive_permits in Hin. rewrite Hl in Hin. simpl in Hin.
    apply NoDup_cons_1_1 in Hin. exact Hin. }
  assert (Hnref : ~ unreferenced s y) by (intros [_ H]; contradiction).
  (* well-formedness of a state that differs from [s] at [y] and has lost [ir] *)
  assert (Hstep : forall s1, waiters s1 = waiters s -> inactive_list s1 = rest ->
            next_id s1 = next_id s ->
            (forall j, j <> y -> permits s1 !! j = permits s !! j) ->
            evicting s1 = evicting s -> sem_this s1 = sem_this s ->
            initial_resources s1 = initial_resources s ->
            max_queue_length s1 = max_queue_length s ->
            total_reads_shed_due_to_overload (sem_stats s1)
              = total_reads_shed_due_to_overload (sem_stats s) ->
            admitted s s1 /\ unreferenced s1 y).
  { intros s1 E1 E2 E3 E4 E5 E6 E7 E8 E9.
    assert (Hu1 : unreferenced s1 y).
    { split; unfold waiting_permits, inactive_permits; rewrite ?E1, ?E2; assumption. }
    split; [|exact Hu1]. constructor; try assumption.
    - apply (wf_sub s s1 0 1 Hwf); [rewrite E1; reflexivity|rewrite E2, Hl; reflexivity|exact E3|].
      intros j Hj. apply E4. intros ->. destruct Hu1. tauto.
    - exists 0%nat. rewrite E1. reflexivity.
    - exists 1%nat. rewrite E2, Hl. reflexivity.
    - intros j Hj. apply E4. intros ->. contradiction.
    - intros He. rewrite E5. exact He. }
  subst y. unfold detach_inactive_reader, do_detach_inactive_reader.
  wp_step. wp_step. wp_step. simpl. wp_step.
  rewrite Hl, unlink_front.
  assert (Hfinish : forall s3, admitted s s3 -> unreferenced s3 (rd_permit (ir_reader ir)) ->
    forall s4, touches_only (rd_permit (ir_reader ir)) s3 s4 ->
    wp (match reason with
        | evict_permit => modify_stats (fun st =>
            set_permit_based_evictions (incr64 (permit_based_evictions st)) st)
        | evict_time => modify_stats (fun st =>
            set_time_based_evictions (incr64 (time_based_evictions st)) st)
        | evict_manual => mret tt
        end ≫= fun _ => modify_stats (fun st =>
                     set_inactive_reads (decr64 (inactive_reads st)) st)) s4
      (fun _ s6 => wp (mret (ir_reader ir)) s6
            (fun r s' => r = ir_reader ir /\ admitted s s') no_throw) no_throw).
  { intros s3 Ha Hu3 s4 Ht.
    destruct reason; unfold wp, mbind, M_bind, modify_stats, modify, mret, M_ret;
      (split; [reflexivity|]);
      (eapply admitted_touch; [exact Ha| |exact Hu3|exact Hnref]);
      (eapply touches_only_trans; [exact Ht|]); shape. }
  eapply wp_on_evicted; [solve_lookup|exact Hst|intros Hcons|intros Hcons].
  - destruct (Hstep (set_inactive_list rest s)) as [Ha Hu]; try reflexivity.
    eapply (Hfinish _ Ha Hu). unfold evicted_unrefunded. shape.
  - destruct (Hstep (evicted_refund (rd_permit (ir_reader ir)) p (set_inactive_list rest s))) as [Ha Hu]; try reflexivity.
    { intros j Hj. simpl. rewrite lookup_insert_ne by congruence. reflexivity. }
    eapply wp_mono; [apply Hmaw| |auto].
    + exact (adm_wf _ _ Ha).
    + reflexivity.
    + reflexivity.
    + intros [] s3 Ha3. simpl.
      assert (Hu3 : unreferenced s3 (rd_permit (ir_reader ir))) by (eapply admitted_unreferenced; eassumption).
      pose proof (adm_frame _ _ Ha3 _ Hu) as Hfr3. simpl in Hfr3.
      rewrite lookup_insert_eq in Hfr3.
      eexists. split; [exact Hfr3|].
      eapply (Hfinish s3 (admitted_trans _ _ _ Ha Ha3) Hu3).
      unfold clear_consumed. shape.
Qed.

Lemma admitted_same s s1 s2 :
  admitted s s1 -> same_shape s1 s2 -> permits s2 = permits s1 -> admitted s s2.
Proof.
  intros H Hs Hp. destruct Hs. constructor.
  - apply (wf_sub s1 s2 0 0 (adm_wf _ _ H)).
    + unfold waiters. rewrite ss_wait0. reflexivity.
    + rewrite ss_inactive0. reflexivity.
    + exact ss_next_id0.
    + intros j _. rewrite Hp. reflexivity.
  - destruct (adm_waiters _ _ H) as [k E]. exists k. unfold waiters in *.
    rewrite ss_wait0. exact E.
  - destruct (adm_inactive _ _ H) as [k E]. exists k. rewrite ss_inactive0. exact E.
  - intros j Hj. rewrite Hp. apply (adm_frame _ _ H). exact Hj.
  - intros He. rewrite ss_evicting0. apply (adm_evicting _ _ H). exact He.
  - rewrite ss_this0. apply (adm_this _ _ H).
  - rewrite ss_next_id0. apply (adm_next_id _ _ H).
  - rewrite ss_initial0. apply (adm_initial _ _ H).
  - rewrite ss_max_queue0. apply (adm_max_queue _ _ H).
  - rewrite ss_shed0. apply (adm_shed _ _ H).
Qed.

Lemma admitted_set_evicting s b :
  wf s -> (evicting s = true -> b = true) -> admitted s (set_evicting b s).
Proof.
  intros H Hb. constructor; try reflexivity; simpl; auto.
  - apply (wf_sub s _ 0 0 H); reflexivity.
  - exists 0%nat. reflexivity.
  - exists 0%nat. reflexivity.
Qed.

Lemma wp_evict_readers_in_background maw s :
  wf s ->
  (evicting s = false ->
   forall s1, wf s1 -> evicting s1 = true ->
     length (waiters s1) = length (waiters s) ->
     wp maw s1 (fun _ s2 => admitted s1 s2) no_throw) ->
  wp (evict_readers_in_background maw) s (fun _ s' => admitted s s') no_throw.
Proof.
  intros Hwf Hmaw. unfold evict_readers_in_background. wp_step. wp_step.
  destruct (evicting s) eqn:Hev.
  - wp_step. apply admitted_refl. exact Hwf.
  - specialize (Hmaw eq_refl). wp_step. wp_step. simpl. wp_step.
    unfold evict_readers_step. wp_step. wp_step. simpl.
    assert (Hoff : admitted s (set_evicting false (set_evicting true s))).
    { apply (admitted_set_evicting s false Hwf). rewrite Hev. discriminate. }
    destruct (wait_empty (wait_list s)).
    { wp_step. wp_step. simpl. wp_step. simpl. wp_step. exact Hoff. }
    destruct (inactive_list s) as [|ir rest] eqn:Hl.
    { wp_step. wp_step. simpl. wp_step. simpl. wp_step. exact Hoff. }
    pose proof (admitted_set_evicting s true Hwf (fun _ => eq_refl)) as Hon.
    wp_step. eapply wp_mono; [eapply (wp_detach_front maw (set_evicting true s) ir rest)| |auto].
    + exact (adm_wf _ _ Hon).
    + exact Hl.
    + intros s1 Hw1 He1 Hlen. apply Hmaw; assumption.
    + intros r s' [-> Ha]. simpl. wp_step. wp_step. simpl. wp_step. simpl. wp_step.
      eapply admitted_same; [eapply admitted_trans; [exact Hon|exact Ha]| |reflexivity].
      constructor; reflexivity.
Qed.

(** *** [maybe_admit_waiters] runs to its end

    On a well-formed semaphore the loop returns once it has enough fuel for
    the waiters: each turn serves one waiter, and a background eviction
    re-enters the loop at most once, with [_evicting] set. *)
Lemma maybe_admit_waiters_wp n : forall s,
  wf s ->
  (length (waiters s) + (if evicting s then 1 else 2) <= n)%nat ->
  wp (maybe_admit_waiters n) s (fun _ s' => admitted s s') no_throw.
Proof.
  induction n as [|n IH]; intros s Hwf Hfuel.
  { destruct (evicting s); lia. }
  simpl maybe_admit_waiters. apply wp_noexcept. wp_step. wp_step.
  rewrite wait_front_head. destruct (waiters s) as [|x rest] eqn:Hws; simpl.
  { wp_step. apply admitted_refl. exact Hwf. }
  pose proof Hwf as [Hw Hwn Hi Hin Hfr].
  assert (Hwp : waiting_permits s = e_permit x :: (e_permit <$> rest)).
  { unfold waiting_permits. rewrite Hws. reflexivity. }
  rewrite Hwp in Hw, Hwn. apply Forall_cons in Hw as [(p & Hp & Hst & Hb) Hw].
  apply NoDup_cons in Hwn as [Hxr Hwn].
  wp_step. wp_step.
  destruct (can_admit_read s p).
  - (* yes: serve the front waiter and loop *)
    wp_step. eapply wp_mono; [apply (wp_admit_front _ x p s Hp Hst Hb)| |auto].
    intros [] s1 ([Hs1 Hf1] & p1 & Hp1 & Hact). simpl. wp_step. wp_step. simpl.
    destruct Hs1.
    assert (Hstep : admitted s (set_wait_list (wait_pop_front (wait_list s1)) s1)).
    { assert (Hwt : waiters (set_wait_list (wait_pop_front (wait_list s1)) s1)
                    = drop 1 (waiters s)).
      { rewrite waiters_pop. unfold waiters. rewrite ss_wait0. reflexivity. }
      assert (Hne : forall j, j ∈ e_permit <$> rest \/ j ∈ inactive_permits s ->
                j <> e_permit x).
      { intros j [Hj|Hj] ->; [contradiction|].
        rewrite Forall_forall in Hi. eapply (waiter_not_inactive s (e_permit x)).
        - exists p. auto.
        - apply Hi. exact Hj. }
      constructor; simpl; try assumption.
      - apply (wf_sub s _ 1 0 Hwf); [exact Hwt|simpl; exact ss_inactive0|exact ss_next_id0|].
        intros j Hj. simpl. apply Hf1. apply Hne.
        unfold waiting_permits, inactive_permits in *. rewrite Hwt, Hws in Hj. simpl in Hj.
        rewrite ss_inactive0 in Hj. rewrite drop_0 in Hj. exact Hj.
      - exists 1%nat. exact Hwt.
      - exists 0%nat. exact ss_inactive0.
      - intros j [Hj1 Hj2]. apply Hf1. intros ->. apply Hj1. rewrite Hwp. left.
      - intros He. rewrite ss_evicting0. exact He. }
    eapply wp_mono; [apply IH| |auto].
    + exact (adm_wf _ _ Hstep).
    + destruct (adm_waiters _ _ Hstep) as [k Hk].
      assert (Hlen : (length (waiters (set_wait_list (wait_pop_front (wait_list s1)) s1))
                      <= length rest)%nat).
      { rewrite waiters_pop. unfold waiters at 1. rewrite ss_wait0. fold (waiters s).
        rewrite Hws. simpl. rewrite drop_0. lia. }
      simpl evicting. rewrite ss_evicting0. simpl in Hfuel. lia.
    + intros [] s2 Ha2. eapply admitted_trans; eassumption.
  - (* no *)
    wp_step. apply admitted_refl. exact Hwf.
  - (* maybe: evict in the background *)
    apply wp_evict_readers_in_background; [exact Hwf|].
    intros Hev s1 Hw1 He1 Hlen. apply IH; [exact Hw1|].
    rewrite He1, Hlen, Hws. rewrite Hev in Hfuel. simpl in *. lia.
Qed.

(** The loop is total on well-formed semaphores: two turns more than there
    are waiters suffice. *)
Theorem maybe_admit_waiters_returns (fuel : nat) (s : semaphore) :
  wf s -> (length (waiters s) + 2 <= fuel)%nat ->
  exists s', maybe_admit_waiters fuel s = Ok tt s' /\ admitted s s'.
Proof.
  intros Hwf Hfuel.
  destruct (wp_returns (maybe_admit_waiters fuel) s (fun _ s' => admitted s s'))
    as ([] & s' & Hrun & Ha).
  - apply maybe_admit_waiters_wp; [exact Hwf|]. destruct (evicting s); lia.
  - exists s'. auto.
Qed.

(** With nobody waiting the admission loop returns at once. *)
Lemma maybe_admit_waiters_idle n s :
  wait_empty (wait_list s) = true -> maybe_admit_waiters (S n) s = Ok tt s.
Proof.
  intros H. simpl. unfold noexcept. munfold.
  unfold wait_empty in H. unfold wait_front.
  destruct (admission_queue (wait_list s)), (memory_queue (wait_list s)); try discriminate.
  reflexivity.
Qed.

(** ** Leaving the active states *)






(** ** Enqueuing a waiter *)





(** *** The waiter that holds a used and a blocked guard *)








(** ** Requesting memory *)







(** Past the serialize limit, behind a blessed permit and with room in the
    queues, the request ends the process: the permit is the only one
    counted as used and the waiter at the front holds a used and a blocked
    guard, which the re-run of admission admits twice. *)
Lemma request_memory_aborts_on_reentry :
  exists p b s,
    scenario_waiter_with_both_guards (make_semaphore 1 2 2048 100 2 4) = Ok p s
    /\ (p_state <$> permits s !! p) = Some active_used
    /\ ~ memory_available s 3000
    /\ blessed_permit s = Some b /\ b <> p
    /\ wait_size (wait_list s) + ready_size s < max_queue_length s
    /\ request_memory (maybe_admit_waiters 5) p 3000 s = Crash assertion_failed.
Proof.
  pose (s := match scenario_waiter_with_both_guards (make_semaphore 1 2 2048 100 2 4) with
             | Ok _ u => u | _ => make_semaphore 1 2 2048 100 2 4 end).
  exists 2%nat, 3%nat, s. split; [vm_compute; reflexivity|].
  split; [vm_compute; reflexivity|]. split.
  { unfold memory_available. vm_compute. intros [H|H]; discriminate H. }
  split; [vm_compute; reflexivity|]. split; [discriminate|].
  split; vm_compute; reflexivity.
Qed.


(** Proving a concrete semaphore well formed. *)
Ltac concrete_notin :=
  repeat (apply not_elem_of_cons; split; [discriminate|]); apply not_elem_of_nil.

Ltac concrete_nodup :=
  repeat (apply NoDup_cons; split; [concrete_notin|]); apply NoDup_nil_2.


Ltac concrete_wf :=
  constructor;
  [ repeat (apply Forall_cons; split;
            [eexists; split; [vm_compute; reflexivity|]; split; [auto|auto]|]);
    apply Forall_nil_2
  | concrete_nodup
  | repeat (apply Forall_cons; split;
            [eexists; split; [vm_compute; reflexivity|]; reflexivity|]);
    apply Forall_nil_2
  | concrete_nodup
  | repeat (apply Forall_cons; split; [simpl; lia|]); apply Forall_nil_2 ].



(** ** Registering an inactive read *)


Lemma on_evicted_run maw id p s :
  permits s !! id = Some p -> p_state p = inactive ->
  on_evicted maw id s
  = if p_base_resources_consumed p
    then (maw;; permit_update id (set_p_base_resources_consumed false))
           (evicted_refund id p s)
    else Ok tt (evicted_unrefunded id p s).
Proof.
  intros Hp Hst. unfold on_evicted, impl_signal, sem_signal, evicted_refund, evicted_unrefunded.
  munfold. rewrite Hp. rewrite Hst. mrun.
  destruct (p_base_resources_consumed p); mrun; [|reflexivity].
  rewrite insert_insert_eq. reflexivity.
Qed.






(** Registering the reader of the only permit counted as used while the
    waiter at the front holds a used and a blocked guard: the re-run of
    admission admits the waiter twice and the process ends, whether or not
    the cache entry could have been allocated. *)
Lemma register_inactive_read_aborts_on_reentry :
  exists p s,
    scenario_waiter_with_both_guards (make_semaphore 1 2 2048 100 2 4) = Ok p s
    /\ (p_state <$> permits s !! p) = Some active_used
    /\ wait_empty (wait_list s) = false
    /\ forall alloc,
         register_inactive_read (maybe_admit_waiters 5) alloc (mk_reader 10 p 0) s
         = Crash assertion_failed.
Proof.
  pose (s := match scenario_waiter_with_both_guards (make_semaphore 1 2 2048 100 2 4) with
             | Ok _ u => u | _ => make_semaphore 1 2 2048 100 2 4 end).
  exists 2%nat, s. split; [vm_compute; reflexivity|].
  split; [vm_compute; reflexivity|]. split; [vm_compute; reflexivity|].
  intros []; vm_compute; reflexivity.
Qed.

(** Nobody waits and memory is available, but the cache entry cannot be
    allocated: the reader is evicted as if the semaphore were short of
    memory. *)
Lemma register_inactive_read_allocation_failure :
  let s := set_wait_list (mk_wait_queue [] []) (c4_sem 1948) in
  wait_empty (wait_list s) = true /\ 0 < memory (resources s)
  /\ exists s', register_inactive_read (maybe_admit_waiters 3) false c4_reader s
                = Ok empty_handle s'
       /\ (p_state <$> permits s' !! 0%nat) = Some evicted
       /\ inactive_list s' = []
       /\ closed_readers s' = [c4_reader]
       /\ permit_based_evictions (sem_stats s')
          = permit_based_evictions (sem_stats s) + 1.
Proof.
  split; [reflexivity|]. split; [reflexivity|]. eexists.
  split; [vm_compute; reflexivity|]. repeat split; vm_compute; reflexivity.
Qed.



(** ** Registering and unregistering *)


Lemma unlink_fresh n r l :
  Forall (fun ir => (ir_ptr ir < n)%nat) l ->
  unlink n (l ++ [mk_inactive_read n r]) = l.
Proof.
  induction 1 as [|ir l Hir _ IH]; simpl.
  - rewrite Nat.eqb_refl. reflexivity.
  - destruct (Nat.eqb_spec (ir_ptr ir) n) as [E|_]; [lia|]. rewrite IH. reflexivity.
Qed.

Lemma find_inactive_ptr ptr l ir : find_inactive ptr l = Some ir -> ir_ptr ir = ptr.
Proof.
  induction l as [|x l IH]; simpl; [discriminate|].
  destruct (Nat.eqb_spec (ir_ptr x) ptr) as [E|_]; [|exact IH].
  intros H. injection H as <-. exact E.
Qed.





(** The guards of a permit can be taken while its reader is cached: a
    reader registered from [active_unused], whose permit then takes a used
    and a blocked guard, comes back under a permit in [active_blocked]. *)
Lemma round_trip_returns_to_active_blocked :
  exists s, scenario_guards_while_cached (make_semaphore 1 2 2048 100 2 4)
            = Ok (Some 1%nat, Some (mk_reader 9 0 0), Some active_blocked) s.
Proof. eexists. vm_compute. reflexivity. Qed.




(** ** The scenarios of the spec, run on the model *)

(** Scenario 1: both permits are admitted at once and the semaphore returns
    to its initial resources. *)
Example simple_admission :
  exists s, scenario_simple_admission (make_semaphore 1 2 (2 * MiB) 100 2 4)
            = Ok (ready_future, ready_future, 2, 0, mk_resources 2 (2 * MiB)) s.
Proof. eexists. vm_compute. reflexivity. Qed.

(** Boundary: with no reader active, a read larger than the whole memory is
    admitted. *)
Example single_large_read_is_admitted :
  exists id s, obtain_permit (maybe_admit_waiters 4) (16 * MiB) (make_semaphore 1 1 MiB 100 2 4)
               = Ok (id, ready_future) s
    /\ resources s = mk_resources 0 (MiB - 16 * MiB).
Proof. eexists _, _. split; vm_compute; reflexivity. Qed.

(** Scenario 3: registering the reader of the first permit admits the
    second, and the first reader is evicted and closed. *)
Example eviction_for_admission :
  exists s, scenario_eviction_for_admission (make_semaphore 1 1 MiB 100 2 4)
            = Ok (mk_handle 1 (Some 1%nat), promise_future 3,
                  Some evicted, Some active_unused, [mk_reader 9 0 0], [(3%nat, None)]) s.
Proof. eexists. vm_compute. reflexivity. Qed.

(** Scenario 5: the charge that reaches the kill limit throws and the kill
    is counted once. *)
Example kill_limit_scenario :
  exists s, scenario_kill_limit (make_semaphore 1 1 MiB 100 2 4) = Ok 1 s.
Proof. eexists. vm_compute. reflexivity. Qed.

(** * Properties of the operations

    What the operations do beyond the cases the specification names: how
    they compose, what they leave unchanged and what they never do. *)

(** ** Arithmetic and extensionality *)

Lemma two64 : 2 ^ 64 = 18446744073709551616.
Proof. reflexivity. Qed.

Lemma incr64_0 : incr64 0 = 1.
Proof. reflexivity. Qed.

Lemma decr64_1 : decr64 1 = 0.
Proof. reflexivity. Qed.

Lemma decr64_incr64 x : 0 <= x < 2 ^ 64 -> decr64 (incr64 x) = x.
Proof.
  intros H. unfold decr64, incr64. rewrite two64 in *.
  destruct (Z.eq_dec x 18446744073709551615) as [->|Hne]; [reflexivity|].
  rewrite (Z.mod_small (x + 1)) by lia. rewrite Z.mod_small by lia. lia.
Qed.

Lemma res_add_sub a b : res_add (res_sub a b) b = a.
Proof. destruct a, b. unfold res_add, res_sub. simpl. f_equal; lia. Qed.

Lemma non_zero_false r : non_zero r = false -> r = res_zero.
Proof.
  destruct r as [c m]. unfold non_zero, res_zero. simpl. intros H.
  apply orb_false_iff in H as [Hc Hm]. apply negb_false_iff in Hc, Hm.
  apply Z.eqb_eq in Hc, Hm. subst. reflexivity.
Qed.

Lemma non_zero_false_fields r : non_zero r = false -> count r = 0 /\ memory r = 0.
Proof. intros H. apply non_zero_false in H. subst. split; reflexivity. Qed.

Lemma resources_ext (a b : reader_resources) :
  count a = count b -> memory a = memory b -> a = b.
Proof. destruct a, b. simpl. intros -> ->. reflexivity. Qed.

Lemma permit_ext (p q : permit) :
  p_base_resources p = p_base_resources q ->
  p_base_resources_consumed p = p_base_resources_consumed q ->
  p_resources p = p_resources q -> p_state p = p_state q ->
  p_used_branches p = p_used_branches q -> p_marked_as_used p = p_marked_as_used q ->
  p_blocked_branches p = p_blocked_branches q ->
  p_marked_as_blocked p = p_marked_as_blocked q ->
  p_sstables_read p = p_sstables_read q -> p_requested_memory p = p_requested_memory q ->
  p_memory_future p = p_memory_future q -> p_oom_kills p = p_oom_kills q ->
  p = q.
Proof. destruct p, q. simpl. intros. subst. reflexivity. Qed.

Lemma stats_ext (a b : stats) :
  permit_based_evictions a = permit_based_evictions b ->
  time_based_evictions a = time_based_evictions b ->
  inactive_reads a = inactive_reads b ->
  total_reads_killed_due_to_kill_limit a = total_reads_killed_due_to_kill_limit b ->
  total_reads_shed_due_to_overload a = total_reads_shed_due_to_overload b ->
  reads_admitted a = reads_admitted b ->
  reads_enqueued_for_admission a = reads_enqueued_for_admission b ->
  reads_enqueued_for_memory a = reads_enqueued_for_memory b ->
  used_permits a = used_permits b -> blocked_permits a = blocked_permits b ->
  total_permits a = total_permits b -> current_permits a = current_permits b ->
  sstables_read a = sstables_read b -> disk_reads a = disk_reads b ->
  a = b.
Proof. destruct a, b. simpl. intros. subst. reflexivity. Qed.

Lemma semaphore_ext (s t : semaphore) :
  sem_this s = sem_this t -> initial_resources s = initial_resources t ->
  resources s = resources t -> wait_list s = wait_list t ->
  ready_list s = ready_list t -> inactive_list s = inactive_list t ->
  sem_stats s = sem_stats t -> blessed_permit s = blessed_permit t ->
  permits s = permits t -> max_queue_length s = max_queue_length t ->
  serialize_limit_multiplier s = serialize_limit_multiplier t ->
  kill_limit_multiplier s = kill_limit_multiplier t ->
  evicting s = evicting t -> closed_readers s = closed_readers t ->
  settled s = settled t -> next_id s = next_id t ->
  s = t.
Proof. destruct s, t. simpl. intros. subst. reflexivity. Qed.

(** Equality of two states, field by field. *)
Ltac ext_eq :=
  repeat match goal with
  | |- @eq semaphore _ _ => apply semaphore_ext
  | |- @eq stats _ _ => apply stats_ext
  | |- @eq permit _ _ => apply permit_ext
  | |- @eq reader_resources _ _ => apply resources_ext
  | |- Some _ = Some _ => f_equal
  | |- Ok _ _ = Ok _ _ => f_equal
  end; simpl; try reflexivity; try lia.

(** ** Operations on a semaphore without waiters *)

(** Symbolic execution of straight-line code, with the rewrites [tac]. *)
Ltac run_with tac := repeat (progress (mrun; tac)).

(** X1: [mark_used] and [mark_blocked] commute on an active permit that
    holds neither guard: taking the two guards in either order has the same
    outcome, whatever the admission loop does when it is re-entered. *)
Theorem mark_used_mark_blocked_commute (maw : M unit) (id : nat) (p : permit) (s : semaphore) :
  permits s !! id = Some p ->
  p_state p = active_unused -> p_marked_as_used p = false ->
  p_marked_as_blocked p = false -> p_blocked_branches p = 0 ->
  (mark_used maw id;; mark_blocked maw id) s = (mark_blocked maw id;; mark_used maw id) s.
Proof.
  intros Hp Hst Hmu Hmb Hb.
  unfold mark_used, mark_blocked, on_permit_used, on_permit_blocked,
    sem_on_permit_used, sem_on_permit_blocked.
  munfold.
  run_with ltac:(rewrite ?Hmu, ?Hst, ?Hmb, ?Hb, ?incr64_0, ?insert_insert_eq).
  reflexivity.
Qed.

Section Idle.

(** The re-entrant admission, when it is known to return at once on a
    semaphore without waiters. *)
Variable maw : M unit.
Hypothesis maw_idle : forall t, wait_empty (wait_list t) = true -> maw t = Ok tt t.

Ltac run_idle Hw tac :=
  run_with ltac:(tac; rewrite ?insert_insert_eq, ?delete_insert_eq;
                 rewrite ?maw_idle by exact Hw).

Lemma guards_in_order id p s :
  permits s !! id = Some p ->
  p_state p = active_unused -> p_marked_as_used p = false ->
  p_marked_as_blocked p = false -> p_used_branches p = 0 -> p_blocked_branches p = 0 ->
  wait_empty (wait_list s) = true ->
  0 <= blocked_permits (sem_stats s) <= used_permits (sem_stats s) ->
  used_permits (sem_stats s) < 2 ^ 64 - 1 ->
  (mark_used maw id;; mark_blocked maw id;; mark_unblocked id;; mark_unused maw id) s
  = Ok tt s.
Proof.
  intros Hp Hst Hmu Hmb Hu Hb Hw Hc Hlt.
  set (u := used_permits (sem_stats s)) in *. set (b := blocked_permits (sem_stats s)) in *.
  assert (Hdu : decr64 (incr64 u) = u) by (apply decr64_incr64; lia).
  assert (Hdb : decr64 (incr64 b) = b) by (apply decr64_incr64; lia).
  assert (C1 : (incr64 b <=? incr64 u) = true)
    by (rewrite !incr64_small by lia; apply Z.leb_le; lia).
  assert (C2 : (incr64 b =? 0) = false)
    by (rewrite incr64_small by lia; apply Z.eqb_neq; lia).
  assert (C3 : (incr64 u =? 0) = false)
    by (rewrite incr64_small by lia; apply Z.eqb_neq; lia).
  assert (C4 : (b <=? u) = true) by (apply Z.leb_le; lia).
  unfold mark_used, mark_blocked, mark_unblocked, mark_unused,
    on_permit_used, on_permit_unused, on_permit_blocked, on_permit_unblocked,
    sem_on_permit_used, sem_on_permit_unused, sem_on_permit_blocked, sem_on_permit_unblocked.
  munfold.
  run_idle Hw ltac:(fold u b; rewrite ?Hmu, ?Hst, ?Hmb, ?Hu, ?Hb, ?incr64_0,
                      ?decr64_1, ?Hdu, ?Hdb, ?C1, ?C2, ?C3, ?C4).
  subst u b. ext_eq. apply insert_id. rewrite Hp. ext_eq; congruence.
Qed.

Lemma guards_out_of_order id p s :
  permits s !! id = Some p ->
  p_state p = active_unused -> p_marked_as_used p = false ->
  p_marked_as_blocked p = false -> p_used_branches p = 0 -> p_blocked_branches p = 0 ->
  wait_empty (wait_list s) = true ->
  0 <= blocked_permits (sem_stats s) <= used_permits (sem_stats s) ->
  used_permits (sem_stats s) < 2 ^ 64 - 1 ->
  (mark_used maw id;; mark_blocked maw id;; mark_unused maw id;; mark_unblocked id) s
  = Ok tt s.
Proof.
  intros Hp Hst Hmu Hmb Hu Hb Hw Hc Hlt.
  set (u := used_permits (sem_stats s)) in *. set (b := blocked_permits (sem_stats s)) in *.
  assert (Hdu : decr64 (incr64 u) = u) by (apply decr64_incr64; lia).
  assert (Hdb : decr64 (incr64 b) = b) by (apply decr64_incr64; lia).
  assert (C1 : (incr64 b <=? incr64 u) = true)
    by (rewrite !incr64_small by lia; apply Z.leb_le; lia).
  assert (C2 : (incr64 b =? 0) = false)
    by (rewrite incr64_small by lia; apply Z.eqb_neq; lia).
  assert (C3 : (incr64 u =? 0) = false)
    by (rewrite incr64_small by lia; apply Z.eqb_neq; lia).
  assert (C4 : (b <=? u) = true) by (apply Z.leb_le; lia).
  unfold mark_used, mark_blocked, mark_unblocked, mark_unused,
    on_permit_used, on_permit_unused, on_permit_blocked, on_permit_unblocked,
    sem_on_permit_used, sem_on_permit_unused, sem_on_permit_blocked, sem_on_permit_unblocked.
  munfold.
  run_idle Hw ltac:(fold u b; rewrite ?Hmu, ?Hst, ?Hmb, ?Hu, ?Hb, ?incr64_0,
                      ?decr64_1, ?Hdu, ?Hdb, ?C1, ?C2, ?C3, ?C4).
  subst u b. ext_eq. apply insert_id. rewrite Hp. ext_eq; congruence.
Qed.

Lemma consume_then_signal id p r s :
  permits s !! id = Some p -> kill_limit_reached s r = false ->
  wait_empty (wait_list s) = true ->
  (impl_consume id r;; impl_signal maw id r) s = Ok tt s.
Proof.
  intros Hp Hk Hw. unfold mbind at 1. unfold M_bind at 1.
  rewrite (impl_consume_run id p r s Hp), Hk.
  unfold impl_signal, sem_signal, charged. munfold.
  run_idle Hw idtac.
  ext_eq. apply insert_id. rewrite Hp. ext_eq.
Qed.

Lemma units_round_trip id p r s :
  permits s !! id = Some p -> kill_limit_reached s r = false ->
  wait_empty (wait_list s) = true ->
  (resource_units_consume id r ≫= resource_units_destroy maw) s = Ok tt s.
Proof.
  intros Hp Hk Hw. unfold resource_units_consume, resource_units_destroy, resource_units_reset.
  unfold mbind at 1. unfold M_bind at 1. unfold mbind at 1. unfold M_bind at 1.
  rewrite (impl_consume_run id p r s Hp), Hk. unfold mret at 1. unfold M_ret at 1.
  cbn [ru_resources ru_permit].
  destruct (non_zero r) eqn:Hnz.
  - unfold impl_signal, sem_signal, charged. munfold.
    run_idle Hw idtac.
    ext_eq. apply insert_id. rewrite Hp. ext_eq.
  - destruct (non_zero_false_fields _ Hnz) as [Hn1 Hn2].
    unfold when, charged. munfold.
    ext_eq. apply insert_id. rewrite Hp. ext_eq.
Qed.

Lemma units_reset_run u p res s :
  permits s !! ru_permit u = Some p -> wait_empty (wait_list s) = true ->
  resource_units_reset maw u res s
  = if non_zero res && kill_limit_reached s res
    then Throw bad_alloc (oom_killed (ru_permit u) p s)
    else Ok (mk_units (ru_permit u) res)
            (units_exchanged (ru_permit u) p (ru_resources u) res s).
Proof.
  intros Hp Hw. destruct u as [id old]. cbn [ru_permit ru_resources] in *.
  unfold resource_units_reset. cbn [ru_permit ru_resources].
  destruct (non_zero res) eqn:Hnz; cbn [andb].
  - unfold mbind at 1. unfold M_bind at 1.
    change (when true (impl_consume id res)) with (impl_consume id res).
    rewrite (impl_consume_run id p res s Hp).
    destruct (kill_limit_reached s res); [reflexivity|].
    unfold impl_signal, sem_signal, charged, units_exchanged.
    destruct (non_zero old) eqn:Hold.
    + munfold. run_idle Hw idtac. reflexivity.
    + destruct (non_zero_false_fields _ Hold) as [Ho1 Ho2].
      munfold. simpl. ext_eq.
      f_equal. ext_eq.
  - destruct (non_zero_false_fields _ Hnz) as [Hn1 Hn2].
    unfold impl_signal, sem_signal, units_exchanged.
    destruct (non_zero old) eqn:Hold.
    + munfold. run_idle Hw idtac. ext_eq. f_equal. ext_eq.
    + destruct (non_zero_false_fields _ Hold) as [Ho1 Ho2].
      munfold. simpl. ext_eq.
      symmetry. apply insert_id. rewrite Hp. ext_eq.
Qed.

Lemma release_base_resources_run id p s :
  permits s !! id = Some p -> wait_empty (wait_list s) = true ->
  release_base_resources maw id s = Ok tt (base_released id p s).
Proof.
  intros Hp Hw. unfold release_base_resources, sem_signal, base_released. munfold.
  rewrite Hp. destruct (p_base_resources_consumed p) eqn:Hc;
    run_idle Hw idtac; reflexivity.
Qed.

Lemma release_base_resources_again id p s :
  permits s !! id = Some p -> wait_empty (wait_list s) = true ->
  release_base_resources maw id (base_released id p s) = Ok tt (base_released id p s).
Proof.
  intros Hp Hw.
  assert (Hq : exists q, permits (base_released id p s) !! id = Some q
             /\ p_base_resources q = res_zero /\ p_base_resources_consumed q = false).
  { unfold base_released. eexists. split; [simpl; apply lookup_insert_eq|].
    destruct (p_base_resources_consumed p) eqn:Hc; simpl; auto. }
  destruct Hq as (q & Hq & Hb & Hc).
  assert (Hw' : wait_empty (wait_list (base_released id p s)) = true) by exact Hw.
  remember (base_released id p s) as t eqn:Ht. clear Ht.
  rewrite (release_base_resources_run id q t Hq Hw').
  unfold base_released. rewrite Hc, Hb.
  ext_eq. apply insert_id. rewrite Hq. ext_eq; rewrite Hb; reflexivity.
Qed.

Lemma sem_set_resources_run r s :
  wait_empty (wait_list s) = true ->
  sem_set_resources maw r s = Ok tt (limits_set r s).
Proof.
  intros Hw. unfold sem_set_resources, limits_set. munfold. simpl.
  rewrite maw_idle by exact Hw. reflexivity.
Qed.

Lemma limits_set_back r s : limits_set (initial_resources s) (limits_set r s) = s.
Proof. unfold limits_set. ext_eq. Qed.

Lemma destroy_run id p s :
  permits s !! id = Some p ->
  p_used_branches p = 0 -> p_blocked_branches p = 0 ->
  wait_empty (wait_list s) = true ->
  destroy maw id s = Ok tt (destroyed id p s).
Proof.
  intros Hp Hu Hb Hw. unfold destroy, impl_signal, sem_signal, on_permit_destroyed, destroyed.
  munfold. rewrite Hp.
  destruct (p_base_resources_consumed p) eqn:Hc.
  - run_idle Hw idtac.
    destruct (non_zero (res_sub (p_resources p) (p_base_resources p))) eqn:Hnz.
    + run_idle Hw ltac:(rewrite ?Hu, ?Hb).
      destruct (blessed_permit s) as [b|] eqn:Hbl; [destruct (Nat.eqb b id)|];
        run_idle Hw idtac; ext_eq; try congruence.
    + destruct (non_zero_false_fields _ Hnz) as [Hn1 Hn2]. simpl in Hn1, Hn2.
      run_idle Hw ltac:(rewrite ?Hu, ?Hb).
      destruct (blessed_permit s) as [b|] eqn:Hbl; [destruct (Nat.eqb b id)|];
        run_idle Hw idtac; ext_eq; try congruence.
  - simpl. rewrite Hp. simpl.
    destruct (non_zero (p_resources p)) eqn:Hnz.
    + run_idle Hw ltac:(rewrite ?Hu, ?Hb).
      destruct (blessed_permit s) as [b|] eqn:Hbl; [destruct (Nat.eqb b id)|];
        run_idle Hw idtac; ext_eq; try congruence.
    + destruct (non_zero_false_fields _ Hnz) as [Hn1 Hn2].
      run_idle Hw ltac:(rewrite ?Hu, ?Hb).
      destruct (blessed_permit s) as [b|] eqn:Hbl; [destruct (Nat.eqb b id)|];
        run_idle Hw idtac; ext_eq; try congruence.
Qed.

End Idle.

Lemma inner_used_guard maw id p s :
  permits s !! id = Some p -> p_marked_as_used p = true ->
  0 < p_used_branches p < 2 ^ 64 - 1 ->
  (mark_used maw id;; mark_unused maw id) s = Ok tt s.
Proof.
  intros Hp Hmu Hu.
  assert (C1 : (incr64 (p_used_branches p) =? 0) = false)
    by (rewrite incr64_small by lia; apply Z.eqb_neq; lia).
  assert (C2 : (p_used_branches p =? 0) = false) by (apply Z.eqb_neq; lia).
  assert (Hd : decr64 (incr64 (p_used_branches p)) = p_used_branches p)
    by (apply decr64_incr64; lia).
  unfold mark_used, mark_unused. munfold.
  run_with ltac:(rewrite ?Hmu, ?C1, ?Hd, ?C2, ?insert_insert_eq).
  ext_eq. apply insert_id. rewrite Hp. ext_eq.
Qed.

Lemma inner_blocked_guard maw id p s :
  permits s !! id = Some p -> p_marked_as_blocked p = true ->
  0 < p_blocked_branches p < 2 ^ 64 - 1 ->
  (mark_blocked maw id;; mark_unblocked id) s = Ok tt s.
Proof.
  intros Hp Hmb Hb.
  assert (C1 : (incr64 (p_blocked_branches p) =? 0) = false)
    by (rewrite incr64_small by lia; apply Z.eqb_neq; lia).
  assert (C0 : (incr64 (p_blocked_branches p) =? 1) = false)
    by (rewrite incr64_small by lia; apply Z.eqb_neq; lia).
  assert (C2 : (p_blocked_branches p =? 0) = false) by (apply Z.eqb_neq; lia).
  assert (Hd : decr64 (incr64 (p_blocked_branches p)) = p_blocked_branches p)
    by (apply decr64_incr64; lia).
  unfold mark_blocked, mark_unblocked. munfold.
  run_with ltac:(rewrite ?Hmb, ?C0, ?C1, ?Hd, ?C2, ?insert_insert_eq).
  ext_eq. apply insert_id. rewrite Hp. ext_eq.
Qed.

Lemma sstable_read_start id p s :
  permits s !! id = Some p ->
  on_start_sstable_read id s
  = Ok tt
      (set_sem_stats
         (set_sstables_read (incr64 (sstables_read (sem_stats s)))
            (if p_sstables_read p =? 0
             then set_disk_reads (incr64 (disk_reads (sem_stats s))) (sem_stats s)
             else sem_stats s))
         (set_permits (<[id := set_p_sstables_read (incr64 (p_sstables_read p)) p]>
                         (permits s)) s)).
Proof.
  intros Hp. unfold on_start_sstable_read. munfold. rewrite Hp.
  destruct (p_sstables_read p =? 0); run_with idtac; reflexivity.
Qed.

Lemma sstable_read_round_trip id p s :
  permits s !! id = Some p ->
  0 <= p_sstables_read p < 2 ^ 64 ->
  0 <= sstables_read (sem_stats s) < 2 ^ 64 ->
  0 <= disk_reads (sem_stats s) < 2 ^ 64 ->
  (on_start_sstable_read id;; on_finish_sstable_read id) s = Ok tt s.
Proof.
  intros Hp Hr Hs Hd. unfold mbind at 1. unfold M_bind at 1.
  rewrite (sstable_read_start id p s Hp).
  pose proof (decr64_incr64 _ Hr) as D1. pose proof (decr64_incr64 _ Hs) as D2.
  pose proof (decr64_incr64 _ Hd) as D3.
  unfold on_finish_sstable_read. munfold.
  destruct (p_sstables_read p =? 0) eqn:H0;
    run_with ltac:(rewrite ?D1, ?D2, ?D3, ?H0, ?insert_insert_eq);
    ext_eq; apply insert_id; rewrite Hp; ext_eq.
Qed.

Lemma clear_inactive_reads_loop_run l : forall s,
  inactive_list s = l ->
  clear_inactive_reads_loop (length l) s = Ok tt (dropped l [] s).
Proof.
  induction l as [|ir l IH]; intros s Hl.
  - simpl. munfold. rewrite Hl. unfold dropped. ext_eq.
    + exact Hl.
    + rewrite app_nil_r. reflexivity.
  - simpl. unfold close_reader. munfold. rewrite Hl. simpl. rewrite Hl.
    rewrite unlink_front. rewrite IH by reflexivity.
    unfold dropped. ext_eq. rewrite <- app_assoc. reflexivity.
Qed.

(** ** Admission on the spot and behind the waiters *)

(** The admission predicate reads the resources, the limits, the blessed
    permit, the ready list, the used and blocked counters, whether the cache
    is empty, and of the permit its base resources and whether it waits for
    memory. *)
Lemma can_admit_read_ext s t p q :
  resources s = resources t -> initial_resources s = initial_resources t ->
  serialize_limit_multiplier s = serialize_limit_multiplier t ->
  kill_limit_multiplier s = kill_limit_multiplier t ->
  (blessed_permit s = None <-> blessed_permit t = None) ->
  ready_list s = ready_list t ->
  used_permits (sem_stats s) = used_permits (sem_stats t) ->
  blocked_permits (sem_stats s) = blocked_permits (sem_stats t) ->
  (inactive_list s = [] <-> inactive_list t = []) ->
  state_eqb (p_state p) waiting_for_memory = state_eqb (p_state q) waiting_for_memory ->
  p_base_resources p = p_base_resources q ->
  can_admit_read s p = can_admit_read t q.
Proof.
  intros Hr Hi Hs Hk Hb Hrl Hu Hbl Hin Hst Hbase.
  unfold can_admit_read, get_kill_limit, get_serialize_limit, is_unlimited,
    consumed_resources, has_available_units, all_used_permits_are_stalled.
  rewrite Hr, Hi, Hs, Hk, Hrl, Hu, Hbl, Hst, Hbase.
  assert (Hb' : match blessed_permit s with
                | Some _ => no
                | None => if state_eqb (p_state q) waiting_for_memory then yes else no
                end
              = match blessed_permit t with
                | Some _ => no
                | None => if state_eqb (p_state q) waiting_for_memory then yes else no
                end).
  { destruct (blessed_permit s), (blessed_permit t); try reflexivity.
    - destruct Hb as [_ Hb]. discriminate (Hb eq_refl).
    - destruct Hb as [Hb _]. discriminate (Hb eq_refl). }
  assert (Hin' : match inactive_list s with [] => no | _ => maybe end
               = match inactive_list t with [] => no | _ => maybe end).
  { destruct (inactive_list s), (inactive_list t); try reflexivity.
    - destruct Hin as [Hin _]. discriminate (Hin eq_refl).
    - destruct Hin as [_ Hin]. discriminate (Hin eq_refl). }
  rewrite Hb', Hin'. reflexivity.
Qed.

(** A permit that is not waiting for memory is admitted only with an empty
    ready list. *)
Lemma can_admit_yes_ready_empty s p :
  can_admit_read s p = yes -> p_state p <> waiting_for_memory -> ready_list s = [].
Proof.
  intros H Hst. apply state_eqb_neq in Hst.
  unfold can_admit_read in H. rewrite Hst in H.
  destruct (ready_list s); [reflexivity|]. simpl in H.
  destruct (memory (resources s) <? 0); [|discriminate].
  destruct (get_kill_limit s <=? _); [discriminate|].
  destruct (get_serialize_limit s <=? _); [|discriminate].
  destruct (blessed_permit s); discriminate.
Qed.

Lemma do_wait_admission_now maw id p func s :
  permits s !! id = Some p -> p_state p <> active_blocked ->
  p_used_branches p = 0 \/ p_blocked_branches p = 0 ->
  wait_empty (wait_list s) = true -> can_admit_read s p = yes ->
  do_wait_admission maw id func s
  = if kill_limit_reached s (p_base_resources p)
    then Throw bad_alloc
           (oom_killed id (activated p)
              (set_permits (<[id := activated p]> (permits s)) (count_used p s)))
    else match func with
         | Some f => with_ready_permit id f (admitted_now id p s)
         | None => Ok ready_future (admitted_now id p s)
         end.
Proof.
  intros Hp Hst Hb Hw Hyes. apply state_eqb_neq in Hst.
  unfold do_wait_admission. munfold. rewrite Hp, Hyes, Hw. simpl.
  unfold on_admission. munfold. rewrite Hp, Hst. simpl.
  rewrite (on_permit_active_run maw id p s Hp Hb). simpl. rewrite lookup_insert_eq.
  replace (p_base_resources (activated p)) with (p_base_resources p)
    by (unfold activated; destruct (p_used_branches p =? 0); reflexivity).
  match goal with |- context [impl_consume ?i ?r ?t] =>
    rewrite (impl_consume_run i (activated p) r t) by (simpl; apply lookup_insert_eq) end.
  match goal with |- context [kill_limit_reached ?t (p_base_resources p)] =>
    replace (kill_limit_reached t (p_base_resources p))
      with (kill_limit_reached s (p_base_resources p))
      by (unfold count_used; destruct (p_used_branches p =? 0); reflexivity) end.
  destruct (kill_limit_reached s (p_base_resources p)); [reflexivity|].
  unfold admitted_now, charged. run_with ltac:(rewrite ?insert_insert_eq).
  replace (p_resources (activated p)) with (p_resources p)
    by (unfold activated; destruct (p_used_branches p =? 0); reflexivity).
  destruct func; reflexivity.
Qed.

Lemma do_wait_admission_no maw id p func s :
  permits s !! id = Some p -> can_admit_read s p = no ->
  do_wait_admission maw id func s = enqueue_waiter maw id func wait_on_admission s.
Proof.
  intros Hp Hno. unfold do_wait_admission. munfold. rewrite Hp, Hno. simpl.
  destruct (enqueue_waiter maw id func wait_on_admission s); reflexivity.
Qed.

Lemma wait_empty_push_admission e w : wait_empty (push_to_admission_queue e w) = false.
Proof.
  unfold wait_empty, push_to_admission_queue. simpl.
  destruct (admission_queue w); reflexivity.
Qed.

Lemma wait_empty_push_memory e w : wait_empty (push_to_memory_queue e w) = false.
Proof.
  unfold wait_empty, push_to_memory_queue. simpl.
  destruct (admission_queue w), (memory_queue w); reflexivity.
Qed.

(** A wait list that was not empty is not empty after [enqueue_waiter]:
    either the attempt was refused, or the new entry is in it. *)
Lemma enqueue_waiter_nonempty maw id func w s fut s' :
  enqueue_waiter maw id func w s = Ok fut s' ->
  wait_empty (wait_list s) = false -> wait_empty (wait_list s') = false.
Proof.
  intros Hrun Hne. unfold enqueue_waiter, check_queue_size in Hrun. munfold.
  destruct (max_queue_length s <=? wait_size (wait_list s) + ready_size s).
  - simpl in Hrun. injection Hrun as <- <-. exact Hne.
  - simpl in Hrun. destruct w.
    + destruct (on_waiting_for_admission maw id _) as [[] s2| |]; try discriminate.
      simpl in Hrun. injection Hrun as <- <-. simpl. apply wait_empty_push_admission.
    + destruct (on_waiting_for_memory maw id _ _) as [[] s2| |]; try discriminate.
      simpl in Hrun.
      destruct (get_memory_future id s2) as [f s3| |] eqn:Hf; try discriminate.
      simpl in Hrun. injection Hrun as <- <-. simpl. apply wait_empty_push_memory.
Qed.

Lemma do_wait_admission_behind maw id p func s :
  permits s !! id = Some p -> can_admit_read s p = yes ->
  wait_empty (wait_list s) = false ->
  do_wait_admission maw id func s
  = (fut ← enqueue_waiter maw id func wait_on_admission; maw;; mret fut) s.
Proof.
  intros Hp Hyes Hne. unfold do_wait_admission. munfold. rewrite Hp, Hyes, Hne. simpl.
  destruct (enqueue_waiter maw id func wait_on_admission s) as [fut s'| |] eqn:Hrun;
    try reflexivity.
  rewrite (enqueue_waiter_nonempty _ _ _ _ _ _ _ Hrun Hne). reflexivity.
Qed.

Lemma do_wait_admission_maybe maw id p func s :
  permits s !! id = Some p -> can_admit_read s p = maybe ->
  do_wait_admission maw id func s
  = (fut ← enqueue_waiter maw id func wait_on_admission;
     evict_readers_in_background maw;; mret fut) s.
Proof.
  intros Hp Hm. unfold do_wait_admission. munfold. rewrite Hp, Hm. simpl.
  destruct (enqueue_waiter maw id func wait_on_admission s) as [fut s'| |]; reflexivity.
Qed.

Lemma make_permit_run base s :
  make_permit base s
  = Ok (next_id s)
      (set_sem_stats
         (set_current_permits (incr64 (current_permits (sem_stats s)))
            (set_total_permits (incr64 (total_permits (sem_stats s))) (sem_stats s)))
         (set_permits (<[next_id s := new_permit base]> (permits s))
            (set_next_id (S (next_id s)) s))).
Proof. reflexivity. Qed.

Lemma can_admit_read_created s p q :
  can_admit_read (permit_created q s) p = can_admit_read s p.
Proof. apply can_admit_read_ext; reflexivity. Qed.

Lemma obtain_permit_now maw mem s :
  let base := mk_resources 1 (to_s64 mem) in
  wait_empty (wait_list s) = true -> can_admit_read s (new_permit base) = yes ->
  obtain_permit maw mem s
  = if kill_limit_reached s base
    then Throw bad_alloc
           (oom_killed (next_id s) (new_permit base) (permit_created (new_permit base) s))
    else Ok (next_id s, ready_future)
            (admitted_now (next_id s) (new_permit base) (permit_created (new_permit base) s)).
Proof.
  intros base Hw Hyes. unfold obtain_permit. fold base. unfold mbind at 1. unfold M_bind at 1.
  rewrite make_permit_run. fold (permit_created (new_permit base) s).
  unfold mbind at 1. unfold M_bind at 1.
  rewrite (do_wait_admission_now maw (next_id s) (new_permit base) None
             (permit_created (new_permit base) s)).
  - change (kill_limit_reached (permit_created (new_permit base) s)
              (p_base_resources (new_permit base)))
      with (kill_limit_reached s base).
    destruct (kill_limit_reached s base); [|reflexivity].
    f_equal. unfold oom_killed. simpl. rewrite !insert_insert_eq. reflexivity.
  - simpl. apply lookup_insert_eq.
  - discriminate.
  - left. reflexivity.
  - exact Hw.
  - rewrite can_admit_read_created. exact Hyes.
Qed.

Lemma wait_size_empty w : wait_empty w = true -> wait_size w = 0.
Proof.
  unfold wait_empty, wait_size.
  destruct (admission_queue w), (memory_queue w); try discriminate. reflexivity.
Qed.

(** X14: [with_permit] on a semaphore that has room, no waiters and a
    queue limit above zero is never shed: the permit is admitted on the
    spot, the continuation is the only entry of the ready list, the caller
    gets the future of that entry and the overload counter does not move. *)
Theorem with_permit_on_the_spot (maw : M unit) (mem : Z) (f : nat) (s : semaphore) :
  wait_empty (wait_list s) = true ->
  can_admit_read s (new_permit (mk_resources 1 (to_s64 mem))) = yes ->
  kill_limit_reached s (mk_resources 1 (to_s64 mem)) = false -> 0 < max_queue_length s ->
  exists s',
    with_permit maw mem f s = Ok (promise_future (S (next_id s))) s'
    /\ ready_list s' = [mk_entry (S (next_id s)) (next_id s) (Some f)]
    /\ (exists q, permits s' !! next_id s = Some q /\ holds_base q active_unused
                  /\ p_base_resources q = mk_resources 1 (to_s64 mem))
    /\ resources s' = res_sub (resources s) (mk_resources 1 (to_s64 mem))
    /\ total_reads_shed_due_to_overload (sem_stats s')
       = total_reads_shed_due_to_overload (sem_stats s)
    /\ reads_admitted (sem_stats s') = incr64 (reads_admitted (sem_stats s)).
Proof.
  intros Hw Hyes Hk Hmax. set (base := mk_resources 1 (to_s64 mem)) in *.
  assert (Hrl : ready_list s = []).
  { apply (can_admit_yes_ready_empty s (new_permit base) Hyes). discriminate. }
  unfold with_permit. fold base. unfold mbind at 1. unfold M_bind at 1.
  rewrite make_permit_run. fold (permit_created (new_permit base) s).
  rewrite (do_wait_admission_now maw (next_id s) (new_permit base) (Some f)
             (permit_created (new_permit base) s));
    [ | simpl; apply lookup_insert_eq | discriminate | left; reflexivity | exact Hw
      | rewrite can_admit_read_created; exact Hyes ].
  change (kill_limit_reached (permit_created (new_permit base) s)
            (p_base_resources (new_permit base)))
    with (kill_limit_reached s base).
  rewrite Hk. unfold with_ready_permit, check_queue_size, fresh, ready_push. munfold.
  change (wait_list (admitted_now (next_id s) (new_permit base)
                       (permit_created (new_permit base) s))) with (wait_list s).
  change (max_queue_length (admitted_now (next_id s) (new_permit base)
                              (permit_created (new_permit base) s)))
    with (max_queue_length s).
  change (ready_size (admitted_now (next_id s) (new_permit base)
                        (permit_created (new_permit base) s)))
    with (ready_size s).
  unfold ready_size. rewrite (wait_size_empty _ Hw), Hrl.
  assert (C1 : (max_queue_length s <=? 0 + Z.of_nat (@length entry [])) = false)
    by (apply Z.leb_gt; simpl; lia).
  assert (C2 : (0 <? max_queue_length s) = true) by (apply Z.ltb_lt; lia).
  rewrite C1. simpl. rewrite Hrl. simpl. change (Z.of_nat 0) with 0. rewrite C2.
  eexists. split; [reflexivity|]. simpl.
  split; [reflexivity|]. split.
  - rewrite !lookup_insert_eq. eexists. split; [reflexivity|].
    unfold holds_base. simpl. repeat split.
  - repeat split.
Qed.

(** ** Conservation of resources *)

Lemma total_of_insert_fresh f m id q :
  m !! id = None -> total_of f (<[id := q]> m) = f q + total_of f m.
Proof.
  intros H. unfold total_of.
  rewrite (map_fold_insert_L (fun _ p acc => f p + acc) 0 id q m); [reflexivity| |exact H].
  intros. lia.
Qed.

Lemma total_of_delete f m id p :
  m !! id = Some p -> total_of f (delete id m) = total_of f m - f p.
Proof.
  intros H. unfold total_of.
  rewrite (map_fold_delete_L (fun _ p acc => f p + acc) 0 id p m); [lia| |exact H].
  intros. lia.
Qed.

Lemma total_of_insert f m id p q :
  m !! id = Some p -> total_of f (<[id := q]> m) = total_of f m - f p + f q.
Proof.
  intros H. rewrite <- insert_delete_eq.
  rewrite total_of_insert_fresh by apply lookup_delete_eq.
  rewrite (total_of_delete f m id p H). lia.
Qed.

Lemma held_insert m id p q :
  m !! id = Some p ->
  held (<[id := q]> m) = res_add (res_sub (held m) (p_resources p)) (p_resources q).
Proof.
  intros H. unfold held, res_add, res_sub. simpl.
  rewrite !(total_of_insert _ m id p q H). reflexivity.
Qed.

Lemma held_insert_fresh m id q :
  m !! id = None -> held (<[id := q]> m) = res_add (p_resources q) (held m).
Proof.
  intros H. unfold held, res_add. simpl.
  rewrite !(total_of_insert_fresh _ m id q H). reflexivity.
Qed.

Lemma held_delete m id p :
  m !! id = Some p -> held (delete id m) = res_sub (held m) (p_resources p).
Proof.
  intros H. unfold held, res_sub. simpl.
  rewrite !(total_of_delete _ m id p H). reflexivity.
Qed.

Lemma addresses_fresh_insert s id p q :
  addresses_fresh s -> permits s !! id = Some p ->
  addresses_fresh (set_permits (<[id := q]> (permits s)) s).
Proof.
  intros Hf Hp j Hj. simpl in *. specialize (Hf j Hj).
  rewrite lookup_insert_ne; [exact Hf|]. intros ->. congruence.
Qed.

(** A permit changes without a change to what it holds. *)
Lemma accounts_permit s id p q :
  accounts_balance s -> permits s !! id = Some p -> p_resources q = p_resources p ->
  accounts_balance (set_permits (<[id := q]> (permits s)) s).
Proof.
  intros [Hc Hf] Hp Hq. split; [|eapply addresses_fresh_insert; eassumption].
  unfold conserved in *. simpl. rewrite (held_insert _ id p q Hp), Hq.
  rewrite res_add_sub. exact Hc.
Qed.

Lemma accounts_next s n :
  (next_id s <= n)%nat -> accounts_balance s -> accounts_balance (set_next_id n s).
Proof.
  intros Hn [Hc Hf]. split; [exact Hc|]. intros j Hj. simpl in *. apply Hf. lia.
Qed.

(** A charge moves resources from the semaphore to the permit, a kill
    moves nothing. *)
Lemma accounts_charged s id p r :
  accounts_balance s -> permits s !! id = Some p -> accounts_balance (charged id p r s).
Proof.
  intros [Hc Hf] Hp. split.
  - unfold conserved, charged in *. simpl. rewrite (held_insert _ id p _ Hp). simpl.
    rewrite <- Hc. apply resources_ext; simpl; lia.
  - intros j Hj. unfold charged. simpl. specialize (Hf j Hj).
    rewrite lookup_insert_ne; [exact Hf|]. intros ->. congruence.
Qed.

Lemma accounts_stats s st : accounts_balance s -> accounts_balance (set_sem_stats st s).
Proof. intros H. exact H. Qed.

Lemma accounts_impl_consume id r : keeps accounts_balance (impl_consume id r).
Proof.
  intros s H. unfold impl_consume, sem_consume, on_oom_kill. gstep. gstep. gstep.
  destruct ((memory (resources s) <=? 0) && _).
  - gsteps; try apply accounts_stats;
      (eapply accounts_permit; [exact H|eassumption|reflexivity]).
  - gsteps. apply (accounts_charged s id _ r H). assumption.
Qed.

Lemma accounts_signalled s id p r :
  accounts_balance s -> permits s !! id = Some p ->
  accounts_balance
    (set_resources (res_add (resources s) r)
       (set_permits (<[id := set_p_resources (res_sub (p_resources p) r) p]> (permits s)) s)).
Proof.
  intros [Hc Hf] Hp. split.
  - unfold conserved in *. simpl. rewrite (held_insert _ id p _ Hp). simpl.
    rewrite <- Hc. apply resources_ext; simpl; lia.
  - intros j Hj. simpl. specialize (Hf j Hj).
    rewrite lookup_insert_ne; [exact Hf|]. intros ->. congruence.
Qed.

Lemma accounts_impl_signal maw id r :
  keeps accounts_balance maw -> keeps accounts_balance (impl_signal maw id r).
Proof.
  intros Hmaw s H. unfold impl_signal, sem_signal.
  gstep. gstep. gstep. gstep. simpl.
  apply Hmaw. apply (accounts_signalled s id _ r H). assumption.
Qed.

(** The side conditions of the generic operations, for conservation. *)
Ltac accounts_side :=
  first [ exact accounts_permit | exact accounts_next | exact accounts_impl_consume
        | solve [intros; assumption]
        | solve [intros; apply accounts_impl_signal; assumption] ].

Section AccountsOperations.
Variable maw : M unit.
Hypothesis maw_keeps : keeps accounts_balance maw.

Lemma accounts_admit_front x : keeps accounts_balance (admit_front maw x).
Proof. apply keeps_admit_front; accounts_side. Qed.

Lemma accounts_evict_readers_in_background :
  keeps accounts_balance (evict_readers_in_background maw).
Proof. apply keeps_evict_readers_in_background; accounts_side. Qed.

End AccountsOperations.

Lemma accounts_maybe_admit_waiters fuel : keeps accounts_balance (maybe_admit_waiters fuel).
Proof.
  induction fuel as [|n IH].
  - simpl. apply keeps_abort.
  - cbn [maybe_admit_waiters]. apply keeps_noexcept.
    pose proof (accounts_admit_front _ IH) as H1.
    pose proof (accounts_evict_readers_in_background _ IH) as H2.
    keeps_auto ltac:(auto) ltac:(intros; assumption).
Qed.

(** ** The front of the wait list *)

(** Whether the verdict is [yes] does not depend on the cache. *)
Lemma can_admit_read_yes_ext s t p q :
  resources t = resources s -> initial_resources t = initial_resources s ->
  serialize_limit_multiplier t = serialize_limit_multiplier s ->
  kill_limit_multiplier t = kill_limit_multiplier s ->
  blessed_permit t = blessed_permit s -> ready_list t = ready_list s ->
  used_permits (sem_stats t) = used_permits (sem_stats s) ->
  blocked_permits (sem_stats t) = blocked_permits (sem_stats s) ->
  alike_permit p q ->
  can_admit_read t q = yes -> can_admit_read s p = yes.
Proof.
  intros Hr Hi Hs Hk Hb Hrl Hu Hbl [Hst Hbase].
  unfold can_admit_read, get_kill_limit, get_serialize_limit, is_unlimited,
    consumed_resources, has_available_units, all_used_permits_are_stalled.
  rewrite Hr, Hi, Hs, Hk, Hb, Hrl, Hu, Hbl, Hst, Hbase.
  cbv zeta.
  repeat match goal with
  | |- context [if ?b then _ else _] => destruct b
  | |- context [match ?l with [] => _ | _ :: _ => _ end] => destruct l
  | |- context [match ?o with Some _ => _ | None => _ end] => destruct o
  end;
  intros H; solve [reflexivity | discriminate H | exact H].
Qed.

Lemma front_not_admissible_alike s t :
  admission_alike s t -> front_not_admissible s -> front_not_admissible t.
Proof.
  intros [Hw Hr Hi Hs Hk Hb Hrl Hu Hbl Hp] Hs0 x q Hfront Hq Hyes.
  rewrite Hw in Hfront. destruct (Hp _ _ Hq) as (p & Hp' & Hal).
  apply (Hs0 x p Hfront Hp').
  eapply can_admit_read_yes_ext; eassumption.
Qed.

(** A permit changes in a way the admission predicate does not see. *)
Lemma admission_alike_permit s id p q :
  permits s !! id = Some p -> alike_permit p q ->
  admission_alike s (set_permits (<[id := q]> (permits s)) s).
Proof.
  intros Hp Hal. constructor; try reflexivity. intros j q' Hq'. simpl in Hq'.
  destruct (decide (j = id)) as [->|Hne].
  - rewrite lookup_insert_eq in Hq'. injection Hq' as <-. exists p. auto.
  - rewrite lookup_insert_ne in Hq' by congruence. exists q'. split; [exact Hq'|].
    split; reflexivity.
Qed.

Lemma front_verdict s x p :
  wait_front (wait_list s) = Some x -> permits s !! e_permit x = Some p ->
  can_admit_read s p <> yes -> front_not_admissible s.
Proof.
  intros Hf Hp Hv x' p' Hf' Hp'. rewrite Hf in Hf'. injection Hf' as <-.
  rewrite Hp in Hp'. injection Hp' as <-. exact Hv.
Qed.

Lemma gwp_trivial {A} (m : M A) s : gwp m s (fun _ _ => True) (fun _ _ => True) (fun _ => True).
Proof. unfold gwp. destruct (m s); exact I. Qed.

(** [t] differs from [s] outside the wait list, the resources, the ready
    list, the permits and the used/blocked counters. *)
Ltac alike_frame :=
  constructor; try reflexivity;
  let q := fresh "q" in let Hq := fresh "Hq" in
  intros ? q Hq; exists q; split; [exact Hq|split; reflexivity].

Section FrontOperations.
Variable maw : M unit.
Hypothesis maw_front : forall s,
  gwp maw s (fun _ s' => front_not_admissible s') (fun _ _ => True) (fun _ => True).

Lemma on_evicted_front id s :
  front_not_admissible s ->
  gwp (on_evicted maw id) s (fun _ s' => front_not_admissible s')
    (fun _ _ => True) (fun _ => True).
Proof.
  intros Hs. unfold on_evicted. gstep. gstep. gstep. gstep. gstep. gstep. gstep. gstep.
  simpl in H2. rewrite lookup_insert_eq in H2. injection H2 as <-.
  rewrite H in H1. injection H1 as <-.
  assert (Hal : alike_permit p (set_p_state evicted p)).
  { split; [|reflexivity]. simpl. destruct (p_state p); try discriminate H0; reflexivity. }
  gstep.
  - unfold impl_signal, sem_signal. gstep. gstep. gstep. gstep. gstep.
    eapply gwp_mono; [apply maw_front| |auto|auto].
    intros ? s4 H4. gstep.
    eapply front_not_admissible_alike; [|exact H4].
    eapply admission_alike_permit; [eassumption|split; reflexivity].
  - eapply front_not_admissible_alike; [|exact Hs].
    eapply admission_alike_permit; eassumption.
Qed.

Lemma detach_inactive_reader_front ir reason s :
  front_not_admissible s ->
  gwp (detach_inactive_reader maw ir reason) s (fun _ s' => front_not_admissible s')
    (fun _ _ => True) (fun _ => True).
Proof.
  intros Hs. unfold detach_inactive_reader, do_detach_inactive_reader.
  gstep. gstep. gstep. gstep.
  eapply gwp_mono; [apply on_evicted_front| |auto|auto].
  - eapply front_not_admissible_alike; [|exact Hs]. alike_frame.
  - intros ? s1 H1. gstep. simpl.
    destruct reason; gstep; gstep; gstep; simpl;
      (eapply front_not_admissible_alike; [|exact H1]); alike_frame.
Qed.

End FrontOperations.

Lemma maybe_admit_waiters_front fuel s :
  gwp (maybe_admit_waiters fuel) s (fun _ s' => front_not_admissible s')
    (fun _ _ => True) (fun _ => True).
Proof.
  revert s. induction fuel as [|n IH]; intros s.
  - exact I.
  - cbn [maybe_admit_waiters]. apply gwp_noexcept. gstep. gstep.
    destruct (wait_front (wait_list s)) as [x|] eqn:Hfront.
    2: { gstep. intros x p Hf. rewrite Hfront in Hf. discriminate. }
    gstep. gstep.
    assert (Hmaybe : can_admit_read s p <> yes -> front_not_admissible s)
      by (apply front_verdict with (x := x); assumption).
    destruct (can_admit_read s p) eqn:Hv.
    + gstep. eapply gwp_mono; [apply gwp_trivial| |auto|auto].
      intros _ s' _. gstep. gstep. apply IH.
    + gstep. apply Hmaybe. discriminate.
    + unfold evict_readers_in_background. gstep. gstep.
      destruct (evicting s) eqn:Hev.
      { gstep. apply Hmaybe. discriminate. }
      assert (Hs : front_not_admissible s) by (apply Hmaybe; discriminate).
      assert (Hs1 : front_not_admissible (set_evicting true s))
        by (eapply front_not_admissible_alike; [|exact Hs]; alike_frame).
      assert (Hs2 : front_not_admissible (set_evicting false (set_evicting true s)))
        by (eapply front_not_admissible_alike; [|exact Hs]; alike_frame).
      gstep. gstep. gstep. unfold evict_readers_step. gstep. gstep.
      cbn [wait_list set_evicting inactive_list].
      destruct (wait_empty (wait_list s)); [gstep; gstep; gstep; gstep; exact Hs2|].
      destruct (inactive_list s) as [|ir rest]; [gstep; gstep; gstep; gstep; exact Hs2|].
      gstep. eapply gwp_mono; [apply detach_inactive_reader_front|  |auto|auto].
      * exact IH.
      * exact Hs1.
      * intros r s1 H1. gstep. gstep. gstep. gstep.
        eapply front_not_admissible_alike; [|exact H1]. alike_frame.
Qed.

(** *** Conservation through the interface *)

Section AccountsApi.
Variable maw : M unit.
Hypothesis maw_keeps : keeps accounts_balance maw.

Lemma accounts_do_wait_admission id func :
  keeps accounts_balance (do_wait_admission maw id func).
Proof. apply keeps_do_wait_admission; accounts_side. Qed.

Lemma accounts_impl_request_memory id n :
  keeps accounts_balance (impl_request_memory maw id n).
Proof. apply keeps_impl_request_memory; accounts_side. Qed.

Lemma accounts_resource_units_consume id r :
  keeps accounts_balance (resource_units_consume id r).
Proof. apply keeps_resource_units_consume; accounts_side. Qed.

Lemma accounts_resource_units_reset u r :
  keeps accounts_balance (resource_units_reset maw u r).
Proof. apply keeps_resource_units_reset; accounts_side. Qed.

Lemma accounts_resource_units_destroy u :
  keeps accounts_balance (resource_units_destroy maw u).
Proof. apply keeps_resource_units_destroy; accounts_side. Qed.

Lemma accounts_register_inactive_read alloc r :
  keeps accounts_balance (register_inactive_read maw alloc r).
Proof. apply keeps_register_inactive_read; accounts_side. Qed.

Lemma accounts_unregister_inactive_read h :
  keeps accounts_balance (unregister_inactive_read maw h).
Proof. apply keeps_unregister_inactive_read; accounts_side. Qed.

Lemma accounts_try_evict_one_inactive_read reason :
  keeps accounts_balance (try_evict_one_inactive_read maw reason).
Proof. apply keeps_try_evict_one_inactive_read; accounts_side. Qed.

Lemma accounts_mark_used id : keeps accounts_balance (mark_used maw id).
Proof. apply keeps_mark_used; accounts_side. Qed.
Lemma accounts_mark_unused id : keeps accounts_balance (mark_unused maw id).
Proof. apply keeps_mark_unused; accounts_side. Qed.
Lemma accounts_mark_blocked id : keeps accounts_balance (mark_blocked maw id).
Proof. apply keeps_mark_blocked; accounts_side. Qed.
Lemma accounts_mark_unblocked id : keeps accounts_balance (mark_unblocked id).
Proof. apply keeps_mark_unblocked; accounts_side. Qed.

Lemma accounts_sem_set_resources r : keeps accounts_balance (sem_set_resources maw r).
Proof.
  intros s [Hc Hf]. unfold sem_set_resources. gstep. gstep. cbv zeta. gstep. gstep. gstep. gstep.
  apply maw_keeps. split; [|exact Hf].
  unfold conserved in *. simpl. rewrite <- Hc. apply resources_ext; simpl; lia.
Qed.

End AccountsApi.

Lemma total_of_empty f : total_of f ∅ = 0.
Proof. unfold total_of. apply map_fold_empty. Qed.

Lemma accounts_make_permit base : keeps accounts_balance (make_permit base).
Proof.
  intros s [Hc Hf]. unfold make_permit, fresh, on_permit_created. gsteps.
  assert (Hnone : permits s !! next_id s = None) by (apply Hf; lia).
  split.
  - unfold conserved in *. simpl. rewrite (held_insert_fresh _ _ _ Hnone). simpl.
    rewrite <- Hc. apply resources_ext; simpl; lia.
  - intros j Hj. simpl in *. rewrite lookup_insert_ne by lia. apply Hf. lia.
Qed.

Lemma accounts_make_semaphore this cnt mem q ks kk :
  accounts_balance (make_semaphore this cnt mem q ks kk).
Proof.
  split.
  - unfold conserved, held. simpl. rewrite !total_of_empty. apply resources_ext; simpl; lia.
  - intros j _. apply lookup_empty.
Qed.

Lemma accounts_destroyed id p s :
  accounts_balance s -> permits s !! id = Some p -> accounts_balance (destroyed id p s).
Proof.
  intros [Hc Hf] Hp. split.
  - unfold conserved, destroyed in *. simpl. rewrite (held_delete _ id p Hp).
    rewrite <- Hc. apply resources_ext; simpl; lia.
  - intros j Hj. unfold destroyed. simpl. rewrite lookup_delete_ne.
    + apply Hf. exact Hj.
    + intros ->. rewrite (Hf _ Hj) in Hp. discriminate.
Qed.

Lemma accounts_base_released id p s :
  accounts_balance s -> permits s !! id = Some p -> p_base_resources_consumed p = true ->
  accounts_balance (base_released id p s).
Proof.
  intros [Hc Hf] Hp Hb. split.
  - unfold conserved, base_released in *. rewrite Hb. simpl.
    rewrite (held_insert _ id p _ Hp). simpl.
    rewrite <- Hc. apply resources_ext; simpl; lia.
  - intros j Hj. unfold base_released. simpl. rewrite lookup_insert_ne.
    + apply Hf. exact Hj.
    + intros ->. rewrite (Hf _ Hj) in Hp. discriminate.
Qed.

(** ** A background eviction is not started twice *)

Section PendingOperations.
Variables (l : list inactive_read) (c : list reader).
Variable maw : M unit.
Hypothesis maw_keeps : keeps (eviction_pending l c) maw.

Lemma pending_impl_consume id r : keeps (eviction_pending l c) (impl_consume id r).
Proof.
  intros s H. unfold impl_consume, sem_consume, on_oom_kill. gstep. gstep. gstep.
  destruct ((memory (resources s) <=? 0) && _); gsteps; exact H.
Qed.

Lemma pending_impl_signal id r : keeps (eviction_pending l c) (impl_signal maw id r).
Proof.
  intros s H. unfold impl_signal, sem_signal. gstep. gstep. gstep. gstep. simpl.
  apply maw_keeps. exact H.
Qed.

Lemma pending_admit_front x : keeps (eviction_pending l c) (admit_front maw x).
Proof.
  apply keeps_admit_front;
    first [ exact pending_impl_consume | exact pending_impl_signal | exact maw_keeps
          | solve [intros; assumption]
          | intros s; intros; destruct (ready_size s <? max_queue_length s); assumption ].
Qed.

Lemma pending_evict_readers_in_background :
  keeps (eviction_pending l c) (evict_readers_in_background maw).
Proof.
  intros s H. unfold evict_readers_in_background. gstep. gstep.
  destruct H as (He & H). rewrite He. gstep. split; assumption.
Qed.

End PendingOperations.

Lemma pending_maybe_admit_waiters l c fuel :
  keeps (eviction_pending l c) (maybe_admit_waiters fuel).
Proof.
  induction fuel as [|n IH].
  - simpl. apply keeps_abort.
  - cbn [maybe_admit_waiters]. apply keeps_noexcept.
    pose proof (pending_admit_front l c _ IH) as H1.
    pose proof (pending_evict_readers_in_background l c (maybe_admit_waiters n)) as H2.
    keeps_auto ltac:(auto) ltac:(intros; assumption).
Qed.

(** ** Guards *)

Lemma mark_used_mark_blocked_commute_witness :
  let maw := maybe_admit_waiters 3 in
  permits idle_sem !! 0%nat = Some admitted_permit
  /\ (mark_used maw 0;; mark_blocked maw 0) idle_sem
     = (mark_blocked maw 0;; mark_used maw 0) idle_sem.
Proof.
  intros maw. split; [reflexivity|].
  apply (mark_used_mark_blocked_commute maw 0 admitted_permit idle_sem); reflexivity.
Defined.

(** X2: a used guard and a blocked guard taken on an active permit without
    guards and released again, in either order, leave the semaphore and the
    permit exactly as they were, when nobody is waiting. *)
Theorem guards_restore_state (n : nat) (id : nat) (p : permit) (s : semaphore) :
  permits s !! id = Some p ->
  p_state p = active_unused -> p_marked_as_used p = false ->
  p_marked_as_blocked p = false -> p_used_branches p = 0 -> p_blocked_branches p = 0 ->
  wait_empty (wait_list s) = true ->
  0 <= blocked_permits (sem_stats s) <= used_permits (sem_stats s) ->
  used_permits (sem_stats s) < 2 ^ 64 - 1 ->
  (mark_used (maybe_admit_waiters (S n)) id;; mark_blocked (maybe_admit_waiters (S n)) id;;
   mark_unblocked id;; mark_unused (maybe_admit_waiters (S n)) id) s = Ok tt s
  /\ (mark_used (maybe_admit_waiters (S n)) id;; mark_blocked (maybe_admit_waiters (S n)) id;;
      mark_unused (maybe_admit_waiters (S n)) id;; mark_unblocked id) s = Ok tt s.
Proof.
  intros. split.
  - apply (guards_in_order _ (maybe_admit_waiters_idle n) id p); assumption.
  - apply (guards_out_of_order _ (maybe_admit_waiters_idle n) id p); assumption.
Qed.

Lemma guards_restore_state_witness :
  let maw := maybe_admit_waiters 3 in
  permits idle_sem !! 0%nat = Some admitted_permit
  /\ (mark_used maw 0;; mark_blocked maw 0;; mark_unblocked 0;; mark_unused maw 0) idle_sem
     = Ok tt idle_sem
  /\ (mark_used maw 0;; mark_blocked maw 0;; mark_unused maw 0;; mark_unblocked 0) idle_sem
     = Ok tt idle_sem.
Proof.
  intros maw. split; [reflexivity|].
  apply (guards_restore_state 2 0 admitted_permit idle_sem);
    try reflexivity; simpl; try rewrite two64; lia.
Defined.

Lemma mark_used_marked maw id p s :
  permits s !! id = Some p -> p_marked_as_used p = true ->
  mark_used maw id s = Ok tt (used_branch_added id p s).
Proof.
  intros Hp Hmu. unfold mark_used, used_branch_added. munfold.
  run_with ltac:(rewrite ?Hmu). reflexivity.
Qed.

Lemma mark_blocked_marked maw id p s :
  permits s !! id = Some p -> p_marked_as_blocked p = true ->
  0 < p_blocked_branches p < 2 ^ 64 - 1 ->
  mark_blocked maw id s = Ok tt (blocked_branch_added id p s).
Proof.
  intros Hp Hmb Hb.
  assert (C0 : (incr64 (p_blocked_branches p) =? 1) = false)
    by (rewrite incr64_small by lia; apply Z.eqb_neq; lia).
  unfold mark_blocked, blocked_branch_added. munfold.
  run_with ltac:(rewrite ?Hmb, ?C0, ?andb_false_r). reflexivity.
Qed.

(** X3: a guard taken inside a guard of the same kind only counts: the
    permit's branch counter moves, its state and the semaphore's counters
    do not, the admission loop is not entered, and releasing the inner
    guard restores the state. *)
Theorem nested_guards_only_count (maw : M unit) (id : nat) (p : permit) (s : semaphore) :
  permits s !! id = Some p ->
  (p_marked_as_used p = true -> 0 < p_used_branches p < 2 ^ 64 - 1 ->
     mark_used maw id s = Ok tt (used_branch_added id p s)
     /\ (mark_used maw id;; mark_unused maw id) s = Ok tt s)
  /\ (p_marked_as_blocked p = true -> 0 < p_blocked_branches p < 2 ^ 64 - 1 ->
        mark_blocked maw id s = Ok tt (blocked_branch_added id p s)
        /\ (mark_blocked maw id;; mark_unblocked id) s = Ok tt s).
Proof.
  intros Hp. split; intros Hm Hb; split.
  - apply mark_used_marked; assumption.
  - apply (inner_used_guard maw id p); assumption.
  - apply mark_blocked_marked; assumption.
  - apply (inner_blocked_guard maw id p); assumption.
Qed.

Lemma nested_guards_only_count_witness :
  let s := one_permit_sem blocked_permit (set_blocked_permits 1 (set_used_permits 1 stats_zero)) in
  let maw := maybe_admit_waiters 3 in
  permits s !! 0%nat = Some blocked_permit
  /\ (mark_used maw 0;; mark_unused maw 0) s = Ok tt s
  /\ (mark_blocked maw 0;; mark_unblocked 0) s = Ok tt s.
Proof.
  intros s maw.
  assert (Hp : permits s !! 0%nat = Some blocked_permit) by reflexivity.
  assert (Hr : 0 < 1 < 2 ^ 64 - 1) by (rewrite two64; lia).
  destruct (nested_guards_only_count maw 0 blocked_permit s Hp) as [H1 H2].
  split; [exact Hp|]. split.
  - exact (proj2 (H1 eq_refl Hr)).
  - exact (proj2 (H2 eq_refl Hr)).
Defined.

(** ** Charging and refunding *)

(** X4: what a permit is charged and then refunded leaves no trace: with
    nobody waiting and the kill limit not reached, [consume] followed by
    [signal] of the same resources, and the construction of a
    [resource_units] object followed by its destruction, both return the
    semaphore and the permit to the state they started from. *)
Theorem charge_and_refund_round_trip (n : nat) (id : nat) (p : permit)
    (r : reader_resources) (s : semaphore) :
  permits s !! id = Some p -> kill_limit_reached s r = false ->
  wait_empty (wait_list s) = true ->
  (impl_consume id r;; impl_signal (maybe_admit_waiters (S n)) id r) s = Ok tt s
  /\ (resource_units_consume id r ≫= resource_units_destroy (maybe_admit_waiters (S n))) s
     = Ok tt s.
Proof.
  intros Hp Hk Hw. split.
  - apply (consume_then_signal _ (maybe_admit_waiters_idle n) id p); assumption.
  - apply (units_round_trip _ (maybe_admit_waiters_idle n) id p); assumption.
Qed.

Lemma charge_and_refund_round_trip_witness :
  let maw := maybe_admit_waiters 3 in
  let r := mk_resources 0 512 in
  permits idle_sem !! 0%nat = Some admitted_permit
  /\ kill_limit_reached idle_sem r = false
  /\ (impl_consume 0 r;; impl_signal maw 0 r) idle_sem = Ok tt idle_sem
  /\ (resource_units_consume 0 r ≫= resource_units_destroy maw) idle_sem = Ok tt idle_sem.
Proof.
  intros maw r. split; [reflexivity|]. split; [reflexivity|].
  apply (charge_and_refund_round_trip 2 0 admitted_permit r idle_sem); reflexivity.
Defined.

(** X5: [resource_units::reset(res)] charges the new resources before it
    gives back the old ones.  If the charge is refused at the kill limit,
    [bad_alloc] leaves the call, the old resources stay charged and only the
    kill is recorded; otherwise the object holds [res] and the permit and
    the semaphore have exchanged the old resources for the new. *)
Theorem resource_units_reset_exchanges (n : nat) (u : resource_units) (p : permit)
    (res : reader_resources) (s : semaphore) :
  permits s !! ru_permit u = Some p -> wait_empty (wait_list s) = true ->
  resource_units_reset (maybe_admit_waiters (S n)) u res s
  = if non_zero res && kill_limit_reached s res
    then Throw bad_alloc (oom_killed (ru_permit u) p s)
    else Ok (mk_units (ru_permit u) res)
            (units_exchanged (ru_permit u) p (ru_resources u) res s).
Proof.
  intros Hp Hw. apply (units_reset_run _ (maybe_admit_waiters_idle n)); assumption.
Qed.

Lemma resource_units_reset_exchanges_witness :
  let u := mk_units 0 (mk_resources 1 100) in
  let res := mk_resources 0 300 in
  permits idle_sem !! ru_permit u = Some admitted_permit
  /\ resource_units_reset (maybe_admit_waiters 3) u res idle_sem
     = Ok (mk_units 0 res) (units_exchanged 0 admitted_permit (mk_resources 1 100) res idle_sem).
Proof.
  intros u res. split; [reflexivity|].
  exact (resource_units_reset_exchanges 2 u admitted_permit res idle_sem eq_refl eq_refl).
Defined.

Lemma accounts_base_released_iff id p s :
  accounts_balance s -> permits s !! id = Some p ->
  accounts_balance (base_released id p s)
  <-> (p_base_resources_consumed p = true \/ p_base_resources p = res_zero).
Proof.
  intros Ha Hp. split.
  - intros [Hc _]. destruct Ha as [Hc0 _].
    destruct (p_base_resources_consumed p) eqn:Hb; [left; reflexivity|right].
    unfold conserved, base_released in *. rewrite Hb in Hc. simpl in Hc.
    rewrite (held_insert _ id p _ Hp) in Hc. simpl in Hc. rewrite <- Hc0 in Hc.
    destruct (p_base_resources p) as [c m]. unfold res_zero.
    injection Hc as H1 H2. simpl in *. f_equal; lia.
  - intros [Hb|Hz]; [apply accounts_base_released; assumption|].
    destruct Ha as [Hc Hf]. split.
    + unfold conserved, base_released in *. rewrite Hz.
      destruct (p_base_resources_consumed p); simpl;
        rewrite (held_insert _ id p _ Hp); simpl;
        rewrite <- Hc; apply resources_ext; simpl; lia.
    + intros j Hj. unfold base_released. simpl. rewrite lookup_insert_ne.
      * apply Hf. exact Hj.
      * intros ->. rewrite (Hf _ Hj) in Hp. discriminate.
Qed.

(** X6: [release_base_resources] signals the permit's base resources to the
    semaphore and sets them to zero, whether or not the permit had consumed
    them; the permit's own account is reduced only if it had.  A second
    call changes nothing.  The accounts of the semaphore stay balanced
    exactly when the base resources had been consumed or were zero. *)
Theorem release_base_resources_once (n : nat) (id : nat) (p : permit) (s : semaphore) :
  permits s !! id = Some p -> wait_empty (wait_list s) = true ->
  release_base_resources (maybe_admit_waiters (S n)) id s = Ok tt (base_released id p s)
  /\ (release_base_resources (maybe_admit_waiters (S n)) id;;
      release_base_resources (maybe_admit_waiters (S n)) id) s = Ok tt (base_released id p s)
  /\ (accounts_balance s ->
        (accounts_balance (base_released id p s)
         <-> (p_base_resources_consumed p = true \/ p_base_resources p = res_zero))).
Proof.
  intros Hp Hw.
  pose proof (release_base_resources_run _ (maybe_admit_waiters_idle n) id p s Hp Hw) as H1.
  split; [exact H1|]. split.
  - unfold mbind at 1. unfold M_bind at 1. rewrite H1.
    apply (release_base_resources_again _ (maybe_admit_waiters_idle n)); assumption.
  - intros Ha. apply accounts_base_released_iff; assumption.
Qed.

Lemma release_base_resources_once_witness :
  let maw := maybe_admit_waiters 3 in
  permits idle_sem !! 0%nat = Some admitted_permit
  /\ release_base_resources maw 0 idle_sem = Ok tt (base_released 0 admitted_permit idle_sem)
  /\ (release_base_resources maw 0;; release_base_resources maw 0) idle_sem
     = Ok tt (base_released 0 admitted_permit idle_sem).
Proof.
  intros maw. split; [reflexivity|].
  destruct (release_base_resources_once 2 0 admitted_permit idle_sem eq_refl eq_refl)
    as (H1 & H2 & _).
  split; [exact H1|exact H2].
Defined.

(** X7: [on_start_sstable_read] counts the sstable on the permit and on the
    semaphore, and counts a disk read only for the permit's first open
    sstable; [on_finish_sstable_read] undoes it exactly. *)
Theorem sstable_read_counters (id : nat) (p : permit) (s : semaphore) :
  permits s !! id = Some p ->
  0 <= p_sstables_read p < 2 ^ 64 ->
  0 <= sstables_read (sem_stats s) < 2 ^ 64 ->
  0 <= disk_reads (sem_stats s) < 2 ^ 64 ->
  on_start_sstable_read id s = Ok tt (sstable_read_started id p s)
  /\ (on_start_sstable_read id;; on_finish_sstable_read id) s = Ok tt s.
Proof.
  intros Hp Hr Hs Hd. split.
  - apply sstable_read_start. exact Hp.
  - apply (sstable_read_round_trip id p); assumption.
Qed.

Lemma sstable_read_counters_witness :
  permits idle_sem !! 0%nat = Some admitted_permit
  /\ on_start_sstable_read 0 idle_sem = Ok tt (sstable_read_started 0 admitted_permit idle_sem)
  /\ (on_start_sstable_read 0;; on_finish_sstable_read 0) idle_sem = Ok tt idle_sem.
Proof.
  split; [reflexivity|].
  apply (sstable_read_counters 0 admitted_permit idle_sem);
    try reflexivity; simpl; rewrite two64; lia.
Defined.

(** X8: the destructor of a permit without open guards gives back exactly
    what the permit holds, whether or not that includes its base
    resources, takes its sstable reads out of the statistics, removes it
    from the permit list and clears the blessed permit if it was the one;
    the accounts of the semaphore still balance. *)
Theorem destroy_refunds_holdings (n : nat) (id : nat) (p : permit) (s : semaphore) :
  permits s !! id = Some p ->
  p_used_branches p = 0 -> p_blocked_branches p = 0 ->
  wait_empty (wait_list s) = true ->
  destroy (maybe_admit_waiters (S n)) id s = Ok tt (destroyed id p s)
  /\ (accounts_balance s -> accounts_balance (destroyed id p s)).
Proof.
  intros Hp Hu Hb Hw. split.
  - apply (destroy_run _ (maybe_admit_waiters_idle n)); assumption.
  - intros H. apply accounts_destroyed; assumption.
Qed.

(** The accounts of a concrete semaphore. *)
Ltac concrete_accounts :=
  split;
  [ vm_compute; reflexivity
  | let j := fresh "j" in let Hj := fresh "Hj" in
    intros j Hj; simpl in Hj; simpl;
    repeat (rewrite lookup_insert_ne by lia);
    first [apply lookup_empty | apply lookup_singleton_ne; lia] ].

Lemma destroy_refunds_holdings_witness :
  permits idle_sem !! 0%nat = Some admitted_permit
  /\ accounts_balance idle_sem
  /\ destroy (maybe_admit_waiters 3) 0 idle_sem = Ok tt (destroyed 0 admitted_permit idle_sem)
  /\ accounts_balance (destroyed 0 admitted_permit idle_sem).
Proof.
  assert (Ha : accounts_balance idle_sem) by concrete_accounts.
  destruct (destroy_refunds_holdings 2 0 admitted_permit idle_sem eq_refl eq_refl eq_refl eq_refl)
    as [H1 H2].
  split; [reflexivity|]. split; [exact Ha|]. split; [exact H1|exact (H2 Ha)].
Defined.

Lemma consumed_resources_limits_set r s :
  consumed_resources (limits_set r s) = consumed_resources s.
Proof. unfold consumed_resources, limits_set. apply resources_ext; simpl; lia. Qed.

(** X9: [set_resources] moves the available resources by the change of the
    initial resources, so that what the permits have consumed is the same
    before and after; with nobody waiting nothing else changes, and setting
    the old limits again restores the semaphore. *)
Theorem set_resources_keeps_consumed (n : nat) (r : reader_resources) (s : semaphore) :
  wait_empty (wait_list s) = true ->
  sem_set_resources (maybe_admit_waiters (S n)) r s = Ok tt (limits_set r s)
  /\ initial_resources (limits_set r s) = r
  /\ consumed_resources (limits_set r s) = consumed_resources s
  /\ (sem_set_resources (maybe_admit_waiters (S n)) r;;
      sem_set_resources (maybe_admit_waiters (S n)) (initial_resources s)) s = Ok tt s.
Proof.
  intros Hw.
  pose proof (sem_set_resources_run _ (maybe_admit_waiters_idle n) r s Hw) as H1.
  split; [exact H1|]. split; [reflexivity|]. split; [apply consumed_resources_limits_set|].
  unfold mbind at 1. unfold M_bind at 1. rewrite H1.
  rewrite (sem_set_resources_run _ (maybe_admit_waiters_idle n)) by exact Hw.
  rewrite limits_set_back. reflexivity.
Qed.

Lemma set_resources_keeps_consumed_witness :
  let maw := maybe_admit_waiters 3 in
  let r := mk_resources 10 4096 in
  wait_empty (wait_list idle_sem) = true
  /\ sem_set_resources maw r idle_sem = Ok tt (limits_set r idle_sem)
  /\ consumed_resources (limits_set r idle_sem) = mk_resources 1 100
  /\ (sem_set_resources maw r;; sem_set_resources maw (initial_resources idle_sem)) idle_sem
     = Ok tt idle_sem.
Proof.
  intros maw r.
  destruct (set_resources_keeps_consumed 2 r idle_sem eq_refl) as (H1 & _ & H3 & H4).
  split; [reflexivity|]. split; [exact H1|]. split; [rewrite H3; reflexivity|exact H4].
Defined.

(** ** The inactive-read cache *)

(** X10: [clear_inactive_reads] hands every cached reader over for closing,
    in cache order, and empties the cache; it does not evict: the permits
    stay in state [inactive] with their resources, and the statistics,
    among them the count of inactive reads, are not touched.  A handle of
    this semaphore unregisters to nothing afterwards. *)
Theorem clear_inactive_reads_drops (maw : M unit) (s : semaphore) :
  clear_inactive_reads s = Ok tt (dropped (inactive_list s) [] s)
  /\ permits (dropped (inactive_list s) [] s) = permits s
  /\ sem_stats (dropped (inactive_list s) [] s) = sem_stats s
  /\ resources (dropped (inactive_list s) [] s) = resources s
  /\ forall h, h_sem h = sem_this s ->
       unregister_inactive_read maw h (dropped (inactive_list s) [] s)
       = Ok None (dropped (inactive_list s) [] s).
Proof.
  split; [|split; [reflexivity|split; [reflexivity|split; [reflexivity|]]]].
  - unfold clear_inactive_reads. munfold. apply clear_inactive_reads_loop_run. reflexivity.
  - intros [hs [ptr|]] Hh; [|reflexivity]. simpl in Hh. subst hs.
    unfold unregister_inactive_read. munfold. simpl. rewrite Nat.eqb_refl. reflexivity.
Qed.

(** ** Admission *)

(** X11: a permit that the admission predicate accepts while nobody waits
    is admitted on the spot: it becomes active, is charged its base
    resources and counted as admitted, and the call returns a ready future
    or, with a continuation, goes through the ready list.  If the charge is
    refused at the kill limit, [bad_alloc] leaves the call with the permit
    active and not charged. *)
Theorem do_wait_admission_on_the_spot (maw : M unit) (id : nat) (p : permit)
    (func : option nat) (s : semaphore) :
  permits s !! id = Some p -> p_state p <> active_blocked ->
  p_used_branches p = 0 \/ p_blocked_branches p = 0 ->
  wait_empty (wait_list s) = true -> can_admit_read s p = yes ->
  do_wait_admission maw id func s
  = if kill_limit_reached s (p_base_resources p)
    then Throw bad_alloc
           (oom_killed id (activated p)
              (set_permits (<[id := activated p]> (permits s)) (count_used p s)))
    else match func with
         | Some f => with_ready_permit id f (admitted_now id p s)
         | None => Ok ready_future (admitted_now id p s)
         end.
Proof. apply do_wait_admission_now. Qed.

(** X12: a permit does not overtake: when somebody is waiting, or the
    admission predicate does not say yes, [do_wait_admission] only enqueues
    the permit (or sheds it) and then runs the admission loop or starts the
    background eviction, as the verdict says; the permit itself is not
    admitted by the call. *)
Theorem do_wait_admission_queues (maw : M unit) (id : nat) (p : permit)
    (func : option nat) (s : semaphore) :
  permits s !! id = Some p ->
  can_admit_read s p <> yes \/ wait_empty (wait_list s) = false ->
  do_wait_admission maw id func s
  = (fut ← enqueue_waiter maw id func wait_on_admission;
     match can_admit_read s p with
     | yes => maw
     | maybe => evict_readers_in_background maw
     | no => mret tt
     end;;
     mret fut) s.
Proof.
  intros Hp H. destruct (can_admit_read s p) eqn:Hv.
  - destruct H as [H|H]; [contradiction|].
    apply (do_wait_admission_behind maw id p); assumption.
  - rewrite (do_wait_admission_no maw id p) by assumption. munfold.
    destruct (enqueue_waiter maw id func wait_on_admission s); reflexivity.
  - apply (do_wait_admission_maybe maw id p); assumption.
Qed.

Lemma do_wait_admission_on_the_spot_witness :
  let p := new_permit (mk_resources 1 100) in
  let s := permit_created p (make_semaphore 1 2 2048 100 2 4) in
  permits s !! 0%nat = Some p /\ can_admit_read s p = yes
  /\ do_wait_admission (maybe_admit_waiters 3) 0 None s = Ok ready_future (admitted_now 0 p s).
Proof.
  intros p s.
  assert (Hp : permits s !! 0%nat = Some p) by reflexivity.
  assert (Hv : can_admit_read s p = yes) by (vm_compute; reflexivity).
  split; [exact Hp|]. split; [exact Hv|].
  rewrite (do_wait_admission_on_the_spot (maybe_admit_waiters 3) 0 p None s Hp);
    [reflexivity|discriminate|left; reflexivity|reflexivity|exact Hv].
Defined.

Lemma do_wait_admission_queues_witness :
  let p := new_permit (mk_resources 1 100) in
  let s := permit_created p (c4_sem 1948) in
  let maw := maybe_admit_waiters 3 in
  permits s !! 5%nat = Some p /\ wait_empty (wait_list s) = false
  /\ do_wait_admission maw 5 None s
     = (fut ← enqueue_waiter maw 5 None wait_on_admission; mret tt;; mret fut) s.
Proof.
  intros p s maw.
  assert (Hp : permits s !! 5%nat = Some p) by reflexivity.
  split; [exact Hp|]. split; [reflexivity|].
  rewrite (do_wait_admission_queues maw 5 p None s Hp); [|right; reflexivity].
  replace (can_admit_read s p) with no by (vm_compute; reflexivity). reflexivity.
Defined.

(** X13: [obtain_permit] on a semaphore that has room and no waiters: the
    new permit lives at the next free address, is admitted on the spot with
    base resources of one count and the requested memory, and the caller
    gets a ready future; the available resources drop by exactly the base
    resources and nothing is queued. *)
Theorem obtain_permit_on_the_spot (maw : M unit) (mem : Z) (s : semaphore) :
  wait_empty (wait_list s) = true ->
  can_admit_read s (new_permit (mk_resources 1 (to_s64 mem))) = yes ->
  kill_limit_reached s (mk_resources 1 (to_s64 mem)) = false ->
  exists s',
    obtain_permit maw mem s = Ok (next_id s, ready_future) s'
    /\ (exists q, permits s' !! next_id s = Some q /\ holds_base q active_unused
                  /\ p_base_resources q = mk_resources 1 (to_s64 mem))
    /\ resources s' = res_sub (resources s) (mk_resources 1 (to_s64 mem))
    /\ wait_list s' = wait_list s /\ ready_list s' = ready_list s
    /\ reads_admitted (sem_stats s') = incr64 (reads_admitted (sem_stats s)).
Proof.
  intros Hw Hyes Hk.
  pose proof (obtain_permit_now maw mem s Hw Hyes) as H. cbv zeta in H. rewrite Hk in H.
  eexists. split; [exact H|]. simpl.
  split; [|repeat split].
  rewrite !lookup_insert_eq. eexists. split; [reflexivity|].
  unfold holds_base. simpl. repeat split.
Qed.

Lemma obtain_permit_on_the_spot_witness :
  let s := make_semaphore 1 2 2048 100 2 4 in
  can_admit_read s (new_permit (mk_resources 1 (to_s64 100))) = yes
  /\ exists s', obtain_permit (maybe_admit_waiters 3) 100 s = Ok (0%nat, ready_future) s'
       /\ resources s' = mk_resources 1 1948.
Proof.
  intros s.
  assert (Hv : can_admit_read s (new_permit (mk_resources 1 (to_s64 100))) = yes)
    by (vm_compute; reflexivity).
  split; [exact Hv|].
  destruct (obtain_permit_on_the_spot (maybe_admit_waiters 3) 100 s eq_refl Hv)
    as (s' & Hrun & _ & Hres & _); [vm_compute; reflexivity|].
  exists s'. split; [exact Hrun|]. rewrite Hres. vm_compute. reflexivity.
Defined.

Lemma with_permit_on_the_spot_witness :
  let s := make_semaphore 1 2 2048 100 2 4 in
  can_admit_read s (new_permit (mk_resources 1 (to_s64 100))) = yes
  /\ exists s', with_permit (maybe_admit_waiters 3) 100 8 s = Ok (promise_future 1%nat) s'
       /\ ready_list s' = [mk_entry 1 0 (Some 8%nat)].
Proof.
  intros s.
  assert (Hv : can_admit_read s (new_permit (mk_resources 1 (to_s64 100))) = yes)
    by (vm_compute; reflexivity).
  split; [exact Hv|].
  destruct (with_permit_on_the_spot (maybe_admit_waiters 3) 100 8 s eq_refl Hv)
    as (s' & Hrun & Hready & _); [vm_compute; reflexivity|simpl; lia|].
  exists s'. split; [exact Hrun|exact Hready].
Defined.

(** ** Exceptions *)

Lemma noexcept_safe {A} (m : M A) s : safe false m -> noexcept m s = m s.
Proof.
  intros H. specialize (H s). unfold gwp in H. unfold noexcept.
  destruct (m s); [reflexivity|discriminate H|reflexivity].
Qed.

(** The admission of the front waiter fails at the kill limit: the
    exception is caught and set on the waiter's promise. *)
Lemma admit_front_refused maw x p s :
  permits s !! e_permit x = Some p ->
  p_state p = waiting_for_admission ->
  p_used_branches p = 0 \/ p_blocked_branches p = 0 ->
  kill_limit_reached s (p_base_resources p) = true ->
  admit_front maw x s
  = let s1 := set_permits (<[e_permit x := activated p]> (permits s)) (count_used p s) in
    let s2 := oom_killed (e_permit x) (activated p) s1 in
    Ok tt (set_settled (settled s2 ++ [(e_pr x, Some bad_alloc)]) s2).
Proof.
  intros Hp Hst Hb Hk. unfold admit_front, try_catch.
  unfold mbind at 1. unfold M_bind at 1. unfold permit_ref at 1. rewrite Hp, Hst.
  cbn [state_eqb].
  unfold mbind at 1. unfold M_bind at 1.
  unfold mbind at 1. unfold M_bind at 1.
  unfold on_admission.
  unfold mbind at 1. unfold M_bind at 1. unfold permit_ref at 1. rewrite Hp, Hst.
  unfold mbind at 1. unfold M_bind at 1. cbn [state_eqb negb assert mret M_ret].
  unfold mbind at 1. unfold M_bind at 1.
  rewrite (on_permit_active_run maw (e_permit x) p s Hp Hb).
  unfold mbind at 1. unfold M_bind at 1. unfold permit_ref at 1.
  cbn [permits set_permits]. rewrite lookup_insert_eq.
  unfold mbind at 1. unfold M_bind at 1.
  match goal with |- context [impl_consume ?i ?r ?t] =>
    rewrite (impl_consume_run i (activated p) r t) by (simpl; apply lookup_insert_eq) end.
  assert (Hbase : p_base_resources (activated p) = p_base_resources p).
  { unfold activated. destruct (p_used_branches p =? 0); reflexivity. }
  rewrite Hbase.
  match goal with |- context [kill_limit_reached ?t ?r] =>
    replace (kill_limit_reached t r) with (kill_limit_reached s r)
      by (unfold kill_limit_reached, count_used;
          destruct (p_used_branches p =? 0); reflexivity) end.
  rewrite Hk. reflexivity.
Qed.

(** X15: no exception leaves [maybe_admit_waiters] and it never ends in
    [std::terminate], from any state; and the [bad_alloc] that admitting
    the front waiter raises at the kill limit is caught inside the loop and
    set on the promise of that waiter: the loop goes on with the next
    waiter from the state [refused_at_kill_limit], in which the promise
    holds the exception and the entry has left the wait list. *)
Theorem maybe_admit_waiters_never_throws (fuel : nat) (s : semaphore) :
  match maybe_admit_waiters fuel s with
  | Ok _ _ => True
  | Throw _ _ => False
  | Crash c => c <> terminate_called
  end
  /\ (forall x p,
        wait_front (wait_list s) = Some x -> permits s !! e_permit x = Some p ->
        p_state p = waiting_for_admission ->
        p_used_branches p = 0 \/ p_blocked_branches p = 0 ->
        can_admit_read s p = yes ->
        kill_limit_reached s (p_base_resources p) = true ->
        maybe_admit_waiters (S fuel) s
        = maybe_admit_waiters fuel (refused_at_kill_limit x p s)
        /\ last (settled (refused_at_kill_limit x p s)) = Some (e_pr x, Some bad_alloc)
        /\ waiters (refused_at_kill_limit x p s) = tail (waiters s)).
Proof.
  split.
  - pose proof (maybe_admit_waiters_safe fuel false s) as H. unfold gwp in H.
    destruct (maybe_admit_waiters fuel s); [exact I|discriminate H|exact H].
  - intros x p Hx Hp Hst Hb Hyes Hk. split; [|split].
    + cbn [maybe_admit_waiters]. unfold noexcept.
      unfold mbind at 1. unfold M_bind at 1. unfold get_sem at 1. rewrite Hx.
      unfold mbind at 1. unfold M_bind at 1. unfold permit_ref at 1. rewrite Hp, Hyes.
      unfold mbind at 1. unfold M_bind at 1.
      rewrite (admit_front_refused _ x p s Hp Hst Hb Hk). cbv zeta.
      unfold mbind at 1. unfold M_bind at 1. unfold modify at 1.
      match goal with |- context [maybe_admit_waiters fuel ?u] =>
        change u with (refused_at_kill_limit x p s) end.
      pose proof (maybe_admit_waiters_safe fuel false (refused_at_kill_limit x p s)) as H.
      unfold gwp in H.
      destruct (maybe_admit_waiters fuel (refused_at_kill_limit x p s));
        [reflexivity|discriminate H|reflexivity].
    + unfold refused_at_kill_limit. cbv zeta. cbn [settled set_wait_list set_settled].
      apply last_snoc.
    + unfold refused_at_kill_limit, oom_killed, count_used, waiters, wait_pop_front,
        wait_front in *.
      destruct (p_oom_kills (activated p) =? 0), (p_used_branches p =? 0); simpl;
        destruct (memory_queue (wait_list s)); simpl; try reflexivity;
        destruct (admission_queue (wait_list s)); simpl; reflexivity.
Qed.

(** The waiter at the front asks for base resources that reach the kill
    limit: its promise gets [bad_alloc] and the loop returns. *)
Lemma maybe_admit_waiters_never_throws_witness :
  let s := kill_on_admission_sem in
  let x := mk_entry 5 0 None in
  let p := set_p_state waiting_for_admission (new_permit (mk_resources 1 3072)) in
  wait_front (wait_list s) = Some x /\ permits s !! e_permit x = Some p
  /\ can_admit_read s p = yes /\ kill_limit_reached s (p_base_resources p) = true
  /\ maybe_admit_waiters 2 s = maybe_admit_waiters 1 (refused_at_kill_limit x p s)
  /\ exists s', maybe_admit_waiters 2 s = Ok tt s'
       /\ settled s' = [(5%nat, Some bad_alloc)] /\ waiters s' = []
       /\ resources s' = resources s.
Proof.
  intros s x p.
  assert (Hx : wait_front (wait_list s) = Some x) by reflexivity.
  assert (Hp : permits s !! e_permit x = Some p) by reflexivity.
  assert (Hyes : can_admit_read s p = yes) by (vm_compute; reflexivity).
  assert (Hk : kill_limit_reached s (p_base_resources p) = true) by (vm_compute; reflexivity).
  split; [exact Hx|]. split; [exact Hp|]. split; [exact Hyes|]. split; [exact Hk|].
  destruct (maybe_admit_waiters_never_throws 1 s) as [_ Hdel].
  destruct (Hdel x p Hx Hp eq_refl (or_introl eq_refl) Hyes Hk) as (Hrun & _ & _).
  split; [exact Hrun|].
  eexists. split; [vm_compute; reflexivity|]. repeat split; vm_compute; reflexivity.
Defined.

(** X16: the guards of a permit and [release_base_resources], all declared
    [noexcept], never throw, although they can re-enter the admission
    loop. *)
Theorem permit_guards_never_throw (fuel : nat) (id : nat) :
  safe false (mark_used (maybe_admit_waiters fuel) id)
  /\ safe false (mark_unused (maybe_admit_waiters fuel) id)
  /\ safe false (mark_blocked (maybe_admit_waiters fuel) id)
  /\ safe false (mark_unblocked id)
  /\ safe false (release_base_resources (maybe_admit_waiters fuel) id).
Proof.
  pose proof (maybe_admit_waiters_safe fuel) as H.
  repeat split.
  - apply safe_mark_used; exact H.
  - apply safe_mark_unused; exact H.
  - apply safe_mark_blocked; exact H.
  - apply safe_mark_unblocked.
  - apply safe_release_base_resources; exact H.
Qed.

(** X17: the [noexcept] operations of the semaphore that refund resources
    or evict readers never throw: [signal], [register_inactive_read],
    [evict] and the destructor of a permit. *)
Theorem semaphore_refunds_never_throw (fuel : nat) :
  (forall id r, safe false (impl_signal (maybe_admit_waiters fuel) id r))
  /\ (forall r, safe false (sem_signal (maybe_admit_waiters fuel) r))
  /\ (forall alloc r, safe false (register_inactive_read (maybe_admit_waiters fuel) alloc r))
  /\ (forall ir reason, safe false (evict (maybe_admit_waiters fuel) ir reason))
  /\ (forall id, safe false (destroy (maybe_admit_waiters fuel) id)).
Proof.
  pose proof (maybe_admit_waiters_safe fuel) as H.
  repeat split; intros.
  - apply safe_impl_signal; exact H.
  - apply safe_sem_signal; exact H.
  - apply safe_register_inactive_read; exact H.
  - apply safe_evict; exact H.
  - apply safe_destroy; exact H.
Qed.

(** ** The admission loop *)

(** X18: on a well-formed semaphore [maybe_admit_waiters] returns, and
    when it does the waiters that are left are a tail of those it found, in
    the same order, and the one at the front cannot be admitted: nobody who
    could run is left waiting at the head of the queue. *)
Theorem maybe_admit_waiters_settles (fuel : nat) (s : semaphore) :
  wf s -> (length (waiters s) + 2 <= fuel)%nat ->
  exists s', maybe_admit_waiters fuel s = Ok tt s'
    /\ wf s'
    /\ (exists k, waiters s' = drop k (waiters s))
    /\ front_not_admissible s'.
Proof.
  intros Hwf Hfuel.
  destruct (maybe_admit_waiters_returns fuel s Hwf Hfuel) as (s' & Hrun & Ha).
  pose proof (maybe_admit_waiters_front fuel s) as Hf. unfold gwp in Hf. rewrite Hrun in Hf.
  exists s'. split; [exact Hrun|]. destruct Ha. auto.
Qed.

Lemma maybe_admit_waiters_settles_witness :
  wf queued_sem
  /\ exists s', maybe_admit_waiters 3 queued_sem = Ok tt s'
       /\ waiters s' = [] /\ settled s' = [(3%nat, None)].
Proof.
  assert (Hwf : wf queued_sem) by concrete_wf.
  split; [exact Hwf|].
  destruct (maybe_admit_waiters_settles 3 queued_sem Hwf) as (s' & Hrun & _);
    [simpl; lia|].
  exists s'. split; [exact Hrun|].
  assert (H : maybe_admit_waiters 3 queued_sem
              = Ok tt (match maybe_admit_waiters 3 queued_sem with
                       | Ok _ t => t | _ => queued_sem end))
    by (vm_compute; reflexivity).
  rewrite H in Hrun. injection Hrun as <-. split; vm_compute; reflexivity.
Defined.

(** X19: while a background eviction is under way, [maybe_admit_waiters]
    does not start another one: it returns with the flag still set, and
    has neither touched the cache nor handed a reader over for closing. *)
Theorem maybe_admit_waiters_no_second_eviction (fuel : nat) (s : semaphore) :
  wf s -> evicting s = true -> (length (waiters s) + 2 <= fuel)%nat ->
  exists s', maybe_admit_waiters fuel s = Ok tt s'
    /\ evicting s' = true
    /\ inactive_list s' = inactive_list s
    /\ closed_readers s' = closed_readers s.
Proof.
  intros Hwf Hev Hfuel.
  destruct (maybe_admit_waiters_returns fuel s Hwf Hfuel) as (s' & Hrun & _).
  pose proof (pending_maybe_admit_waiters (inactive_list s) (closed_readers s) fuel s) as H.
  unfold gwp in H. rewrite Hrun in H.
  destruct H as (H1 & H2 & H3); [repeat split; assumption|].
  exists s'. auto.
Qed.

Lemma maybe_admit_waiters_no_second_eviction_witness :
  wf evicting_sem /\ evicting evicting_sem = true
  /\ exists s', maybe_admit_waiters 3 evicting_sem = Ok tt s'
       /\ inactive_list s' = [mk_inactive_read 2 (mk_reader 7 0 0)]
       /\ closed_readers s' = [].
Proof.
  assert (Hwf : wf evicting_sem) by concrete_wf.
  split; [exact Hwf|]. split; [reflexivity|].
  destruct (maybe_admit_waiters_no_second_eviction 3 evicting_sem Hwf eq_refl)
    as (s' & Hrun & _ & H2 & H3); [simpl; lia|].
  exists s'. split; [exact Hrun|]. split; [exact H2|exact H3].
Defined.

(** ** Conservation of resources: the theorems *)

(** X20: [maybe_admit_waiters] conserves resources: on a well-formed
    semaphore whose available resources and permits' holdings add up to
    the initial resources, they still do when it returns. *)
Theorem maybe_admit_waiters_conserves (fuel : nat) (s : semaphore) :
  wf s -> accounts_balance s -> (length (waiters s) + 2 <= fuel)%nat ->
  exists s', maybe_admit_waiters fuel s = Ok tt s' /\ accounts_balance s'.
Proof.
  intros Hwf Ha Hfuel.
  destruct (maybe_admit_waiters_returns fuel s Hwf Hfuel) as (s' & Hrun & _).
  pose proof (accounts_maybe_admit_waiters fuel s Ha) as H. unfold gwp in H.
  rewrite Hrun in H. exists s'. auto.
Qed.

Lemma maybe_admit_waiters_conserves_witness :
  wf queued_sem /\ accounts_balance queued_sem
  /\ exists s', maybe_admit_waiters 3 queued_sem = Ok tt s' /\ accounts_balance s'.
Proof.
  assert (Hwf : wf queued_sem) by concrete_wf.
  assert (Ha : accounts_balance queued_sem) by concrete_accounts.
  split; [exact Hwf|]. split; [exact Ha|].
  apply (maybe_admit_waiters_conserves 3 queued_sem Hwf Ha). simpl. lia.
Defined.

(** X21: the accounts of a new semaphore balance, and creating a permit
    and sending it through admission keep them balanced, whether the permit
    is admitted, queued, shed or killed. *)
Theorem admission_conserves (fuel : nat) (s : semaphore) :
  accounts_balance s ->
  (forall this cnt mem q ks kk, accounts_balance (make_semaphore this cnt mem q ks kk))
  /\ (forall base, conserves (make_permit base) s)
  /\ (forall id func, conserves (do_wait_admission (maybe_admit_waiters fuel) id func) s).
Proof.
  intros Ha. pose proof (accounts_maybe_admit_waiters fuel) as Hm.
  split; [intros; apply accounts_make_semaphore|]. split; intros.
  - apply accounts_make_permit. exact Ha.
  - apply accounts_do_wait_admission; assumption.
Qed.

Lemma admission_conserves_witness :
  accounts_balance queued_sem
  /\ conserves (do_wait_admission (maybe_admit_waiters 3) 0 None) queued_sem.
Proof.
  assert (Ha : accounts_balance queued_sem) by concrete_accounts.
  split; [exact Ha|].
  exact (proj2 (proj2 (admission_conserves 3 queued_sem Ha)) 0%nat None).
Defined.

(** X22: charging a permit, refunding it, asking for memory and every
    operation of a [resource_units] object keep the accounts balanced,
    also when the charge is refused at the kill limit. *)
Theorem memory_operations_conserve (fuel : nat) (s : semaphore) :
  accounts_balance s ->
  (forall id r, conserves (impl_consume id r) s)
  /\ (forall id r, conserves (impl_signal (maybe_admit_waiters fuel) id r) s)
  /\ (forall id n, conserves (impl_request_memory (maybe_admit_waiters fuel) id n) s)
  /\ (forall id r, conserves (resource_units_consume id r) s)
  /\ (forall u r, conserves (resource_units_reset (maybe_admit_waiters fuel) u r) s)
  /\ (forall u, conserves (resource_units_destroy (maybe_admit_waiters fuel) u) s).
Proof.
  intros Ha. pose proof (accounts_maybe_admit_waiters fuel) as Hm.
  repeat split; intros.
  - apply accounts_impl_consume; assumption.
  - apply accounts_impl_signal; assumption.
  - apply accounts_impl_request_memory; assumption.
  - apply accounts_resource_units_consume; assumption.
  - apply accounts_resource_units_reset; assumption.
  - apply accounts_resource_units_destroy; assumption.
Qed.

Lemma memory_operations_conserve_witness :
  accounts_balance idle_sem
  /\ conserves (impl_consume 0 (mk_resources 0 4096)) idle_sem
  /\ conserves (impl_request_memory (maybe_admit_waiters 3) 0 4096) idle_sem.
Proof.
  assert (Ha : accounts_balance idle_sem) by concrete_accounts.
  destruct (memory_operations_conserve 3 idle_sem Ha) as (H1 & _ & H3 & _).
  split; [exact Ha|]. split; [apply H1|apply H3].
Defined.

(** X23: caching a reader, taking it back and evicting it keep the
    accounts balanced: an eviction refunds the permit's base resources to
    the semaphore and takes them off the permit. *)
Theorem cache_operations_conserve (fuel : nat) (s : semaphore) :
  accounts_balance s ->
  (forall alloc r, conserves (register_inactive_read (maybe_admit_waiters fuel) alloc r) s)
  /\ (forall h, conserves (unregister_inactive_read (maybe_admit_waiters fuel) h) s)
  /\ (forall reason,
        conserves (try_evict_one_inactive_read (maybe_admit_waiters fuel) reason) s).
Proof.
  intros Ha. pose proof (accounts_maybe_admit_waiters fuel) as Hm.
  repeat split; intros.
  - apply accounts_register_inactive_read; assumption.
  - apply accounts_unregister_inactive_read; assumption.
  - apply accounts_try_evict_one_inactive_read; assumption.
Qed.

Lemma cache_operations_conserve_witness :
  accounts_balance evicting_sem
  /\ conserves (try_evict_one_inactive_read (maybe_admit_waiters 3) evict_manual) evicting_sem.
Proof.
  assert (Ha : accounts_balance evicting_sem) by concrete_accounts.
  split; [exact Ha|].
  exact (proj2 (proj2 (cache_operations_conserve 3 evicting_sem Ha)) evict_manual).
Defined.

(** X24: the guards of a permit and [set_resources] keep the accounts
    balanced: the guards move no resources, and [set_resources] moves the
    available resources by as much as the initial ones. *)
Theorem guards_and_limits_conserve (fuel : nat) (s : semaphore) :
  accounts_balance s ->
  (forall id, conserves (mark_used (maybe_admit_waiters fuel) id) s)
  /\ (forall id, conserves (mark_unused (maybe_admit_waiters fuel) id) s)
  /\ (forall id, conserves (mark_blocked (maybe_admit_waiters fuel) id) s)
  /\ (forall id, conserves (mark_unblocked id) s)
  /\ (forall r, conserves (sem_set_resources (maybe_admit_waiters fuel) r) s).
Proof.
  intros Ha. pose proof (accounts_maybe_admit_waiters fuel) as Hm.
  repeat split; intros.
  - apply accounts_mark_used; assumption.
  - apply accounts_mark_unused; assumption.
  - apply accounts_mark_blocked; assumption.
  - apply accounts_mark_unblocked; assumption.
  - apply accounts_sem_set_resources; assumption.
Qed.

Lemma guards_and_limits_conserve_witness :
  accounts_balance idle_sem
  /\ conserves (sem_set_resources (maybe_admit_waiters 3) (mk_resources 10 4096)) idle_sem.
Proof.
  assert (Ha : accounts_balance idle_sem) by concrete_accounts.
  split; [exact Ha|].
  apply (guards_and_limits_conserve 3 idle_sem Ha).
Defined.

(** ** Eviction and readmission *)

Lemma try_evict_one_inactive_read_run n ir rest p s :
  inactive_list s = ir :: rest ->
  permits s !! rd_permit (ir_reader ir) = Some p ->
  p_state p = inactive -> p_base_resources_consumed p = true ->
  wait_empty (wait_list s) = true ->
  try_evict_one_inactive_read (maybe_admit_waiters (S n)) evict_manual s
  = Ok true (evicted_manually ir p s).
Proof.
  intros Hl Hp Hst Hc Hw.
  unfold try_evict_one_inactive_read, evict, detach_inactive_reader,
    do_detach_inactive_reader, close_reader.
  unfold mbind at 1. unfold M_bind at 1. unfold get_sem at 1. rewrite Hl.
  unfold mbind at 1. unfold M_bind at 1. unfold mbind at 1. unfold M_bind at 1.
  unfold mbind at 1. unfold M_bind at 1. unfold mbind at 1. unfold M_bind at 1.
  unfold modify at 1. unfold mbind at 1. unfold M_bind at 1.
  rewrite (on_evicted_run _ (rd_permit (ir_reader ir)) p) by assumption.
  rewrite Hc. unfold evicted_refund.
  unfold mbind at 1. unfold M_bind at 1.
  rewrite maybe_admit_waiters_idle by exact Hw.
  munfold. mrun. rewrite insert_insert_eq.
  unfold evicted_manually, evicted_permit. rewrite Hl. reflexivity.
Qed.

(** X25: a permit whose cached reader is evicted gets its base resources
    back on readmission.  After the eviction the permit needs readmission
    and the semaphore has the base resources again; if the admission
    predicate then accepts the permit, [wait_readmission] admits it on the
    spot, and the permit holds its base resources and the semaphore has the
    available resources it had while the reader was cached. *)
Theorem eviction_then_readmission (n : nat) (ir : inactive_read)
    (rest : list inactive_read) (p : permit) (s : semaphore) :
  inactive_list s = ir :: rest ->
  permits s !! rd_permit (ir_reader ir) = Some p ->
  p_state p = inactive -> p_base_resources_consumed p = true ->
  p_resources p = p_base_resources p -> p_used_branches p = 0 ->
  wait_empty (wait_list s) = true ->
  can_admit_read (evicted_manually ir p s) (evicted_permit p) = yes ->
  kill_limit_reached (evicted_manually ir p s) (p_base_resources p) = false ->
  try_evict_one_inactive_read (maybe_admit_waiters (S n)) evict_manual s
  = Ok true (evicted_manually ir p s)
  /\ needs_readmission (evicted_permit p) = true
  /\ resources (evicted_manually ir p s) = res_add (resources s) (p_base_resources p)
  /\ exists s2,
       wait_readmission (maybe_admit_waiters (S n)) (rd_permit (ir_reader ir))
         (evicted_manually ir p s) = Ok ready_future s2
       /\ resources s2 = resources s
       /\ inactive_list s2 = rest
       /\ exists q, permits s2 !! rd_permit (ir_reader ir) = Some q
            /\ holds_base q active_unused /\ p_base_resources q = p_base_resources p.
Proof.
  intros Hl Hp Hst Hc Hres Hu Hw Hyes Hk.
  split; [apply (try_evict_one_inactive_read_run n ir rest p s); assumption|].
  split; [reflexivity|]. split; [reflexivity|].
  unfold wait_readmission.
  rewrite (do_wait_admission_now _ (rd_permit (ir_reader ir)) (evicted_permit p) None);
    [ | simpl; apply lookup_insert_eq | discriminate | left; exact Hu | exact Hw | exact Hyes ].
  change (p_base_resources (evicted_permit p)) with (p_base_resources p). rewrite Hk.
  eexists. split; [reflexivity|].
  unfold admitted_now, charged, activated, count_used.
  change (p_used_branches (evicted_permit p)) with (p_used_branches p). rewrite Hu. simpl.
  split; [apply resources_ext; simpl; lia|].
  split; [rewrite Hl; simpl; rewrite Nat.eqb_refl; reflexivity|].
  rewrite lookup_insert_eq. eexists. split; [reflexivity|].
  unfold holds_base. simpl. repeat split.
  rewrite Hres. apply resources_ext; simpl; lia.
Qed.

Lemma eviction_then_readmission_witness :
  let ir := mk_inactive_read 2 (mk_reader 7 0 0) in
  let p := set_p_state inactive admitted_permit in
  permits cached_sem !! 0%nat = Some p
  /\ can_admit_read (evicted_manually ir p cached_sem) (evicted_permit p) = yes
  /\ try_evict_one_inactive_read (maybe_admit_waiters 3) evict_manual cached_sem
     = Ok true (evicted_manually ir p cached_sem)
  /\ exists s2,
       wait_readmission (maybe_admit_waiters 3) 0 (evicted_manually ir p cached_sem)
       = Ok ready_future s2
       /\ resources s2 = mk_resources 0 1948.
Proof.
  intros ir p.
  assert (Hv : can_admit_read (evicted_manually ir p cached_sem) (evicted_permit p) = yes)
    by (vm_compute; reflexivity).
  destruct (eviction_then_readmission 2 ir [] p cached_sem)
    as (H1 & _ & _ & s2 & H2 & H3 & _); try reflexivity; try exact Hv.
  split; [reflexivity|]. split; [exact Hv|]. split; [exact H1|].
  exists s2. split; [exact H2|exact H3].
Defined.
